(** * xv6 console driver (console.c): a shallow embedding and its properties

    The development follows console.c function by function.  Machine
    integers are [Z] with the 32-bit wrap-around written out, the input
    ring is a list of 128 byte values updated by index, and every call that
    leaves the driver (uartputc, procdump, wakeup) is recorded as an event of
    the trace the function returns.  A call that never returns (consputc
    after a panic) or whose behaviour C leaves undefined has no result and is
    modelled by [None].

    Not modelled: the spin locks (every critical section is taken as one
    atomic step; the only place where input.lock is released in the middle
    of a call is the sleep in consoleread, which is a result of its own
    here), the inode lock, the device table, cli() and the stack walk of
    getcallerpcs, whose result panic() takes as given. *)

From Stdlib Require Import ZArith Lia List Bool String Ascii.
From stdpp Require Import base tactics option list list_numbers numbers.

Local Open Scope Z_scope.

(** ** Machine integers *)

(** [uint]: the value of a C expression of type [uint]. *)
Definition uint (z : Z) : Z := z mod 2 ^ 32.

(** [sint]: conversion of a 32-bit pattern to [int]. *)
Definition sint (z : Z) : Z :=
  let u := uint z in if u <? 2 ^ 31 then u else u - 2 ^ 32.

(** The value kept in a [char] slot, as its unsigned byte.  The comparisons
    the driver makes on bytes read back from the ring are against 4 and 10
    only, whose outcome does not depend on the signedness of [char]. *)
Definition to_char (c : Z) : Z := c mod 256.

(** ** Constants of console.c *)

Definition BACKSPACE : Z := 256.                    (* #define BACKSPACE 0x100 *)
Definition C (x : ascii) : Z := Z.of_nat (nat_of_ascii x) - 64.   (* (x)-'@' *)
Definition INPUT_BUF : Z := 128.
Definition NL : Z := 10.                             (* '\n' *)
Definition CR : Z := 13.                             (* '\r' *)
Definition DEL : Z := 127.                           (* '\x7f' *)

(** ** Data *)

(** Modelled from the spec: termios.h is not part of the sources; the
    structure is given the one field console.c reads, [c_lflag], which
    carries the echo and the canonical mode bits. *)
Record termios := { c_lflag : Z }.

Module Cons.
(** struct cons, without its lock. *)
Record t := mk { locking : bool; termios_ : termios }.
End Cons.

Module Input.
(** struct input, without its lock. *)
Record t := mk { buf : list Z; r : Z; w : Z; e : Z }.
End Input.

(** The globals of console.c. *)
Record kstate := {
  st_cons : Cons.t;
  st_input : Input.t;
  panicked : bool
}.

(** Calls that leave the driver, in program order.  [EvStore b] is a ghost
    event: it marks the assignment into input.buf and carries the byte
    stored. *)
Inductive event :=
| EvPutc (c : Z)      (* uartputc(c) *)
| EvProcdump          (* procdump() *)
| EvWakeup            (* wakeup(&input.r) *)
| EvStore (b : Z).

Definition is_putc (ev : event) : bool :=
  match ev with EvPutc _ => true | _ => false end.

Definition putc_of (ev : event) : list Z :=
  match ev with EvPutc c => [c] | _ => [] end.

Definition store_of (ev : event) : list Z :=
  match ev with EvStore b => [b] | _ => [] end.

(** Bytes sent to the UART, bytes stored into the ring, and the rest. *)
Definition echoed (evs : list event) : list Z := concat (map putc_of evs).
Definition stores (evs : list event) : list Z := concat (map store_of evs).
Definition silent (evs : list event) : list event :=
  List.filter (fun ev => negb (is_putc ev)) evs.

Definition lflag (s : kstate) : Z := c_lflag (Cons.termios_ (st_cons s)).

Definition with_input (s : kstate) (i : Input.t) : kstate :=
  {| st_cons := st_cons s; st_input := i; panicked := panicked s |}.

Definition with_termios (s : kstate) (t : termios) : kstate :=
  {| st_cons := Cons.mk (Cons.locking (st_cons s)) t;
     st_input := st_input s; panicked := panicked s |}.

Definition set_e (i : Input.t) (v : Z) : Input.t :=
  Input.mk (Input.buf i) (Input.r i) (Input.w i) v.
Definition set_w (i : Input.t) (v : Z) : Input.t :=
  Input.mk (Input.buf i) (Input.r i) v (Input.e i).
Definition set_r (i : Input.t) (v : Z) : Input.t :=
  Input.mk (Input.buf i) v (Input.w i) (Input.e i).
Definition set_buf (i : Input.t) (b : list Z) : Input.t :=
  Input.mk b (Input.r i) (Input.w i) (Input.e i).

(** input.buf[k % INPUT_BUF] for an unsigned k. *)
Definition slot (k : Z) : nat := Z.to_nat (k mod INPUT_BUF).
Definition buf_at (i : Input.t) (k : Z) : Z := Input.buf i !!! slot k.

(** The statements that move a cursor. *)
Definition dec_e (i : Input.t) : Input.t :=            (* input.e-- *)
  set_e i (uint (Input.e i - 1)).
Definition store_inc_e (i : Input.t) (c : Z) : Input.t := (* input.buf[input.e++ % INPUT_BUF] = c *)
  set_e (set_buf i (<[slot (Input.e i) := to_char c]> (Input.buf i)))
        (uint (Input.e i + 1)).
Definition commit (i : Input.t) : Input.t :=           (* input.w = input.e *)
  set_w i (Input.e i).
Definition inc_r (i : Input.t) : Input.t :=            (* input.r++ *)
  set_r i (uint (Input.r i + 1)).
Definition dec_r (i : Input.t) : Input.t :=            (* input.r-- *)
  set_r i (uint (Input.r i - 1)).

(** ** consputc *)

(** After a panic consputc spins for ever: no result. *)
Definition consputc (pan : bool) (c : Z) : option (list event) :=
  if pan then None
  else if c =? BACKSPACE then Some [EvPutc 8; EvPutc 32; EvPutc 8]
  else Some [EvPutc c].

(** Every element of a list through consputc, in order. *)
Fixpoint consputs (pan : bool) (cs : list Z) : option (list event) :=
  match cs with
  | [] => Some []
  | c :: cs' =>
    o ← consputc pan c;
    os ← consputs pan cs';
    Some (o ++ os)
  end.

(** ** printint and cprintf *)

(** The characters of a string literal, as [char] values. *)
Definition bytes (s : string) : list Z :=
  map (fun a => Z.of_nat (nat_of_ascii a)) (list_ascii_of_string s).

(** static char digits[] = "0123456789abcdef", with its terminator. *)
Definition digits : list Z := bytes "0123456789abcdef" ++ [0].

(** The do-while of lines 43-45: the characters put into buf[], in index
    order (lowest digit first).  [room] is what is left of buf[16]; a store
    past its end, a division by zero and a read past digits[] are undefined
    and have no result. *)
Fixpoint printint_loop (room : nat) (x base : Z) : option (list Z) :=
  match room with
  | O => None
  | S room' =>
    if base =? 0 then None
    else
      d ← digits !! Z.to_nat (x mod base);
      if x / base =? 0 then Some [d]
      else ds ← printint_loop room' (x / base) base; Some (d :: ds)
  end.

(** printint(xx, base, sign). *)
Definition printint (pan : bool) (xx base sign : Z) : option (list event) :=
  let neg := negb (sign =? 0) && (xx <? 0) in
  let x := if neg then uint (- xx) else uint xx in
  ds ← printint_loop 16 x (uint base);
  if neg then
    if (length ds <? 16)%nat then consputs pan (rev (ds ++ [45])) else None
  else consputs pan (rev ds).

(** The string loop of lines 264-265: up to the terminator. *)
Fixpoint puts_cstr (pan : bool) (cs : list Z) : option (list event) :=
  match cs with
  | [] => Some []
  | c :: cs' =>
    if c =? 0 then Some []
    else o ← consputc pan c; os ← puts_cstr pan cs'; Some (o ++ os)
  end.

(** The for loop of cprintf (lines 244-276).  [fmt] holds the characters of
    the format from position i on, its end standing for the terminator;
    [argp] the words on the stack from argp on; [mem a] the characters of the
    string at address [a].  A conversion that finds no argument left reads
    the caller's frame: no result. *)
Fixpoint cprintf_loop (pan : bool) (mem : Z -> option (list Z))
    (fmt : list Z) (argp : list Z) : option (list event) :=
  match fmt with
  | [] => Some []
  | c0 :: rest =>
    let c := Z.land c0 255 in
    if c =? 0 then Some []
    else if negb (c =? 37) then
      o ← consputc pan c; os ← cprintf_loop pan mem rest argp; Some (o ++ os)
    else
      match rest with
      | [] => Some []
      | c1 :: rest' =>
        let c := Z.land c1 255 in
        if c =? 0 then Some []
        else if c =? 100 then                             (* 'd' *)
          match argp with
          | [] => None
          | a :: argp' =>
            o ← printint pan (sint a) 10 1;
            os ← cprintf_loop pan mem rest' argp'; Some (o ++ os)
          end
        else if (c =? 120) || (c =? 112) then             (* 'x', 'p' *)
          match argp with
          | [] => None
          | a :: argp' =>
            o ← printint pan (sint a) 16 0;
            os ← cprintf_loop pan mem rest' argp'; Some (o ++ os)
          end
        else if c =? 115 then                             (* 's' *)
          match argp with
          | [] => None
          | a :: argp' =>
            str ← (if a =? 0 then Some (bytes "(null)") else mem a);
            o ← puts_cstr pan str;
            os ← cprintf_loop pan mem rest' argp'; Some (o ++ os)
          end
        else if c =? 37 then                              (* '%' *)
          o ← consputc pan 37;
          os ← cprintf_loop pan mem rest' argp; Some (o ++ os)
        else
          o1 ← consputc pan 37; o2 ← consputc pan c;
          os ← cprintf_loop pan mem rest' argp; Some (o1 ++ o2 ++ os)
      end
  end.

(** cprintf(fmt, ...).  A null format goes to panic(), which does not
    return. *)
Definition cprintf (s : kstate) (mem : Z -> option (list Z))
    (fmt : option (list Z)) (args : list Z) : option (list event) :=
  match fmt with
  | None => None
  | Some f => cprintf_loop (panicked s) mem f args
  end.

(** The value a list of digit characters denotes, most significant first. *)
Definition digit_val (c : Z) : Z := if c <? 58 then c - 48 else c - 87.
Definition is_digit (base c : Z) : Prop :=
  (48 <= c <= 57 \/ 97 <= c <= 102) /\ 0 <= digit_val c < base.
Definition digits_value (base : Z) (ds : list Z) : Z :=
  fold_left (fun acc c => acc * base + digit_val c) ds 0.

(** A format of complete items: plain characters and two-character
    conversions.  A format that is not [plain] ends inside a conversion. *)
Fixpoint plain (fmt : list Z) : bool :=
  match fmt with
  | [] => true
  | c0 :: rest =>
    if Z.land c0 255 =? 37 then
      match rest with
      | [] => false
      | _ :: rest' => plain rest'
      end
    else plain rest
  end.

Definition cstring (fmt : list Z) : Prop := Forall (fun c => Z.land c 255 <> 0) fmt.

(** The number of arguments a format of complete items takes off the
    stack: one for each of its d, x, p and s conversions. *)
Fixpoint conversions (fmt : list Z) : nat :=
  match fmt with
  | [] => O
  | c0 :: rest =>
    if Z.land c0 255 =? 37 then
      match rest with
      | [] => O
      | c1 :: rest' =>
        let c := Z.land c1 255 in
        if (c =? 100) || (c =? 120) || (c =? 112) || (c =? 115)
        then S (conversions rest') else conversions rest'
      end
    else conversions rest
  end.

(** ** consolewrite *)

(** The for loop of consolewrite (lines 192-193): [k] rounds over the
    characters at [buf].  A read past the end of what the caller passed has
    no result. *)
Fixpoint consolewrite_loop (pan : bool) (buf : list Z) (k : nat) {struct k}
    : option (list event) :=
  match k with
  | O => Some []
  | S k' =>
    match buf with
    | [] => None
    | c :: rest =>
      o ← consputc pan (Z.land c 255);
      os ← consolewrite_loop pan rest k';
      Some (o ++ os)
    end
  end.

(** consolewrite(ip, buf, n): the calls made and the value returned.  The
    globals are only read. *)
Definition consolewrite (s : kstate) (buf : list Z) (n : Z) : option (list event * Z) :=
  o ← consolewrite_loop (panicked s) buf (Z.to_nat n);
  Some (o, n).

(** ** panic *)

Definition set_locking (s : kstate) (b : bool) : kstate :=        (* cons.locking = b *)
  {| st_cons := Cons.mk b (Cons.termios_ (st_cons s));
     st_input := st_input s; panicked := panicked s |}.

Definition set_panicked (s : kstate) : kstate :=                  (* panicked = 1 *)
  {| st_cons := st_cons s; st_input := st_input s; panicked := true |}.

(** The loop of lines 66-67 over pcs[0..k). *)
Fixpoint panic_pcs (s : kstate) (mem : Z -> option (list Z))
    (pcs : list Z) (k : nat) {struct k} : option (list event) :=
  match k with
  | O => Some []
  | S k' =>
    match pcs with
    | [] => None
    | pc :: rest =>
      o ← cprintf s mem (Some (bytes " %p")) [pc];
      os ← panic_pcs s mem rest k';
      Some (o ++ os)
    end
  end.

(** panic(s), up to the loop of line 69 in which it stays: the globals and
    the calls made when it gets there.  [cpu_id] is cpu->id, [frame] the
    words that follow the argument of cprintf(s) on the stack, which a
    conversion in the message would read, and [pcs] what getcallerpcs wrote.
    cli() is not modelled. *)
Definition panic (s : kstate) (mem : Z -> option (list Z)) (cpu_id : Z)
    (msg : option (list Z)) (frame pcs : list Z) : option (kstate * list event) :=
  let s1 := set_locking s false in
  o1 ← cprintf s1 mem (Some (bytes "cpu%d: panic: ")) [cpu_id];
  o2 ← cprintf s1 mem msg frame;
  o3 ← cprintf s1 mem (Some [NL]) [];
  o4 ← panic_pcs s1 mem pcs 10;
  Some (set_panicked s1, o1 ++ o2 ++ o3 ++ o4).

Section Console.

(** Constants of termios.h and sys/ioctl.h, which are not part of the
    sources: the two mode bits and the two request numbers. *)
Variables ECHO ICANON TCGETA TCSETA : Z.

Definition echo_on (s : kstate) : bool := negb (Z.land (lflag s) ECHO =? 0).
Definition canonical (s : kstate) : bool := negb (Z.land (lflag s) ICANON =? 0).

(** consechoc *)
Definition consechoc (s : kstate) (c : Z) : option (list event) :=
  if negb (c =? C "D") && echo_on s then consputc (panicked s) c else Some [].

(** ** consoleintr *)

(** The kill-line loop (lines 120-124).  Each round takes one off [e], so
    the distance from [w] bounds the number of rounds: [kill_line] runs the
    loop with exactly that many. *)
Fixpoint kill_loop (fuel : nat) (s : kstate) : option (kstate * list event) :=
  match fuel with
  | O => Some (s, [])
  | S fuel' =>
    let i := st_input s in
    if negb (Input.e i =? Input.w i)
       && negb (buf_at i (uint (Input.e i - 1)) =? NL)
    then
      let s1 := with_input s (dec_e i) in
      o ← consechoc s1 BACKSPACE;
      '(s2, evs) ← kill_loop fuel' s1;
      Some (s2, o ++ evs)
    else Some (s, [])
  end.

Definition kill_line (s : kstate) : option (kstate * list event) :=
  let i := st_input s in
  kill_loop (Z.to_nat (uint (Input.e i - Input.w i))) s.

(** The erase case (lines 126-131). *)
Definition erase (s : kstate) : option (kstate * list event) :=
  let i := st_input s in
  if negb (Input.e i =? Input.w i) then
    let s1 := with_input s (dec_e i) in
    o ← consechoc s1 BACKSPACE;
    Some (s1, o)
  else Some (s, []).

(** The guard of line 134. *)
Definition accumulates (s : kstate) (c : Z) : bool :=
  let i := st_input s in
  negb (c =? 0) && (uint (Input.e i - Input.r i) <? INPUT_BUF).

(** General accumulation (lines 134-142). *)
Definition accumulate (s : kstate) (c : Z) : option (kstate * list event) :=
  if accumulates s c then
    let i := st_input s in
    let c := if c =? CR then NL else c in
    let i1 := store_inc_e i c in
    let s1 := with_input s i1 in
    o ← consechoc s1 c;
    if (c =? NL) || (c =? C "D")
       || (Input.e i1 =? uint (Input.r i1 + INPUT_BUF))
       || negb (canonical s1)
    then Some (with_input s1 (commit i1),
               EvStore (to_char c) :: o ++ [EvWakeup])
    else Some (s1, EvStore (to_char c) :: o)
  else Some (s, []).

(** One round of the while loop of consoleintr, for a code [c >= 0]. *)
Definition consoleintr_step (s : kstate) (c : Z) : option (kstate * list event) :=
  if canonical s then
    if c =? C "P" then Some (s, [EvProcdump])
    else if c =? C "U" then kill_line s
    else if (c =? C "H") || (c =? DEL) then erase s
    else accumulate s c
  else accumulate s c.

(** consoleintr.  [codes] are the values the getc callback returns, in
    order; the loop stops at the first negative one, and a callback that has
    nothing left returns a negative value. *)
Fixpoint consoleintr (s : kstate) (codes : list Z) : option (kstate * list event) :=
  match codes with
  | [] => Some (s, [])
  | c :: rest =>
    if c <? 0 then Some (s, [])
    else
      '(s1, ev1) ← consoleintr_step s c;
      '(s2, ev2) ← consoleintr s1 rest;
      Some (s2, ev1 ++ ev2)
  end.

(** ** consoleread *)

(** How a call, or the part of a call between two sleeps, ends. *)
Inductive read_status :=
| ReadRet (ret : Z)               (* a return statement, with its value *)
| ReadSleep (n target : Z).       (* sleep(&input.r, &input.lock), with the locals *)

Record read_result := {
  rd_status : read_status;
  rd_dst : list Z;                (* bytes written through dst so far *)
  rd_state : kstate
}.

(** The loop of lines 156-178 from the test [n > 0] on, up to the next sleep
    or return.  [killed] is proc->killed as the test of line 158 finds it;
    that test is made at most once before the loop sleeps or returns.  The
    quota [n] goes down by one each round, so [Z.to_nat n] rounds are
    enough: [consoleread] and [consoleread_wake] give exactly that many. *)
Fixpoint read_loop (fuel : nat) (s : kstate) (killed : bool)
    (n target : Z) (dst : list Z) : read_result :=
  match fuel with
  | O => {| rd_status := ReadRet (sint (target - n)); rd_dst := dst; rd_state := s |}
  | S fuel' =>
    if 0 <? n then
      let i := st_input s in
      if Input.r i =? Input.w i then
        if killed
        then {| rd_status := ReadRet (-1); rd_dst := dst; rd_state := s |}
        else {| rd_status := ReadSleep n target; rd_dst := dst; rd_state := s |}
      else
        let c := buf_at i (Input.r i) in
        let i1 := inc_r i in
        if (c =? C "D") && canonical s then
          let i2 := if n <? target then dec_r i1 else i1 in
          {| rd_status := ReadRet (sint (target - n)); rd_dst := dst;
             rd_state := with_input s i2 |}
        else
          let s1 := with_input s i1 in
          if (c =? NL) && canonical s then
            {| rd_status := ReadRet (sint (target - (n - 1)));
               rd_dst := dst ++ [c]; rd_state := s1 |}
          else read_loop fuel' s1 killed (n - 1) target (dst ++ [c])
    else {| rd_status := ReadRet (sint (target - n)); rd_dst := dst; rd_state := s |}
  end.

(** consoleread(ip, dst, n), up to its first sleep or its return. *)
Definition consoleread (s : kstate) (killed : bool) (n : Z) : read_result :=
  read_loop (Z.to_nat n) s killed n (uint n) [].

(** A reader woken from the sleep of line 163 tests [input.r == input.w]
    again, with the locals it went to sleep with. *)
Definition consoleread_wake (s : kstate) (killed : bool)
    (n target : Z) (dst : list Z) : read_result :=
  read_loop (Z.to_nat n) s killed n target dst.

(** ** consoleioctl *)

(** What the caller of an [int] function finds: the value of a return
    statement, or nothing when control reaches the closing brace. *)
Inductive retval := Returns (v : Z) | NoReturnValue.

(** consoleioctl(ip, req).  [payload] is the outcome of argptr: [None] when
    it fails, otherwise the structure the caller's pointer designates.  The
    result gives the structure as the call leaves it. *)
Definition consoleioctl (s : kstate) (req : Z) (payload : option termios)
    : retval * kstate * option termios :=
  if negb (req =? TCGETA) && negb (req =? TCSETA) then (Returns (-1), s, payload)
  else match payload with
       | None => (Returns (-1), s, payload)
       | Some u =>
         if req =? TCGETA
         then (NoReturnValue, s, Some (Cons.termios_ (st_cons s)))
         else (NoReturnValue, with_termios s u, Some u)
       end.

(** ** consoleinit *)

(** The globals after consoleinit: statics start zeroed, then lines
    224-225. *)
Definition consoleinit : kstate :=
  {| st_cons := Cons.mk true {| c_lflag := Z.lor ECHO ICANON |};
     st_input := Input.mk (replicate 128 0) 0 0 0;
     panicked := false |}.

(** ** Reachable states and their invariants *)

(** States the driver reaches from consoleinit through its entry points,
    with two ghost lists: the bytes consoleintr stored into the ring and the
    bytes consoleread handed out, each in order.  [ok] restricts the codes
    the getc callback delivers.  A read step is a call up to its first sleep
    or return, or a woken reader with whatever locals it slept with. *)
Inductive reach (ok : Z -> Prop) : list Z -> list Z -> kstate -> Prop :=
| reach_init : reach ok [] [] consoleinit
| reach_intr P D s codes s' evs :
    reach ok P D s -> Forall ok codes ->
    consoleintr s codes = Some (s', evs) ->
    reach ok (P ++ stores evs) D s'
| reach_read P D s killed n :
    reach ok P D s ->
    reach ok P (D ++ rd_dst (consoleread s killed n))
          (rd_state (consoleread s killed n))
| reach_wake P D s killed n target :
    reach ok P D s ->
    reach ok P (D ++ rd_dst (consoleread_wake s killed n target []))
          (rd_state (consoleread_wake s killed n target []))
| reach_ioctl P D s req payload :
    reach ok P D s ->
    reach ok P D (consoleioctl s req payload).1.2.

Definition any_code (c : Z) : Prop := True.
Definition byte_code (c : Z) : Prop := 0 <= c < 256.

(** R <= W <= E and E - R <= C, as offsets from R modulo 2^32. *)
Definition cursors_ok (i : Input.t) : Prop :=
  0 <= Input.r i < 2 ^ 32 /\ 0 <= Input.w i < 2 ^ 32 /\ 0 <= Input.e i < 2 ^ 32 /\
  uint (Input.w i - Input.r i) <= uint (Input.e i - Input.r i) /\
  uint (Input.e i - Input.r i) <= INPUT_BUF.

(** The ring is an array of 128 slots, and a full window is committed. *)
Definition inv (i : Input.t) : Prop :=
  cursors_ok i /\ length (Input.buf i) = 128%nat /\
  (uint (Input.e i - Input.r i) = INPUT_BUF -> Input.w i = Input.e i).

(** No line terminator among the bytes under edit. *)
Definition no_nl (i : Input.t) : Prop :=
  forall k, 0 <= k < uint (Input.e i - Input.w i) ->
    buf_at i (uint (Input.w i + k)) <> NL.

(** The bytes between R and E, oldest first. *)
Definition window (i : Input.t) : list Z :=
  (fun k => buf_at i (uint (Input.r i + k))) <$> seqZ 0 (uint (Input.e i - Input.r i)).

(** ** Definitions used to state the properties *)

(** What consoleintr leaves alone: struct cons, the panic flag and R. *)
Definition same_frame (s s' : kstate) : Prop :=
  st_cons s' = st_cons s /\ panicked s' = panicked s /\
  Input.r (st_input s') = Input.r (st_input s).

(** What one run of the interrupt side does to the ring: the frame is left
    alone, the invariant holds again, and the new window is made of bytes of
    the old one and of bytes stored meanwhile. *)
Definition intr_ok (s s' : kstate) (evs : list event) : Prop :=
  same_frame s s' /\ inv (st_input s') /\
  window (st_input s') `sublist_of` window (st_input s) ++ stores evs.

(** What a read does to the ring between entry (or wake-up) and the next
    sleep or return: only R moves, over a prefix [taken] of the window, and
    the bytes handed out are among the bytes taken, in order. *)
Definition read_ok (s : kstate) (dst0 : list Z) (res : read_result) : Prop :=
  let i := st_input s in
  let i' := st_input (rd_state res) in
  st_cons (rd_state res) = st_cons s /\ panicked (rd_state res) = panicked s /\
  Input.buf i' = Input.buf i /\ Input.w i' = Input.w i /\ Input.e i' = Input.e i /\
  inv i' /\
  exists new taken,
    rd_dst res = dst0 ++ new /\ window i = taken ++ window i' /\
    new `sublist_of` taken.

(** The ghost lists against the ring: the bytes delivered are among the
    bytes R has passed, and these followed by the window are among the bytes
    stored, all in order. *)
Definition ghost_ok (P D : list Z) (i : Input.t) : Prop :=
  exists taken, D `sublist_of` taken /\ taken ++ window i `sublist_of` P.

(** What consechoc(BACKSPACE) sends. *)
Definition erase_echo (s : kstate) : list Z :=
  if echo_on s then [8; 32; 8] else [].

(** Two states with the same ring and the same canonical bit. *)
Definition twin (s1 s2 : kstate) : Prop :=
  st_input s1 = st_input s2 /\ canonical s1 = canonical s2.

(** Two runs that end alike: same ring, same calls other than uartputc, and
    struct cons and the panic flag left as they were in each. *)
Definition twin_out (s1 s2 s1' s2' : kstate) (ev1 ev2 : list event) : Prop :=
  st_input s1' = st_input s2' /\ silent ev1 = silent ev2 /\
  (st_cons s1' = st_cons s1 /\ panicked s1' = panicked s1) /\
  (st_cons s2' = st_cons s2 /\ panicked s2' = panicked s2).

(** The bytes between R and W, oldest first: what a reader may take. *)
Definition committed (i : Input.t) : list Z :=
  (fun k => buf_at i (uint (Input.r i + k))) <$> seqZ 0 (uint (Input.w i - Input.r i)).

(** R after [k] more bytes have been passed. *)
Definition advance (i : Input.t) (k : Z) : Input.t := set_r i (uint (Input.r i + k)).

(** The locals of a reader that is inside the loop: the quota left, the
    quota asked for and the bytes written so far. *)
Definition reader_locals (n target : Z) (dst : list Z) : Prop :=
  0 <= n <= target /\ target < 2 ^ 31 /\ Z.of_nat (length dst) = target - n.

(** A rendering of [x] in [base]: digits of the base, most significant
    first, no leading zero, denoting [x]. *)
Definition renders (base x : Z) (ds : list Z) : Prop :=
  Forall (is_digit base) ds /\ digits_value base ds = x /\
  (x = 0 -> ds = [48]) /\ (x <> 0 -> hd 0 ds <> 48).

(** ** Definitions used to state further properties *)


(** A byte over which the loop of consoleread goes on: any byte in raw
    mode, any byte but the EOF code and the terminator in canonical mode. *)
Definition passes (s : kstate) (b : Z) : Prop :=
  canonical s = false \/ (b <> C "D" /\ b <> NL).



(** ** Tactics *)

(** Goals on wrapped cursors: linear arithmetic once the divisions by 2^32,
    128 and 256 are named. *)
Ltac wrap :=
  unfold uint, INPUT_BUF, to_char in *;
  change (2 ^ 32) with 4294967296 in *;
  change (2 ^ 31) with 2147483648 in *;
  Z.div_mod_to_equations; lia.

(** Boolean tests in the hypotheses, as propositions. *)
Ltac zbool :=
  repeat match goal with
  | H : _ && _ = true |- _ => apply andb_true_iff in H; destruct H
  | H : _ || _ = false |- _ => apply orb_false_iff in H; destruct H
  | H : negb _ = true |- _ => apply negb_true_iff in H
  | H : negb _ = false |- _ => apply negb_false_iff in H
  | H : (_ =? _) = true |- _ => apply Z.eqb_eq in H
  | H : (_ =? _) = false |- _ => apply Z.eqb_neq in H
  | H : (_ <? _) = true |- _ => apply Z.ltb_lt in H
  | H : (_ <? _) = false |- _ => apply Z.ltb_ge in H
  end.

(** ** Arithmetic on the cursors *)

Lemma uint_range z : 0 <= uint z < 2 ^ 32.
Proof. wrap. Qed.

Lemma uint_id z : 0 <= z < 2 ^ 32 -> uint z = z.
Proof. intros. wrap. Qed.

Lemma slot_lt k : (slot k < 128)%nat.
Proof. unfold slot, INPUT_BUF. pose proof (Z.mod_pos_bound k 128). lia. Qed.

Lemma slot_apart a b k :
  0 < k < 128 -> uint (b - a) = k -> slot a <> slot b.
Proof. unfold slot. intros Hk Hd Heq. apply Z2Nat.inj in Heq; wrap. Qed.

(** ** The cursor statements and the invariants *)

Lemma buf_at_store i c k :
  length (Input.buf i) = 128%nat ->
  buf_at (store_inc_e i c) k =
    if decide (slot (Input.e i) = slot k) then to_char c else buf_at i k.
Proof.
  intros Hlen. unfold buf_at, store_inc_e. simpl.
  destruct (decide _) as [Heq | Hne].
  - rewrite Heq. apply list_lookup_total_insert_eq. rewrite Hlen. apply slot_lt.
  - by apply list_lookup_total_insert_ne.
Qed.

Lemma inv_dec_e i :
  inv i -> Input.e i <> Input.w i -> inv (dec_e i).
Proof.
  unfold inv, cursors_ok, dec_e. simpl. intros (Hc & Hlen & Hfull) Hne.
  assert (uint (Input.e i - Input.r i) <> INPUT_BUF) by (intros Hf; apply Hfull in Hf; lia).
  split; [| split]; [| done |]; clear Hfull; wrap.
Qed.

Lemma inv_store_inc_e i c :
  inv i -> uint (Input.e i - Input.r i) < INPUT_BUF ->
  uint (Input.e i + 1) <> uint (Input.r i + INPUT_BUF) ->
  inv (store_inc_e i c).
Proof.
  unfold inv, cursors_ok, store_inc_e. simpl. intros (Hc & Hlen & Hfull) Hroom Hnf.
  rewrite length_insert.
  split; [| split]; [| done |]; clear Hfull; wrap.
Qed.

Lemma inv_store_commit i c :
  inv i -> uint (Input.e i - Input.r i) < INPUT_BUF ->
  inv (commit (store_inc_e i c)).
Proof.
  unfold inv, cursors_ok, store_inc_e, commit. simpl. intros (Hc & Hlen & Hfull) Hroom.
  rewrite length_insert.
  split; [| split]; [| done | done]; clear Hfull; wrap.
Qed.

Lemma inv_inc_r i :
  inv i -> Input.r i <> Input.w i -> inv (inc_r i).
Proof.
  unfold inv, cursors_ok, inc_r. simpl. intros (Hc & Hlen & Hfull) Hne.
  split; [| split]; [| done |]; clear Hfull; wrap.
Qed.

Lemma dec_inc_r i :
  0 <= Input.r i < 2 ^ 32 -> dec_r (inc_r i) = i.
Proof.
  intros Hr. destruct i as [b r w e]. unfold dec_r, inc_r, set_r. simpl in *.
  f_equal. wrap.
Qed.

Lemma no_nl_dec_e i :
  inv i -> Input.e i <> Input.w i -> no_nl i -> no_nl (dec_e i).
Proof.
  unfold no_nl, dec_e, buf_at. simpl. intros (Hc & _ & _) Hne Hnl k Hk.
  apply Hnl. unfold cursors_ok in Hc. wrap.
Qed.

Lemma no_nl_commit i : no_nl (commit i).
Proof.
  unfold no_nl, commit. simpl. intros k Hk.
  replace (uint (Input.e i - Input.e i)) with 0 in Hk by wrap. lia.
Qed.

Lemma no_nl_store_inc_e i c :
  inv i -> uint (Input.e i - Input.r i) < INPUT_BUF ->
  to_char c <> NL -> no_nl i -> no_nl (store_inc_e i c).
Proof.
  intros (Hc & Hlen & Hfull) Hroom Hc10 Hnl k Hk.
  rewrite buf_at_store by done.
  unfold store_inc_e in *. simpl in *. unfold cursors_ok in Hc.
  destruct (decide _) as [Heq | Hneq]; [done |].
  apply Hnl. split; [lia |].
  assert (k <> uint (Input.e i - Input.w i)); [| clear Hfull; wrap].
  intros ->. apply Hneq. unfold slot. f_equal. clear Hfull Hneq Hnl. wrap.
Qed.

(** ** The window between R and E *)

Lemma window_commit i : window (commit i) = window i.
Proof. reflexivity. Qed.

Lemma window_dec_e i :
  inv i -> Input.e i <> Input.w i ->
  window i = window (dec_e i) ++ [buf_at i (uint (Input.e i - 1))].
Proof.
  intros (Hc & _ & _) Hne. unfold cursors_ok in Hc. unfold window, dec_e. simpl.
  set (n := uint (uint (Input.e i - 1) - Input.r i)).
  assert (Hn : uint (Input.e i - Input.r i) = n + 1) by (subst n; wrap).
  assert (0 <= n) by (subst n; wrap).
  rewrite Hn, seqZ_app, fmap_app by lia. f_equal.
  rewrite (seqZ_cons _ 1), seqZ_nil by lia. simpl. do 2 f_equal.
  subst n. wrap.
Qed.

Lemma window_store_inc_e i c :
  inv i -> uint (Input.e i - Input.r i) < INPUT_BUF ->
  window (store_inc_e i c) = window i ++ [to_char c].
Proof.
  intros (Hc & Hlen & _) Hroom. unfold cursors_ok in Hc. unfold window.
  set (n := uint (Input.e i - Input.r i)) in *.
  assert (0 <= n) by (subst n; wrap).
  assert (Hn : uint (Input.e (store_inc_e i c) - Input.r (store_inc_e i c)) = n + 1)
    by (unfold store_inc_e; simpl; subst n; wrap).
  rewrite Hn, seqZ_app, fmap_app by lia. f_equal.
  - apply Forall_fmap_ext_1, Forall_seqZ. intros k Hk.
    rewrite buf_at_store by done.
    destruct (decide _) as [Heq | _]; [| done].
    exfalso. revert Heq. apply not_eq_sym.
    apply (slot_apart _ _ (n - k)); [unfold INPUT_BUF in *; lia |].
    unfold store_inc_e. simpl. subst n. wrap.
  - rewrite (seqZ_cons _ 1), seqZ_nil by lia. simpl. f_equal.
    rewrite buf_at_store by done.
    destruct (decide _) as [_ | Hneq]; [done |].
    exfalso. apply Hneq. unfold slot, store_inc_e. simpl. f_equal. subst n. wrap.
Qed.

Lemma window_inc_r i :
  inv i -> Input.r i <> Input.w i ->
  window i = buf_at i (Input.r i) :: window (inc_r i).
Proof.
  intros (Hc & _ & _) Hne. unfold cursors_ok in Hc. unfold window, inc_r. simpl.
  set (n := uint (Input.e i - uint (Input.r i + 1))).
  assert (Hn : uint (Input.e i - Input.r i) = n + 1) by (subst n; wrap).
  assert (0 <= n) by (subst n; wrap).
  rewrite Hn, seqZ_cons by lia. rewrite fmap_cons. f_equal.
  - unfold buf_at, slot. do 2 f_equal. wrap.
  - replace (Z.pred (n + 1)) with n by lia.
    replace (Z.succ 0) with (1 + 0) by lia.
    rewrite <- fmap_add_seqZ, <- list_fmap_compose.
    apply Forall_fmap_ext_1, Forall_seqZ. intros k Hk. simpl.
    unfold buf_at, slot. do 2 f_equal. clear Hn. wrap.
Qed.

(** ** Event lists *)

Lemma same_frame_refl s : same_frame s s.
Proof. by repeat split. Qed.

Lemma same_frame_trans s1 s2 s3 :
  same_frame s1 s2 -> same_frame s2 s3 -> same_frame s1 s3.
Proof. unfold same_frame. intros (-> & -> & ->) (-> & -> & ->). done. Qed.

Lemma stores_app a b : stores (a ++ b) = stores a ++ stores b.
Proof. unfold stores. by rewrite map_app, concat_app. Qed.

Lemma stores_cons ev evs : stores (ev :: evs) = store_of ev ++ stores evs.
Proof. reflexivity. Qed.

Lemma echoed_app a b : echoed (a ++ b) = echoed a ++ echoed b.
Proof. unfold echoed. by rewrite map_app, concat_app. Qed.

Lemma silent_app a b : silent (a ++ b) = silent a ++ silent b.
Proof. unfold silent. apply List.filter_app. Qed.

Lemma consputc_shape pan c o :
  consputc pan c = Some o ->
  pan = false /\ stores o = [] /\ silent o = [] /\
  echoed o = (if c =? BACKSPACE then [8; 32; 8] else [c]).
Proof.
  unfold consputc. destruct pan; [done |].
  destruct (c =? BACKSPACE); intros [= <-]; done.
Qed.

Lemma consechoc_shape s c o :
  consechoc s c = Some o -> stores o = [] /\ silent o = [].
Proof.
  unfold consechoc. destruct (_ && _).
  - intros H. apply consputc_shape in H. tauto.
  - intros [= <-]. done.
Qed.

Lemma consechoc_total s c :
  panicked s = false -> is_Some (consechoc s c).
Proof.
  unfold consechoc, consputc. intros ->.
  destruct (_ && _); [destruct (c =? BACKSPACE) |]; eauto.
Qed.

(** ** consoleintr keeps the invariants *)

Lemma intr_ok_refl s : inv (st_input s) -> intr_ok s s [].
Proof.
  intros Hi. split; [apply same_frame_refl |]. split; [done |].
  simpl. by rewrite app_nil_r.
Qed.

Lemma intr_ok_trans s s1 s2 ev1 ev2 :
  intr_ok s s1 ev1 -> intr_ok s1 s2 ev2 -> intr_ok s s2 (ev1 ++ ev2).
Proof.
  intros (Hf1 & _ & Hw1) (Hf2 & Hi2 & Hw2).
  split; [by eapply same_frame_trans |]. split; [done |].
  rewrite stores_app, app_assoc. etrans; [exact Hw2 |].
  by apply sublist_app.
Qed.

Lemma erase_step_ok s o :
  inv (st_input s) -> Input.e (st_input s) <> Input.w (st_input s) ->
  consechoc (with_input s (dec_e (st_input s))) BACKSPACE = Some o ->
  intr_ok s (with_input s (dec_e (st_input s))) o.
Proof.
  intros Hi Hne Ho. apply consechoc_shape in Ho as [Hst _].
  split; [by repeat split |]. split; [by apply inv_dec_e |].
  simpl. rewrite Hst, app_nil_r, (window_dec_e (st_input s)) by done.
  by apply sublist_inserts_r.
Qed.

Lemma kill_loop_ok fuel s s' evs :
  inv (st_input s) -> kill_loop fuel s = Some (s', evs) -> intr_ok s s' evs.
Proof.
  revert s s' evs. induction fuel as [| fuel IH]; simpl; intros s s' evs Hi H.
  - injection H as <- <-. by apply intr_ok_refl.
  - destruct (_ && _) eqn:Hcond; [| injection H as <- <-; by apply intr_ok_refl].
    zbool.
    destruct (consechoc _ BACKSPACE) as [o |] eqn:Ho; [| done]. simpl in H.
    destruct (kill_loop fuel _) as [[s2 ev2] |] eqn:Hk; [| done]. simpl in H.
    injection H as <- <-.
    pose proof (erase_step_ok s o Hi ltac:(done) Ho) as Hstep.
    eapply intr_ok_trans; [exact Hstep |]. apply IH; [| done]. apply Hstep.
Qed.

Lemma erase_ok s s' evs :
  inv (st_input s) -> erase s = Some (s', evs) -> intr_ok s s' evs.
Proof.
  unfold erase. intros Hi H.
  destruct (negb _) eqn:Hcond; [| injection H as <- <-; by apply intr_ok_refl].
  zbool.
  destruct (consechoc _ BACKSPACE) as [o |] eqn:Ho; [| done]. simpl in H.
  injection H as <- <-. by apply erase_step_ok.
Qed.

Lemma accumulate_ok s c s' evs :
  inv (st_input s) -> accumulate s c = Some (s', evs) -> intr_ok s s' evs.
Proof.
  unfold accumulate, accumulates. intros Hi H.
  destruct (_ && _) eqn:Hcond; [| injection H as <- <-; by apply intr_ok_refl].
  zbool.
  set (c' := if c =? CR then NL else c) in *.
  destruct (consechoc _ c') as [o |] eqn:Ho; [| done]. simpl in H.
  apply consechoc_shape in Ho as [Hst _].
  destruct (_ || _) eqn:Hcommit; injection H as <- <-.
  - split; [by repeat split |]. split; [by apply inv_store_commit |].
    rewrite stores_cons, stores_app, Hst. simpl.
    rewrite window_commit, window_store_inc_e by done. done.
  - zbool. split; [by repeat split |]. split.
    + apply inv_store_inc_e; [done | done |].
      unfold store_inc_e in *. simpl in *. done.
    + rewrite stores_cons, Hst. simpl. by rewrite window_store_inc_e.
Qed.

Lemma consoleintr_step_ok s c s' evs :
  inv (st_input s) -> consoleintr_step s c = Some (s', evs) -> intr_ok s s' evs.
Proof.
  unfold consoleintr_step, kill_line. intros Hi H.
  destruct (canonical s); [| by eapply accumulate_ok].
  destruct (c =? C "P").
  { injection H as <- <-. split; [apply same_frame_refl |]. split; [done |].
    simpl. by rewrite app_nil_r. }
  destruct (c =? C "U"); [by eapply kill_loop_ok |].
  destruct (_ || _); [by eapply erase_ok | by eapply accumulate_ok].
Qed.

Lemma consoleintr_ok codes s s' evs :
  inv (st_input s) -> consoleintr s codes = Some (s', evs) -> intr_ok s s' evs.
Proof.
  revert s s' evs. induction codes as [| c rest IH]; simpl; intros s s' evs Hi H.
  - injection H as <- <-. by apply intr_ok_refl.
  - destruct (c <? 0); [injection H as <- <-; by apply intr_ok_refl |].
    destruct (consoleintr_step s c) as [[s1 ev1] |] eqn:H1; [| done]. simpl in H.
    destruct (consoleintr s1 rest) as [[s2 ev2] |] eqn:H2; [| done]. simpl in H.
    injection H as <- <-.
    apply consoleintr_step_ok in H1; [| done].
    eapply intr_ok_trans; [exact H1 |]. apply IH; [apply H1 | done].
Qed.

(** On a console that has not panicked the interrupt side always returns. *)
Lemma kill_loop_total fuel s :
  panicked s = false -> is_Some (kill_loop fuel s).
Proof.
  revert s. induction fuel as [| fuel IH]; simpl; intros s Hp; [eauto |].
  destruct (_ && _); [| eauto].
  destruct (consechoc_total (with_input s (dec_e (st_input s))) BACKSPACE Hp) as [o ->].
  simpl. destruct (IH (with_input s (dec_e (st_input s))) Hp) as [[s2 ev2] ->].
  simpl. eauto.
Qed.

Lemma consoleintr_step_total s c :
  panicked s = false -> is_Some (consoleintr_step s c).
Proof.
  intros Hp.
  assert (Hacc : is_Some (accumulate s c)).
  { unfold accumulate. destruct (accumulates s c); [| eauto].
    match goal with |- context [consechoc ?s1 ?c1] =>
      destruct (consechoc_total s1 c1 Hp) as [o ->] end.
    simpl. destruct (_ || _); eauto. }
  unfold consoleintr_step, kill_line, erase.
  destruct (canonical s); [| done].
  destruct (c =? C "P"); [eauto |].
  destruct (c =? C "U"); [by apply kill_loop_total |].
  destruct (_ || _); [| done].
  destruct (negb _); [| eauto].
  destruct (consechoc_total (with_input s (dec_e (st_input s))) BACKSPACE Hp) as [o ->].
  simpl. eauto.
Qed.

(** With byte codes, no line terminator stays under edit. *)
Lemma kill_loop_no_nl fuel s s' evs :
  inv (st_input s) -> no_nl (st_input s) ->
  kill_loop fuel s = Some (s', evs) -> no_nl (st_input s').
Proof.
  revert s s' evs. induction fuel as [| fuel IH]; simpl; intros s s' evs Hi Hnl H.
  - by injection H as <- <-.
  - destruct (_ && _) eqn:Hcond; [| by injection H as <- <-].
    zbool.
    destruct (consechoc _ BACKSPACE) as [o |] eqn:Ho; [| done]. simpl in H.
    destruct (kill_loop fuel _) as [[s2 ev2] |] eqn:Hk; [| done]. simpl in H.
    injection H as <- <-.
    eapply IH; [| | exact Hk]; simpl; [by apply inv_dec_e | by apply no_nl_dec_e].
Qed.

Lemma accumulate_no_nl s c s' evs :
  inv (st_input s) -> no_nl (st_input s) -> byte_code c ->
  accumulate s c = Some (s', evs) -> no_nl (st_input s').
Proof.
  unfold accumulate, accumulates, byte_code. intros Hi Hnl Hc H.
  destruct (_ && _) eqn:Hcond; [| by injection H as <- <-].
  zbool.
  set (c' := if c =? CR then NL else c) in *.
  destruct (consechoc _ c') as [o |] eqn:Ho; [| done]. simpl in H.
  destruct (_ || _) eqn:Hcommit; injection H as <- <-; simpl.
  - apply no_nl_commit.
  - zbool. apply no_nl_store_inc_e; [done | done | | done].
    assert (0 <= c' < 256) by (subst c'; unfold NL; destruct (c =? CR); lia).
    unfold to_char. rewrite Z.mod_small by lia. done.
Qed.

Lemma consoleintr_step_no_nl s c s' evs :
  inv (st_input s) -> no_nl (st_input s) -> byte_code c ->
  consoleintr_step s c = Some (s', evs) -> no_nl (st_input s').
Proof.
  unfold consoleintr_step, kill_line, erase. intros Hi Hnl Hc H.
  destruct (canonical s); [| by eapply accumulate_no_nl].
  destruct (c =? C "P"); [by injection H as <- <- |].
  destruct (c =? C "U"); [by eapply kill_loop_no_nl |].
  destruct (_ || _); [| by eapply accumulate_no_nl].
  destruct (negb _) eqn:Hcond; [| by injection H as <- <-].
  zbool.
  destruct (consechoc _ BACKSPACE) as [o |] eqn:Ho; [| done]. simpl in H.
  injection H as <- <-. simpl. by apply no_nl_dec_e.
Qed.

Lemma consoleintr_no_nl codes s s' evs :
  inv (st_input s) -> no_nl (st_input s) -> Forall byte_code codes ->
  consoleintr s codes = Some (s', evs) -> no_nl (st_input s').
Proof.
  revert s s' evs. induction codes as [| c rest IH]; simpl; intros s s' evs Hi Hnl Hcs H.
  - by injection H as <- <-.
  - destruct (c <? 0); [by injection H as <- <- |].
    destruct (consoleintr_step s c) as [[s1 ev1] |] eqn:H1; [| done]. simpl in H.
    destruct (consoleintr s1 rest) as [[s2 ev2] |] eqn:H2; [| done]. simpl in H.
    injection H as <- <-. inversion Hcs; subst.
    eapply IH; [| | done | exact H2].
    + by apply consoleintr_step_ok in H1 as (_ & ? & _).
    + by eapply consoleintr_step_no_nl.
Qed.

(** ** consoleread keeps the invariants *)

Lemma with_input_same s : with_input s (st_input s) = s.
Proof. by destruct s. Qed.

Lemma read_ok_here s dst st :
  inv (st_input s) ->
  read_ok s dst {| rd_status := st; rd_dst := dst; rd_state := s |}.
Proof.
  intros Hi. unfold read_ok. simpl. split_and!; try done.
  exists [], []. by rewrite app_nil_r.
Qed.

Lemma read_loop_ok fuel s killed n target dst :
  inv (st_input s) -> read_ok s dst (read_loop fuel s killed n target dst).
Proof.
  revert s n dst. induction fuel as [| fuel IH]; simpl; intros s n dst Hi.
  { by apply read_ok_here. }
  destruct (0 <? n); [| by apply read_ok_here].
  destruct (Input.r (st_input s) =? Input.w (st_input s)) eqn:Hrw.
  { destruct killed; by apply read_ok_here. }
  zbool.
  pose proof (window_inc_r _ Hi Hrw) as Hwin.
  pose proof (inv_inc_r _ Hi Hrw) as Hi1.
  set (c := buf_at (st_input s) (Input.r (st_input s))) in *.
  destruct ((c =? C "D") && canonical s) eqn:Heof.
  { destruct (n <? target).
    - rewrite dec_inc_r, with_input_same by apply Hi. by apply read_ok_here.
    - unfold read_ok. simpl. split_and!; try done.
      exists [], [c]. rewrite app_nil_r. split_and!; [done | done |].
      apply sublist_nil_l. }
  destruct ((c =? NL) && canonical s) eqn:Hnl.
  { unfold read_ok. simpl. split_and!; try done.
    exists [c], [c]. done. }
  specialize (IH (with_input s (inc_r (st_input s))) (n - 1) (dst ++ [c]) Hi1).
  destruct IH as (Hc & Hp & Hb & Hw & He & Hi' & new & taken & Hd & Hwn & Hsub).
  unfold read_ok. simpl in *. split_and!; try done.
  exists (c :: new), (c :: taken). split_and!.
  - by rewrite Hd, <- app_assoc.
  - by rewrite Hwin, Hwn.
  - by constructor.
Qed.

Lemma no_nl_same i i' :
  Input.buf i' = Input.buf i -> Input.w i' = Input.w i -> Input.e i' = Input.e i ->
  no_nl i -> no_nl i'.
Proof. unfold no_nl, buf_at. intros -> -> ->. done. Qed.

(** ** The loops run on enough fuel *)

(** Any two amounts of fuel from the distance E - W up give the kill-line
    loop the same outcome: [kill_line] does not cut the loop short. *)
Lemma kill_loop_fuel f1 : forall f2 s,
  inv (st_input s) ->
  (Z.to_nat (uint (Input.e (st_input s) - Input.w (st_input s))) <= f1)%nat ->
  (Z.to_nat (uint (Input.e (st_input s) - Input.w (st_input s))) <= f2)%nat ->
  kill_loop f1 s = kill_loop f2 s.
Proof.
  induction f1 as [| f1 IH]; intros f2 s Hi H1 H2.
  - assert (Hew : Input.e (st_input s) = Input.w (st_input s)).
    { destruct Hi as (Hc & _). unfold cursors_ok in Hc. wrap. }
    destruct f2 as [| f2]; simpl; [done |].
    by rewrite Hew, Z.eqb_refl.
  - simpl. destruct (Input.e (st_input s) =? Input.w (st_input s)) eqn:Hew; zbool.
    { simpl. destruct f2 as [| f2]; simpl; [done |].
      by rewrite Hew, Z.eqb_refl. }
    assert (Hc := proj1 Hi). unfold cursors_ok in Hc.
    assert (Hd : uint (Input.e (dec_e (st_input s)) - Input.w (dec_e (st_input s)))
                 = uint (Input.e (st_input s) - Input.w (st_input s)) - 1).
    { unfold dec_e. simpl. wrap. }
    assert (Hpos : 0 < uint (Input.e (st_input s) - Input.w (st_input s))) by wrap.
    destruct f2 as [| f2]; [lia |]. simpl.
    apply Z.eqb_neq in Hew. rewrite Hew. simpl. apply Z.eqb_neq in Hew.
    destruct (negb _); [| done].
    rewrite (IH f2 (with_input s (dec_e (st_input s))));
      [done | by apply inv_dec_e | |];
      change (st_input (with_input s (dec_e (st_input s)))) with (dec_e (st_input s));
      rewrite Hd; lia.
Qed.

(** Any two amounts of fuel from the quota up give the read loop the same
    outcome: [consoleread] does not cut the loop short. *)
Lemma read_loop_fuel f1 : forall f2 s killed n target dst,
  (Z.to_nat n <= f1)%nat -> (Z.to_nat n <= f2)%nat ->
  read_loop f1 s killed n target dst = read_loop f2 s killed n target dst.
Proof.
  induction f1 as [| f1 IH]; intros f2 s killed n target dst H1 H2.
  - destruct f2 as [| f2]; simpl; [done |].
    replace (0 <? n) with false by (symmetry; apply Z.ltb_ge; lia). done.
  - simpl. destruct (0 <? n) eqn:Hn; zbool.
    2:{ destruct f2 as [| f2]; simpl; [done |].
        replace (0 <? n) with false by (symmetry; apply Z.ltb_ge; lia). done. }
    destruct f2 as [| f2]; [lia |]. simpl.
    replace (0 <? n) with true by (symmetry; apply Z.ltb_lt; lia).
    destruct (_ =? Input.w _); [done |].
    destruct (_ && canonical s); [done |].
    destruct (_ && canonical s); [done |].
    apply IH; lia.
Qed.

(** ** Invariants of the reachable states *)

Lemma inv_consoleinit : inv (st_input consoleinit).
Proof.
  unfold inv, cursors_ok, uint, INPUT_BUF. simpl. repeat split; try lia; try done.
Qed.

Lemma ghost_read P D s res :
  ghost_ok P D (st_input s) -> read_ok s [] res ->
  ghost_ok P (D ++ rd_dst res) (st_input (rd_state res)).
Proof.
  intros (taken & HD & HP) (_ & _ & _ & _ & _ & _ & new & tk & Hd & Hw & Hsub).
  exists (taken ++ tk). rewrite Hd. simpl. split.
  - by apply sublist_app.
  - by rewrite <- app_assoc, <- Hw.
Qed.

Lemma reach_inv ok P D s :
  reach ok P D s ->
  inv (st_input s) /\ panicked s = false /\ ghost_ok P D (st_input s).
Proof.
  induction 1 as [| P D s codes s' evs _ (Hi & Hp & Hg) _ Hrun
                  | P D s killed n _ (Hi & Hp & Hg)
                  | P D s killed n target _ (Hi & Hp & Hg)
                  | P D s req payload _ (Hi & Hp & Hg)].
  - split; [apply inv_consoleinit |]. split; [done |].
    exists []. split; [done |]. apply sublist_nil_l.
  - apply consoleintr_ok in Hrun as ((_ & Hp' & _) & Hi' & Hw); [| done].
    split; [done |]. split; [congruence |].
    destruct Hg as (taken & HD & HP). exists taken. split; [done |].
    etrans; [apply sublist_app; [reflexivity | exact Hw] |].
    rewrite app_assoc. by apply sublist_app.
  - pose proof (read_loop_ok (Z.to_nat n) s killed n (uint n) [] Hi) as Hr.
    fold (consoleread s killed n) in Hr.
    split; [apply Hr |]. split; [destruct Hr as (_ & -> & _); done |].
    by eapply ghost_read.
  - pose proof (read_loop_ok (Z.to_nat n) s killed n target [] Hi) as Hr.
    fold (consoleread_wake s killed n target []) in Hr.
    split; [apply Hr |]. split; [destruct Hr as (_ & -> & _); done |].
    by eapply ghost_read.
  - unfold consoleioctl.
    destruct (_ && _); [done |]. destruct payload; [| done].
    destruct (req =? TCGETA); done.
Qed.

Lemma no_nl_consoleinit : no_nl (st_input consoleinit).
Proof.
  unfold no_nl. simpl. intros k Hk.
  change (uint (0 - 0)) with 0 in Hk. lia.
Qed.

Lemma reach_no_nl P D s :
  reach byte_code P D s -> no_nl (st_input s).
Proof.
  induction 1 as [| P D s codes s' evs Hs IH Hok Hrun
                  | P D s killed n Hs IH
                  | P D s killed n target Hs IH
                  | P D s req payload Hs IH].
  - apply no_nl_consoleinit.
  - apply reach_inv in Hs as (Hi & _). by eapply consoleintr_no_nl.
  - apply reach_inv in Hs as (Hi & _).
    pose proof (read_loop_ok (Z.to_nat n) s killed n (uint n) [] Hi) as Hr.
    fold (consoleread s killed n) in Hr.
    destruct Hr as (_ & _ & Hb & Hw & He & _). by eapply no_nl_same.
  - apply reach_inv in Hs as (Hi & _).
    pose proof (read_loop_ok (Z.to_nat n) s killed n target [] Hi) as Hr.
    fold (consoleread_wake s killed n target []) in Hr.
    destruct Hr as (_ & _ & Hb & Hw & He & _). by eapply no_nl_same.
  - unfold consoleioctl.
    destruct (_ && _); [done |]. destruct payload; [| done].
    destruct (req =? TCGETA); done.
Qed.

(** ** The kill-line loop *)

Lemma consechoc_backspace s o :
  consechoc s BACKSPACE = Some o ->
  echoed o = erase_echo s /\ silent o = [] /\ stores o = [].
Proof.
  unfold consechoc, erase_echo, consputc. simpl.
  destruct (echo_on s); [destruct (panicked s); [done |] |]; intros [= <-]; done.
Qed.

Lemma set_e_same i : set_e i (Input.e i) = i.
Proof. by destruct i. Qed.

(** With no terminator under edit the loop runs down to W, whatever fuel
    at least the distance it is given. *)
Lemma kill_loop_spec fuel s :
  inv (st_input s) -> no_nl (st_input s) -> panicked s = false ->
  (Z.to_nat (uint (Input.e (st_input s) - Input.w (st_input s))) <= fuel)%nat ->
  exists evs,
    kill_loop fuel s = Some (with_input s (set_e (st_input s) (Input.w (st_input s))), evs) /\
    echoed evs = concat (replicate
      (Z.to_nat (uint (Input.e (st_input s) - Input.w (st_input s)))) (erase_echo s)) /\
    silent evs = [] /\ stores evs = [].
Proof.
  revert s. induction fuel as [| fuel IH]; intros s Hi Hnl Hp Hfuel.
  - assert (Hew : Input.e (st_input s) = Input.w (st_input s)).
    { destruct Hi as (Hc & _). unfold cursors_ok in Hc. wrap. }
    exists []. simpl. rewrite <- Hew, set_e_same, with_input_same.
    replace (uint (Input.e (st_input s) - Input.e (st_input s))) with 0 by wrap.
    done.
  - simpl. destruct (Input.e (st_input s) =? Input.w (st_input s)) eqn:Hew; zbool.
    { exists []. simpl. rewrite <- Hew, set_e_same, with_input_same.
      replace (uint (Input.e (st_input s) - Input.e (st_input s))) with 0 by wrap.
      done. }
    assert (Hc := proj1 Hi). unfold cursors_ok in Hc.
    set (d := uint (Input.e (st_input s) - Input.w (st_input s))) in *.
    assert (Hd : 0 < d) by (subst d; wrap).
    assert (Hlast : buf_at (st_input s) (uint (Input.e (st_input s) - 1)) <> NL).
    { replace (uint (Input.e (st_input s) - 1))
        with (uint (Input.w (st_input s) + (d - 1))) by (subst d; wrap).
      apply Hnl. fold d. lia. }
    apply Z.eqb_neq in Hlast. rewrite Hlast. simpl.
    set (s1 := with_input s (dec_e (st_input s))).
    destruct (consechoc_total s1 BACKSPACE Hp) as [o Ho]. rewrite Ho. simpl.
    apply consechoc_backspace in Ho as (Ho1 & Ho2 & Ho3).
    assert (Hd1 : uint (Input.e (st_input s1) - Input.w (st_input s1)) = d - 1).
    { subst s1 d. unfold dec_e. simpl. wrap. }
    destruct (IH s1) as (evs & Hk & He & Hs & Hst).
    { subst s1. simpl. by apply inv_dec_e. }
    { subst s1. simpl. by apply no_nl_dec_e. }
    { done. }
    { rewrite Hd1. lia. }
    rewrite Hk. simpl. exists (o ++ evs). split_and!.
    + done.
    + rewrite echoed_app, Ho1, He, Hd1.
      replace (Z.to_nat d) with (S (Z.to_nat (d - 1))) by lia. done.
    + by rewrite silent_app, Ho2, Hs.
    + by rewrite stores_app, Ho3, Hst.
Qed.

(** ** A full window drops every code *)

Lemma full_drops s c :
  inv (st_input s) ->
  uint (Input.e (st_input s) - Input.r (st_input s)) = INPUT_BUF ->
  exists evs, consoleintr_step s c = Some (s, evs) /\
              stores evs = [] /\ echoed evs = [].
Proof.
  intros (Hc & Hlen & Hfull) Hf. specialize (Hfull Hf).
  assert (Hacc : accumulate s c = Some (s, [])).
  { unfold accumulate, accumulates. rewrite Hf. simpl. by rewrite andb_false_r. }
  unfold consoleintr_step, kill_line, erase.
  destruct (canonical s); [| by exists []].
  destruct (c =? C "P"); [by exists [EvProcdump] |].
  destruct (c =? C "U").
  { rewrite Hfull. replace (uint _) with 0 by wrap. by exists []. }
  destruct (_ || _); [| by exists []].
  rewrite Hfull, Z.eqb_refl. by exists [].
Qed.

Lemma full_drops_batch codes s :
  inv (st_input s) ->
  uint (Input.e (st_input s) - Input.r (st_input s)) = INPUT_BUF ->
  exists evs, consoleintr s codes = Some (s, evs) /\
              stores evs = [] /\ echoed evs = [].
Proof.
  intros Hi Hfull. induction codes as [| c rest (evs & Hrun & Hst & Hec)]; simpl.
  { by exists []. }
  destruct (c <? 0); [by exists [] |].
  destruct (full_drops s c Hi Hfull) as (ev1 & -> & Hst1 & Hec1). simpl.
  rewrite Hrun. simpl. exists (ev1 ++ evs).
  by rewrite stores_app, echoed_app, Hst, Hec, Hst1, Hec1.
Qed.

Lemma window_length i :
  length (window i) = Z.to_nat (uint (Input.e i - Input.r i)).
Proof. unfold window. by rewrite length_fmap, length_seqZ. Qed.

(** ** Two runs that differ in the echo bit *)

Lemma twin_out_here s1 s2 : twin s1 s2 -> twin_out s1 s2 s1 s2 [] [].
Proof. intros (Hi & _). by repeat split. Qed.

Lemma silent_cons_putc_free ev a b :
  is_putc ev = false -> silent a = silent b -> silent (ev :: a) = silent (ev :: b).
Proof. unfold silent. simpl. intros -> ->. done. Qed.

Lemma kill_loop_twin fuel s1 s2 s1' s2' ev1 ev2 :
  twin s1 s2 ->
  kill_loop fuel s1 = Some (s1', ev1) -> kill_loop fuel s2 = Some (s2', ev2) ->
  twin_out s1 s2 s1' s2' ev1 ev2.
Proof.
  revert s1 s2 s1' s2' ev1 ev2.
  induction fuel as [| fuel IH]; simpl; intros s1 s2 s1' s2' ev1 ev2 Ht H1 H2.
  { injection H1 as <- <-. injection H2 as <- <-. by apply twin_out_here. }
  assert (Hi := proj1 Ht). rewrite <- Hi in H2.
  destruct (_ && _).
  2:{ injection H1 as <- <-. injection H2 as <- <-. by apply twin_out_here. }
  destruct (consechoc (with_input s1 _) BACKSPACE) as [o1 |] eqn:Ho1; [| done].
  destruct (consechoc (with_input s2 _) BACKSPACE) as [o2 |] eqn:Ho2; [| done].
  simpl in H1, H2.
  destruct (kill_loop fuel (with_input s1 _)) as [[t1 e1] |] eqn:Hk1; [| done].
  destruct (kill_loop fuel (with_input s2 _)) as [[t2 e2] |] eqn:Hk2; [| done].
  simpl in H1, H2. injection H1 as <- <-. injection H2 as <- <-.
  apply consechoc_shape in Ho1 as [_ Ho1]. apply consechoc_shape in Ho2 as [_ Ho2].
  assert (Ht' : twin (with_input s1 (dec_e (st_input s1)))
                     (with_input s2 (dec_e (st_input s1)))) by (split; [done | apply Ht]).
  destruct (IH _ _ _ _ _ _ Ht' Hk1 Hk2) as (Hin & Hsil & Hf1 & Hf2).
  split_and!; try done; try apply Hf1; try apply Hf2.
  by rewrite !silent_app, Ho1, Ho2, Hsil.
Qed.

Lemma erase_twin s1 s2 s1' s2' ev1 ev2 :
  twin s1 s2 ->
  erase s1 = Some (s1', ev1) -> erase s2 = Some (s2', ev2) ->
  twin_out s1 s2 s1' s2' ev1 ev2.
Proof.
  unfold erase. intros Ht H1 H2. assert (Hi := proj1 Ht). rewrite <- Hi in H2.
  destruct (negb _).
  2:{ injection H1 as <- <-. injection H2 as <- <-. by apply twin_out_here. }
  destruct (consechoc (with_input s1 _) BACKSPACE) as [o1 |] eqn:Ho1; [| done].
  destruct (consechoc (with_input s2 _) BACKSPACE) as [o2 |] eqn:Ho2; [| done].
  simpl in H1, H2. injection H1 as <- <-. injection H2 as <- <-.
  apply consechoc_shape in Ho1 as [_ Ho1]. apply consechoc_shape in Ho2 as [_ Ho2].
  split_and!; try done. by rewrite Ho1, Ho2.
Qed.

Lemma accumulate_twin s1 s2 c s1' s2' ev1 ev2 :
  twin s1 s2 ->
  accumulate s1 c = Some (s1', ev1) -> accumulate s2 c = Some (s2', ev2) ->
  twin_out s1 s2 s1' s2' ev1 ev2.
Proof.
  unfold accumulate, accumulates. intros Ht H1 H2.
  destruct Ht as (Hi & Hcan). rewrite <- Hi in H2.
  destruct (_ && _).
  2:{ injection H1 as <- <-. injection H2 as <- <-. by apply twin_out_here. }
  set (c' := if c =? CR then NL else c) in *.
  destruct (consechoc (with_input s1 _) c') as [o1 |] eqn:Ho1; [| done].
  destruct (consechoc (with_input s2 _) c') as [o2 |] eqn:Ho2; [| done].
  simpl in H1, H2.
  apply consechoc_shape in Ho1 as [_ Ho1]. apply consechoc_shape in Ho2 as [_ Ho2].
  change (canonical (with_input s1 (store_inc_e (st_input s1) c'))) with (canonical s1) in H1.
  change (canonical (with_input s2 (store_inc_e (st_input s1) c'))) with (canonical s2) in H2.
  rewrite <- Hcan in H2.
  destruct (_ || _); injection H1 as <- <-; injection H2 as <- <-.
  - split_and!; try done. apply silent_cons_putc_free; [done |].
    by rewrite !silent_app, Ho1, Ho2.
  - split_and!; try done. apply silent_cons_putc_free; [done |].
    by rewrite Ho1, Ho2.
Qed.

Lemma consoleintr_step_twin s1 s2 c s1' s2' ev1 ev2 :
  twin s1 s2 ->
  consoleintr_step s1 c = Some (s1', ev1) -> consoleintr_step s2 c = Some (s2', ev2) ->
  twin_out s1 s2 s1' s2' ev1 ev2.
Proof.
  unfold consoleintr_step, kill_line. intros Ht H1 H2.
  assert (Hi := proj1 Ht). assert (Hcan := proj2 Ht).
  rewrite <- Hcan, <- Hi in H2.
  destruct (canonical s1); [| by eapply accumulate_twin].
  destruct (c =? C "P").
  { injection H1 as <- <-. injection H2 as <- <-. by repeat split. }
  destruct (c =? C "U"); [by eapply kill_loop_twin |].
  destruct (_ || _); [by eapply erase_twin | by eapply accumulate_twin].
Qed.

Lemma canonical_cons s s' : st_cons s' = st_cons s -> canonical s' = canonical s.
Proof. unfold canonical, lflag. by intros ->. Qed.

Lemma echo_on_cons s s' : st_cons s' = st_cons s -> echo_on s' = echo_on s.
Proof. unfold echo_on, lflag. by intros ->. Qed.

Lemma consoleintr_twin codes s1 s2 s1' s2' ev1 ev2 :
  twin s1 s2 ->
  consoleintr s1 codes = Some (s1', ev1) -> consoleintr s2 codes = Some (s2', ev2) ->
  twin_out s1 s2 s1' s2' ev1 ev2.
Proof.
  revert s1 s2 s1' s2' ev1 ev2.
  induction codes as [| c rest IH]; simpl; intros s1 s2 s1' s2' ev1 ev2 Ht H1 H2.
  { injection H1 as <- <-. injection H2 as <- <-. by apply twin_out_here. }
  destruct (c <? 0).
  { injection H1 as <- <-. injection H2 as <- <-. by apply twin_out_here. }
  destruct (consoleintr_step s1 c) as [[t1 e1] |] eqn:Hs1; [| done].
  destruct (consoleintr_step s2 c) as [[t2 e2] |] eqn:Hs2; [| done].
  simpl in H1, H2.
  destruct (consoleintr t1 rest) as [[u1 f1] |] eqn:Hr1; [| done].
  destruct (consoleintr t2 rest) as [[u2 f2] |] eqn:Hr2; [| done].
  simpl in H1, H2. injection H1 as <- <-. injection H2 as <- <-.
  destruct (consoleintr_step_twin _ _ _ _ _ _ _ Ht Hs1 Hs2)
    as (Hin & Hsil & (Hc1 & Hp1) & (Hc2 & Hp2)).
  assert (Ht' : twin t1 t2).
  { split; [done |]. rewrite (canonical_cons _ _ Hc1), (canonical_cons _ _ Hc2). apply Ht. }
  destruct (IH _ _ _ _ _ _ Ht' Hr1 Hr2) as (Hin' & Hsil' & (Hc1' & Hp1') & (Hc2' & Hp2')).
  split_and!; try congruence. by rewrite !silent_app, Hsil, Hsil'.
Qed.

(** A run returns whenever the console has not panicked. *)
Lemma consoleintr_returns codes s :
  panicked s = false -> is_Some (consoleintr s codes).
Proof.
  revert s. induction codes as [| c rest IH]; simpl; intros s Hp; [eauto |].
  destruct (c <? 0); [eauto |].
  destruct (consoleintr_step_total s c Hp) as [[s1 ev1] H1]. rewrite H1. simpl.
  assert (Hp1 : panicked s1 = false).
  { destruct (consoleintr_step_twin s s c s1 s1 ev1 ev1) as (_ & _ & (_ & ?) & _);
      [by split | done | done | congruence]. }
  destruct (IH s1 Hp1) as [[s2 ev2] ->]. simpl. eauto.
Qed.

(** With the echo bit clear nothing reaches the UART. *)
Lemma consechoc_quiet s c o :
  echo_on s = false -> consechoc s c = Some o -> o = [].
Proof. unfold consechoc. intros ->. rewrite andb_false_r. by intros [= <-]. Qed.

Lemma kill_loop_quiet fuel s s' evs :
  echo_on s = false -> kill_loop fuel s = Some (s', evs) -> echoed evs = [].
Proof.
  revert s s' evs. induction fuel as [| fuel IH]; simpl; intros s s' evs He H.
  { by injection H as <- <-. }
  destruct (_ && _); [| by injection H as <- <-].
  destruct (consechoc _ BACKSPACE) as [o |] eqn:Ho; [| done]. simpl in H.
  destruct (kill_loop fuel _) as [[s2 ev2] |] eqn:Hk; [| done]. simpl in H.
  injection H as <- <-.
  apply consechoc_quiet in Ho as ->; [| done]. simpl.
  eapply IH; [| exact Hk]. exact He.
Qed.

Lemma consoleintr_step_quiet s c s' evs :
  echo_on s = false -> consoleintr_step s c = Some (s', evs) -> echoed evs = [].
Proof.
  intros He H.
  assert (Hacc : forall s' evs, accumulate s c = Some (s', evs) -> echoed evs = []).
  { clear H s' evs. unfold accumulate. intros s' evs H.
    destruct (accumulates s c); [| by injection H as <- <-].
    destruct (consechoc _ _) as [o |] eqn:Ho; [| done]. simpl in H.
    apply consechoc_quiet in Ho as ->; [| done].
    destruct (_ || _); by injection H as <- <-. }
  unfold consoleintr_step, kill_line, erase in H.
  destruct (canonical s); [| by eapply Hacc].
  destruct (c =? C "P"); [by injection H as <- <- |].
  destruct (c =? C "U"); [by eapply kill_loop_quiet |].
  destruct (_ || _); [| by eapply Hacc].
  destruct (negb _); [| by injection H as <- <-].
  destruct (consechoc _ BACKSPACE) as [o |] eqn:Ho; [| done]. simpl in H.
  apply consechoc_quiet in Ho as ->; [| done]. by injection H as <- <-.
Qed.

Lemma consoleintr_quiet codes s s' evs :
  echo_on s = false -> consoleintr s codes = Some (s', evs) -> echoed evs = [].
Proof.
  revert s s' evs. induction codes as [| c rest IH]; simpl; intros s s' evs He H.
  { by injection H as <- <-. }
  destruct (c <? 0); [by injection H as <- <- |].
  destruct (consoleintr_step s c) as [[s1 ev1] |] eqn:H1; [| done]. simpl in H.
  destruct (consoleintr s1 rest) as [[s2 ev2] |] eqn:H2; [| done]. simpl in H.
  injection H as <- <-. rewrite echoed_app.
  erewrite consoleintr_step_quiet by done. simpl.
  eapply IH; [| done].
  destruct (consoleintr_step_twin s s c s1 s1 ev1 ev1) as (_ & _ & (Hc & _) & _);
    [by split | done | done |].
  by rewrite (echo_on_cons _ _ Hc).
Qed.

(** ** The committed bytes and what a read makes of them *)

Lemma committed_commit i : committed (commit i) = window i.
Proof. reflexivity. Qed.

Lemma committed_empty i :
  Input.r i = Input.w i -> committed i = [].
Proof.
  unfold committed. intros ->.
  replace (uint (Input.w i - Input.w i)) with 0 by wrap. done.
Qed.

Lemma committed_inc_r i :
  inv i -> Input.r i <> Input.w i ->
  committed i = buf_at i (Input.r i) :: committed (inc_r i).
Proof.
  intros (Hc & _ & _) Hne. unfold cursors_ok in Hc. unfold committed, inc_r. simpl.
  set (n := uint (Input.w i - uint (Input.r i + 1))).
  assert (Hn : uint (Input.w i - Input.r i) = n + 1) by (subst n; wrap).
  assert (0 <= n) by (subst n; wrap).
  rewrite Hn, seqZ_cons by lia. rewrite fmap_cons. f_equal.
  - unfold buf_at, slot. do 2 f_equal. wrap.
  - replace (Z.pred (n + 1)) with n by lia.
    replace (Z.succ 0) with (1 + 0) by lia.
    rewrite <- fmap_add_seqZ, <- list_fmap_compose.
    apply Forall_fmap_ext_1, Forall_seqZ. intros k Hk. simpl.
    unfold buf_at, slot. do 2 f_equal. clear Hn. wrap.
Qed.

Lemma committed_cons i b l :
  inv i -> committed i = b :: l ->
  Input.r i <> Input.w i /\ buf_at i (Input.r i) = b /\ committed (inc_r i) = l.
Proof.
  intros Hi Hcm.
  assert (Hne : Input.r i <> Input.w i).
  { intros Heq. rewrite committed_empty in Hcm by done. done. }
  rewrite committed_inc_r in Hcm by done. by injection Hcm as -> ->.
Qed.

Lemma advance_0 i : inv i -> advance i 0 = i.
Proof.
  intros (Hc & _). unfold cursors_ok in Hc. destruct i as [b r w e].
  unfold advance, set_r. simpl in *. f_equal. wrap.
Qed.

Lemma advance_inc_r i k : advance (inc_r i) k = advance i (1 + k).
Proof. unfold advance, inc_r, set_r. simpl. f_equal. wrap. Qed.

(** A call that meets the EOF code after the bytes [pre]. *)
Lemma read_loop_eof pre s killed n target dst rest :
  inv (st_input s) -> canonical s = true ->
  committed (st_input s) = pre ++ C "D" :: rest ->
  Forall (fun b => b <> C "D" /\ b <> NL) pre ->
  Z.of_nat (length pre) < n ->
  read_loop (Z.to_nat n) s killed n target dst =
    {| rd_status := ReadRet (sint (target - (n - Z.of_nat (length pre))));
       rd_dst := dst ++ pre;
       rd_state := with_input s (advance (st_input s)
         (Z.of_nat (length pre) +
          (if n - Z.of_nat (length pre) <? target then 0 else 1))) |}.
Proof.
  revert s n dst.
  induction pre as [| b pre IH]; intros s n dst Hi Hcan Hcm Hpre Hn.
  - apply committed_cons in Hcm as (Hne & Hb & _); [| done]. simpl in Hn.
    replace (Z.to_nat n) with (S (Z.to_nat (n - 1))) by lia. simpl.
    replace (0 <? n) with true by (symmetry; apply Z.ltb_lt; lia).
    apply Z.eqb_neq in Hne. rewrite Hne, Hb, Hcan, Z.eqb_refl. simpl.
    rewrite app_nil_r, Z.sub_0_r. do 2 f_equal.
    destruct (n <? target).
    + rewrite dec_inc_r by apply Hi. by rewrite advance_0.
    + reflexivity.
  - apply committed_cons in Hcm as (Hne & Hb & Hcm); [| done].
    inversion Hpre as [| ? ? (Hb4 & Hb10) Hpre']; subst.
    change (length (buf_at (st_input s) (Input.r (st_input s)) :: pre))
      with (S (length pre)) in *.
    rewrite Nat2Z.inj_succ in *.
    set (L := Z.of_nat (length pre)) in *.
    replace (Z.to_nat n) with (S (Z.to_nat (n - 1))) by lia.
    cbn [read_loop].
    replace (0 <? n) with true by (symmetry; apply Z.ltb_lt; lia).
    apply Z.eqb_neq in Hne. rewrite Hne.
    apply Z.eqb_neq in Hb4, Hb10. rewrite Hb4, Hb10. cbn [andb].
    apply Z.eqb_neq in Hne.
    rewrite (IH (with_input s (inc_r (st_input s))));
      [| by apply inv_inc_r | done | done | done | fold L; lia].
    fold L. cbn [st_input with_input].
    rewrite advance_inc_r, <- app_assoc.
    replace (n - 1 - L) with (n - Z.succ L) by lia.
    replace (1 + (L + (if n - Z.succ L <? target then 0 else 1)))
      with (Z.succ L + (if n - Z.succ L <? target then 0 else 1)) by lia.
    reflexivity.
Qed.

Lemma committed_advance pre i rest :
  inv i -> committed i = pre ++ rest ->
  committed (advance i (Z.of_nat (length pre))) = rest /\
  inv (advance i (Z.of_nat (length pre))).
Proof.
  revert i. induction pre as [| b pre IH]; intros i Hi Hcm; simpl in *.
  - by rewrite advance_0.
  - apply committed_cons in Hcm as (Hne & _ & Hcm); [| done].
    destruct (IH (inc_r i)) as (H1 & H2); [by apply inv_inc_r | done |].
    rewrite advance_inc_r in H1, H2.
    replace (Z.of_nat (S (length pre))) with (1 + Z.of_nat (length pre)) by lia.
    split; [exact H1 | exact H2].
Qed.

(** ** One call delivers at most one line *)

Lemma read_loop_line fuel s killed n target dst :
  canonical s = true ->
  exists new,
    rd_dst (read_loop fuel s killed n target dst) = dst ++ new /\
    (length new <= fuel)%nat /\
    ((NL ∉ new) \/
     (exists body ret, new = body ++ [NL] /\ (NL ∉ body) /\
       rd_status (read_loop fuel s killed n target dst) = ReadRet ret)).
Proof.
  intros Hcan. revert s n dst Hcan.
  induction fuel as [| fuel IH]; simpl; intros s n dst Hcan.
  { exists []. rewrite app_nil_r. split_and!; [done | done |]. left. apply not_elem_of_nil. }
  assert (Hnone : forall st s', exists new : list Z,
    rd_dst {| rd_status := st; rd_dst := dst; rd_state := s' |} = dst ++ new /\
    (length new <= S fuel)%nat /\
    ((NL ∉ new) \/ (exists body ret, new = body ++ [NL] /\ (NL ∉ body) /\
       rd_status {| rd_status := st; rd_dst := dst; rd_state := s' |} = ReadRet ret))).
  { intros st s'. exists []. simpl. rewrite app_nil_r.
    split_and!; [done | lia |]. left. apply not_elem_of_nil. }
  destruct (0 <? n); [| apply Hnone].
  destruct (_ =? Input.w _); [destruct killed; apply Hnone |].
  set (c := buf_at (st_input s) (Input.r (st_input s))).
  rewrite Hcan, !andb_true_r.
  destruct (c =? C "D"); [apply Hnone |].
  destruct (c =? NL) eqn:Hc; zbool.
  { exists [c]. simpl. split_and!; [done | lia |]. right.
    exists [], (sint (target - (n - 1))). rewrite Hc. split_and!; [done | | done].
    apply not_elem_of_nil. }
  destruct (IH (with_input s (inc_r (st_input s))) (n - 1) (dst ++ [c]) Hcan)
    as (new & Hd & Hlen & Hline).
  exists (c :: new). rewrite Hd, <- app_assoc. simpl. split_and!; [done | lia |].
  destruct Hline as [Hno | (body & ret & -> & Hno & Hst)].
  - left. apply not_elem_of_cons. done.
  - right. exists (c :: body), ret. split_and!; [done | | done].
    apply not_elem_of_cons. done.
Qed.

(** ** The value consoleread returns *)

Lemma sint_small z : 0 <= z < 2 ^ 31 -> sint z = z.
Proof.
  intros Hz. unfold sint. rewrite uint_id by lia.
  destruct (z <? 2 ^ 31) eqn:Hlt; zbool; lia.
Qed.

Lemma read_loop_status fuel s killed n target dst :
  reader_locals n target dst -> (Z.to_nat n <= fuel)%nat ->
  let res := read_loop fuel s killed n target dst in
  let i' := st_input (rd_state res) in
  match rd_status res with
  | ReadRet v =>
    (v = -1 /\ killed = true /\ Input.r i' = Input.w i') \/
    (v = Z.of_nat (length (rd_dst res)) /\ 0 <= v <= target)
  | ReadSleep n' t' =>
    killed = false /\ Input.r i' = Input.w i' /\
    0 < n' /\ reader_locals n' t' (rd_dst res) /\ t' = target
  end.
Proof.
  revert s n dst. induction fuel as [| fuel IH]; intros s n dst Hl Hfuel; simpl.
  { destruct Hl as (Hn & Ht & Hlen). right.
    rewrite sint_small by lia. lia. }
  assert (Hret : (sint (target - n) = -1 /\ killed = true /\
                  Input.r (st_input s) = Input.w (st_input s)) \/
                 (sint (target - n) = Z.of_nat (length dst) /\
                  0 <= sint (target - n) <= target)).
  { destruct Hl as (Hn & Ht & Hlen). right. rewrite sint_small by lia. lia. }
  destruct (0 <? n) eqn:Hpos; [| done]. zbool.
  destruct (_ =? Input.w _) eqn:Hrw; zbool.
  { destruct killed; simpl; [by left | done]. }
  set (c := buf_at (st_input s) (Input.r (st_input s))).
  destruct ((c =? C "D") && canonical s).
  { simpl. destruct Hret as [(_ & _ & ?) | Hret]; [done | by right]. }
  assert (Hl' : reader_locals (n - 1) target (dst ++ [c])).
  { destruct Hl as (Hn & Ht & Hlen). unfold reader_locals.
    rewrite length_app. simpl. lia. }
  destruct ((c =? NL) && canonical s).
  { simpl. right. destruct Hl' as (Hn & Ht & Hlen).
    rewrite sint_small by lia. lia. }
  apply IH; [done | lia].
Qed.

(** The killed flag decides nothing but the choice between failing and
    sleeping. *)
Lemma read_loop_killed fuel s n target dst :
  let rt := read_loop fuel s true n target dst in
  let rf := read_loop fuel s false n target dst in
  rd_dst rt = rd_dst rf /\ rd_state rt = rd_state rf /\
  ((rd_status rt = rd_status rf /\ forall n' t', rd_status rf <> ReadSleep n' t') \/
   (rd_status rt = ReadRet (-1) /\ exists n' t', rd_status rf = ReadSleep n' t')).
Proof.
  revert s n dst. induction fuel as [| fuel IH]; intros s n dst; simpl.
  { split_and!; [done | done |]. by left. }
  destruct (0 <? n); [| split_and!; [done | done |]; by left].
  destruct (_ =? Input.w _).
  { simpl. split_and!; [done | done |]. right. eauto. }
  destruct (_ && canonical s); [split_and!; [done | done |]; by left |].
  destruct (_ && canonical s); [split_and!; [done | done |]; by left |].
  apply IH.
Qed.

(** ** printint *)

Lemma digits_lookup m :
  0 <= m < 16 ->
  exists d, digits !! Z.to_nat m = Some d /\ digit_val d = m /\
            (48 <= d <= 57 \/ 97 <= d <= 102) /\ d <> BACKSPACE.
Proof.
  intros Hm.
  assert (Hcases : m = 0 \/ m = 1 \/ m = 2 \/ m = 3 \/ m = 4 \/ m = 5 \/ m = 6 \/ m = 7 \/
          m = 8 \/ m = 9 \/ m = 10 \/ m = 11 \/ m = 12 \/ m = 13 \/ m = 14 \/ m = 15) by lia.
  repeat (destruct Hcases as [-> | Hcases]); try subst m;
    (eexists; split; [reflexivity |]; unfold BACKSPACE; vm_compute; intuition congruence).
Qed.

Lemma digits_value_snoc base l d :
  digits_value base (l ++ [d]) = digits_value base l * base + digit_val d.
Proof. unfold digits_value. by rewrite fold_left_app. Qed.

(** The digits come out lowest first, are as many as the number needs and
    no more, and denote the number. *)
Lemma printint_loop_spec k : forall room x base,
  2 <= base <= 16 -> 0 <= x < base ^ Z.of_nat (S k) -> (k < room)%nat ->
  exists ds,
    printint_loop room x base = Some ds /\
    (0 < length ds <= S k)%nat /\
    Forall (fun d => is_digit base d /\ d <> BACKSPACE) ds /\
    digits_value base (rev ds) = x /\
    (x = 0 -> ds = [48]) /\ (x <> 0 -> list.last ds <> Some 48).
Proof.
  induction k as [| k IH]; intros room x base Hb Hx Hroom;
    (destruct room as [| room]; [lia |]); simpl printint_loop;
    (replace (base =? 0) with false by (symmetry; apply Z.eqb_neq; lia));
    (destruct (digits_lookup (x mod base)) as (d & Hd & Hv & Hr & Hbs);
      [pose proof (Z.mod_pos_bound x base); lia |]);
    rewrite Hd; simpl.
  - change (Z.of_nat 1) with 1 in Hx. rewrite Z.pow_1_r in Hx.
    rewrite Z.div_small by lia. simpl.
    rewrite Z.mod_small in Hv, Hd by lia.
    exists [d]. split_and!.
    + done.
    + simpl. lia.
    + simpl. lia.
    + constructor; [| constructor]. split; [| done]. split; [done | lia].
    + unfold digits_value. simpl. lia.
    + intros ->. vm_compute in Hd. congruence.
    + intros Hx0. simpl. intros [= ->]. change (digit_val 48) with 0 in Hv. lia.
  - assert (Hq : 0 <= x / base < base ^ Z.of_nat (S k)).
    { rewrite (Nat2Z.inj_succ (S k)), Z.pow_succ_r in Hx by lia.
      split; [apply Z.div_pos; lia |]. apply Z.div_lt_upper_bound; lia. }
    assert (Hdig : is_digit base d /\ d <> BACKSPACE).
    { split; [| done]. unfold is_digit. pose proof (Z.mod_pos_bound x base). lia. }
    pose proof (Z.div_mod x base) as Hdm.
    destruct (x / base =? 0) eqn:Hz; zbool.
    + exists [d]. split_and!.
      * done.
      * simpl. lia.
      * simpl. lia.
      * constructor; [done | constructor].
      * unfold digits_value. simpl. rewrite Hz in Hdm. lia.
      * intros ->. vm_compute in Hd. congruence.
      * intros Hx0. simpl. intros [= ->]. change (digit_val 48) with 0 in Hv.
        rewrite Hz in Hdm. lia.
    + destruct (IH room (x / base) base) as (ds & Hds & Hlen & Hall & Hval & _ & Hlast);
        [lia | done | lia |].
      rewrite Hds. simpl. exists (d :: ds). split_and!.
      * done.
      * simpl. lia.
      * simpl. lia.
      * by constructor.
      * simpl. rewrite digits_value_snoc, Hval, Hv. lia.
      * intros ->. rewrite Z.div_0_l in Hz by lia. done.
      * intros _. destruct ds as [| d' ds']; [simpl in Hlen; lia |].
        change (list.last (d :: d' :: ds')) with (list.last (d' :: ds')). by apply Hlast.
Qed.

Lemma consputs_plain l :
  Forall (fun c => c <> BACKSPACE) l -> consputs false l = Some (EvPutc <$> l).
Proof.
  induction 1 as [| c l Hc _ IH]; simpl; [done |].
  apply Z.eqb_neq in Hc. rewrite Hc, IH. done.
Qed.

Lemma hd_rev_last (ds : list Z) :
  ds <> [] -> list.last ds <> Some 48 -> hd 0 (rev ds) <> 48.
Proof.
  intros Hne Hl. destruct (rev ds) as [| a l] eqn:Hr.
  - apply (f_equal (@rev Z)) in Hr. rewrite rev_involutive in Hr. done.
  - simpl. intros ->. apply Hl.
    apply (f_equal (@rev Z)) in Hr. rewrite rev_involutive in Hr. simpl in Hr.
    rewrite Hr. by rewrite last_snoc.
Qed.

Lemma printint_unsigned_spec x base :
  (base = 10 \/ base = 16) -> 0 <= x < 2 ^ 32 ->
  exists ds, printint_loop 16 x base = Some ds /\ (length ds <= 10)%nat /\
             Forall (fun c => c <> BACKSPACE) (rev ds) /\ renders base x (rev ds).
Proof.
  intros Hb Hx.
  destruct (printint_loop_spec 9 16 x base) as (ds & Hds & Hlen & Hall & Hval & H0 & Hlast).
  { lia. }
  { split; [lia |]. eapply Z.lt_le_trans; [apply Hx |].
    destruct Hb as [-> | ->]; vm_compute; congruence. }
  { lia. }
  exists ds. split_and!; [done | lia | | ].
  - apply Forall_rev. eapply Forall_impl; [| exact Hall]. simpl. tauto.
  - split_and!.
    + apply Forall_rev. eapply Forall_impl; [| exact Hall]. simpl. tauto.
    + done.
    + intros Hx0. by rewrite (H0 Hx0).
    + intros Hx0. apply hd_rev_last; [| by apply Hlast].
      intros ->. simpl in Hlen. lia.
Qed.

Lemma printint_signed v :
  - 2 ^ 31 <= v < 2 ^ 31 ->
  exists ds, printint false v 10 1 =
               Some (EvPutc <$> ((if v <? 0 then [45] else []) ++ ds)) /\
             renders 10 (Z.abs v) ds.
Proof.
  intros Hv. unfold printint. simpl negb. cbn [andb].
  change (uint 10) with 10.
  destruct (v <? 0) eqn:Hneg; zbool.
  - destruct (printint_unsigned_spec (uint (- v)) 10) as (ds & -> & Hlen & Hbs & Hr);
      [by left | apply uint_range |].
    simpl. replace (length ds <? 16)%nat with true by (symmetry; apply Nat.ltb_lt; lia).
    rewrite rev_app_distr. simpl.
    exists (rev ds). split.
    + rewrite consputs_plain by done. done.
    + replace (Z.abs v) with (uint (- v)); [done |]. wrap.
  - destruct (printint_unsigned_spec (uint v) 10) as (ds & -> & Hlen & Hbs & Hr);
      [by left | apply uint_range |].
    simpl. exists (rev ds). split.
    + by rewrite consputs_plain.
    + replace (Z.abs v) with (uint v); [done |]. wrap.
Qed.

Lemma sint_uint v : - 2 ^ 31 <= v < 2 ^ 31 -> sint (uint v) = v.
Proof.
  intros Hv. unfold sint.
  replace (uint (uint v)) with (uint v) by wrap.
  destruct (uint v <? 2 ^ 31) eqn:Hlt; zbool; wrap.
Qed.

Lemma printint_hex a :
  0 <= a < 2 ^ 32 ->
  exists ds, printint false (sint a) 16 0 = Some (EvPutc <$> ds) /\ renders 16 a ds.
Proof.
  intros Ha. unfold printint. simpl negb. cbn [andb].
  change (uint 16) with 16.
  replace (uint (sint a)) with a.
  2:{ unfold sint. rewrite (uint_id a) by done. destruct (a <? 2 ^ 31); wrap. }
  destruct (printint_unsigned_spec a 16) as (ds & -> & Hlen & Hbs & Hr); [by right | done |].
  simpl. exists (rev ds). split; [by rewrite consputs_plain | done].
Qed.

(** ** cprintf: a format that ends in a lone percent sign *)


(** ** Codes that go to general accumulation *)

Lemma step_ordinary s c :
  c <> C "P" -> c <> C "U" -> c <> C "H" -> c <> DEL ->
  consoleintr_step s c = accumulate s c.
Proof.
  intros HP HU HH HD. unfold consoleintr_step.
  apply Z.eqb_neq in HP, HU, HH, HD. rewrite HP, HU, HH, HD. simpl.
  by destruct (canonical s).
Qed.

(** An accepted code that does not commit. *)
Lemma accumulate_keep s c :
  panicked s = false -> canonical s = true ->
  c <> 0 -> c <> CR -> c <> NL -> c <> C "D" ->
  uint (Input.e (st_input s) - Input.r (st_input s)) < INPUT_BUF - 1 ->
  cursors_ok (st_input s) ->
  exists o, accumulate s c =
    Some (with_input s (store_inc_e (st_input s) c), EvStore (to_char c) :: o).
Proof.
  intros Hp Hcan H0 Hcr Hnl Hd Hroom Hc. unfold accumulate, accumulates.
  apply Z.eqb_neq in H0, Hcr, Hnl, Hd. rewrite H0, Hcr. simpl.
  replace (_ <? INPUT_BUF) with true by (symmetry; apply Z.ltb_lt; lia).
  destruct (consechoc_total (with_input s (store_inc_e (st_input s) c)) c Hp) as [o ->].
  simpl. rewrite Hnl, Hd. simpl.
  change (canonical (with_input s (store_inc_e (st_input s) c))) with (canonical s).
  rewrite Hcan. simpl.
  replace (_ =? _) with false; [by exists o |].
  symmetry. apply Z.eqb_neq. unfold cursors_ok in Hc. wrap.
Qed.

(** An accepted code that commits: a terminator or the EOF code. *)
Lemma accumulate_commit s c :
  panicked s = false -> c <> 0 -> c = NL \/ c = C "D" ->
  uint (Input.e (st_input s) - Input.r (st_input s)) < INPUT_BUF ->
  exists o, accumulate s c =
    Some (with_input s (commit (store_inc_e (st_input s) c)),
          EvStore (to_char c) :: o ++ [EvWakeup]).
Proof.
  intros Hp H0 Hc Hroom. unfold accumulate, accumulates.
  apply Z.eqb_neq in H0. rewrite H0. simpl.
  replace (_ <? INPUT_BUF) with true by (symmetry; apply Z.ltb_lt; lia).
  replace (c =? CR) with false by (destruct Hc as [-> | ->]; done).
  destruct (consechoc_total (with_input s (store_inc_e (st_input s) c)) c Hp) as [o ->].
  simpl.
  replace ((c =? NL) || (c =? C "D")) with true
    by (destruct Hc as [-> | ->]; done).
  simpl. by exists o.
Qed.

Lemma window_empty i : Input.e i = Input.r i -> window i = [].
Proof.
  unfold window. intros ->.
  replace (uint (Input.r i - Input.r i)) with 0 by wrap. done.
Qed.

Lemma store_inc_e_dist i c k :
  cursors_ok i -> uint (Input.e i - Input.r i) = k -> k < INPUT_BUF ->
  uint (Input.e (store_inc_e i c) - Input.r (store_inc_e i c)) = k + 1.
Proof. unfold cursors_ok, store_inc_e. simpl. intros Hc Hk Hlt. wrap. Qed.

Lemma inv_store_keep i c :
  inv i -> uint (Input.e i - Input.r i) < INPUT_BUF - 1 -> inv (store_inc_e i c).
Proof.
  intros Hi Hroom. assert (Hc := proj1 Hi). unfold cursors_ok in Hc.
  apply inv_store_inc_e; [done | lia |]. wrap.
Qed.

(** 'a', 'b', Ctrl-D typed into an empty ring in canonical mode. *)
Lemma push_ab_eof s :
  inv (st_input s) -> canonical s = true -> panicked s = false ->
  Input.e (st_input s) = Input.r (st_input s) ->
  exists s1 evs,
    consoleintr s [97; 98; C "D"] = Some (s1, evs) /\
    inv (st_input s1) /\ canonical s1 = true /\
    committed (st_input s1) = [97; 98; C "D"].
Proof.
  intros Hi Hcan Hp Hempty.
  assert (Hr0 : uint (Input.e (st_input s) - Input.r (st_input s)) = 0)
    by (rewrite Hempty; wrap).
  set (i0 := st_input s) in *.
  set (i1 := store_inc_e i0 97). set (i2 := store_inc_e i1 98).
  set (i3 := store_inc_e i2 (C "D")).
  assert (Hi1 : inv i1) by (apply inv_store_keep; [done | by rewrite Hr0]).
  assert (Hr1 : uint (Input.e i1 - Input.r i1) = 1)
    by (apply (store_inc_e_dist i0 97 0); [apply Hi | done | done]).
  assert (Hi2 : inv i2) by (apply inv_store_keep; [done | by rewrite Hr1]).
  assert (Hr2 : uint (Input.e i2 - Input.r i2) = 2)
    by (apply (store_inc_e_dist i1 98 1); [apply Hi1 | done | done]).
  destruct (accumulate_keep s 97) as [o1 H1]; try done.
  { fold i0. by rewrite Hr0. }
  { apply Hi. }
  fold i0 i1 in H1. set (s1 := with_input s i1) in *.
  destruct (accumulate_keep s1 98) as [o2 H2]; try done.
  { change (st_input s1) with i1. by rewrite Hr1. }
  { apply Hi1. }
  change (st_input s1) with i1 in H2. fold i2 in H2.
  set (s2 := with_input s1 i2) in *.
  destruct (accumulate_commit s2 (C "D")) as [o3 H3]; try done.
  { by right. }
  { change (st_input s2) with i2. by rewrite Hr2. }
  change (st_input s2) with i2 in H3. fold i3 in H3.
  exists (with_input s2 (commit i3)). eexists. split_and!.
  - cbn [consoleintr]. change (97 <? 0) with false. change (98 <? 0) with false.
    change (C "D" <? 0) with false. cbn iota.
    rewrite (step_ordinary s 97), H1 by done. cbn [mbind option_bind].
    rewrite (step_ordinary s1 98), H2 by done. cbn [mbind option_bind].
    rewrite (step_ordinary s2 (C "D")), H3 by done. cbn [mbind option_bind].
    reflexivity.
  - change (inv (commit i3)). apply (inv_store_commit i2); [done | by rewrite Hr2].
  - done.
  - change (committed (commit i3) = [97; 98; C "D"]).
    rewrite committed_commit. unfold i3.
    rewrite (window_store_inc_e i2) by (done || by rewrite Hr2). unfold i2.
    rewrite (window_store_inc_e i1) by (done || by rewrite Hr1). unfold i1.
    rewrite (window_store_inc_e i0) by (done || by rewrite Hr0).
    by rewrite window_empty.
Qed.

(** * The properties of the specification *)

(** C1.  In every state reached from consoleinit by interrupt batches,
    reads (fresh or woken) and mode changes, the cursors satisfy
    R <= W <= E and E - R <= 128 as offsets from R modulo 2^32.  From such a
    state any batch of codes returns, leaves R alone and leaves at most 128
    bytes between R and E; and once the window is full every further batch
    leaves the whole state as it is, stores nothing and echoes nothing. *)
Theorem C1_cursors_bounded ok P D s :
  reach ok P D s ->
  cursors_ok (st_input s) /\
  (forall codes, exists s' evs,
     consoleintr s codes = Some (s', evs) /\
     Input.r (st_input s') = Input.r (st_input s) /\
     cursors_ok (st_input s') /\
     (length (window (st_input s')) <= 128)%nat) /\
  (uint (Input.e (st_input s) - Input.r (st_input s)) = INPUT_BUF ->
   forall codes, exists evs,
     consoleintr s codes = Some (s, evs) /\ stores evs = [] /\ echoed evs = []).
Proof.
  intros Hreach. apply reach_inv in Hreach as (Hi & Hp & _).
  split; [apply Hi |]. split.
  - intros codes.
    destruct (consoleintr_returns codes s Hp) as [[s' evs] Hrun].
    exists s', evs. split; [done |].
    apply consoleintr_ok in Hrun as ((_ & _ & Hr) & Hi' & _); [| done].
    split; [done |]. split; [apply Hi' |].
    rewrite window_length. destruct Hi' as ((_ & _ & _ & _ & Hle) & _).
    unfold INPUT_BUF in Hle.
    pose proof (uint_range (Input.e (st_input s') - Input.r (st_input s'))).
    lia.
  - intros Hfull codes. by apply full_drops_batch.
Qed.

(** C2.  In canonical mode, a read that finds the bytes [pre] (none of them
    EOF or a terminator, fewer than the quota) followed by the EOF code
    returns exactly [pre]: when [pre] is not empty R is left on the EOF code,
    when it is empty R moves past it and the call returns 0.  A reader woken
    from its sleep with bytes [dst] already written does the same with
    [dst ++ pre] in place of [pre].  In particular, after 'a', 'b', Ctrl-D
    are typed into an empty ring, a read of 10 returns "ab" and the next read
    of any size from 1 up returns no byte. *)
Theorem C2_eof_deferral s killed :
  inv (st_input s) -> canonical s = true ->
  (forall n pre rest,
     committed (st_input s) = pre ++ C "D" :: rest ->
     Forall (fun b => b <> C "D" /\ b <> NL) pre ->
     Z.of_nat (length pre) < n < 2 ^ 31 ->
     consoleread s killed n =
       {| rd_status := ReadRet (Z.of_nat (length pre));
          rd_dst := pre;
          rd_state := with_input s (advance (st_input s)
            (match pre with [] => 1 | _ => Z.of_nat (length pre) end)) |}) /\
  (forall n target dst pre rest,
     reader_locals n target dst ->
     committed (st_input s) = pre ++ C "D" :: rest ->
     Forall (fun b => b <> C "D" /\ b <> NL) pre ->
     Z.of_nat (length pre) < n ->
     consoleread_wake s killed n target dst =
       {| rd_status := ReadRet (Z.of_nat (length (dst ++ pre)));
          rd_dst := dst ++ pre;
          rd_state := with_input s (advance (st_input s)
            (match dst ++ pre with [] => 1 | _ => Z.of_nat (length pre) end)) |}) /\
  (panicked s = false -> Input.e (st_input s) = Input.r (st_input s) ->
   exists s1 evs,
     consoleintr s [97; 98; C "D"] = Some (s1, evs) /\
     rd_status (consoleread s1 killed 10) = ReadRet 2 /\
     rd_dst (consoleread s1 killed 10) = [97; 98] /\
     forall n2, 1 <= n2 < 2 ^ 31 ->
       rd_status (consoleread (rd_state (consoleread s1 killed 10)) killed n2) = ReadRet 0 /\
       rd_dst (consoleread (rd_state (consoleread s1 killed 10)) killed n2) = []).
Proof.
  intros Hi Hcan.
  assert (Hwake : forall s killed, inv (st_input s) -> canonical s = true ->
    forall n target dst pre rest,
     reader_locals n target dst ->
     committed (st_input s) = pre ++ C "D" :: rest ->
     Forall (fun b => b <> C "D" /\ b <> NL) pre ->
     Z.of_nat (length pre) < n ->
     consoleread_wake s killed n target dst =
       {| rd_status := ReadRet (Z.of_nat (length (dst ++ pre)));
          rd_dst := dst ++ pre;
          rd_state := with_input s (advance (st_input s)
            (match dst ++ pre with [] => 1 | _ => Z.of_nat (length pre) end)) |}).
  { clear. intros s killed Hi Hcan n target dst pre rest (Hn & Ht & Hlen) Hcm Hpre Hlt.
    unfold consoleread_wake.
    rewrite (read_loop_eof pre s killed n target dst rest) by done.
    rewrite length_app, Nat2Z.inj_add.
    rewrite sint_small by lia.
    replace (target - (n - Z.of_nat (length pre)))
      with (Z.of_nat (length dst) + Z.of_nat (length pre)) by lia.
    do 3 f_equal.
    destruct (n - Z.of_nat (length pre) <? target) eqn:Hcmp; zbool.
    - destruct dst as [| d dst]; [destruct pre as [| b pre] |]; simpl in *; lia.
    - destruct dst as [| d dst]; [destruct pre as [| b pre] |]; simpl in *; lia. }
  assert (Hgen : forall s killed, inv (st_input s) -> canonical s = true ->
    forall n pre rest,
     committed (st_input s) = pre ++ C "D" :: rest ->
     Forall (fun b => b <> C "D" /\ b <> NL) pre ->
     Z.of_nat (length pre) < n < 2 ^ 31 ->
     consoleread s killed n =
       {| rd_status := ReadRet (Z.of_nat (length pre));
          rd_dst := pre;
          rd_state := with_input s (advance (st_input s)
            (match pre with [] => 1 | _ => Z.of_nat (length pre) end)) |}).
  { clear - Hwake. intros s killed Hi Hcan n pre rest Hcm Hpre Hn.
    change (consoleread s killed n) with (consoleread_wake s killed n (uint n) []).
    rewrite (uint_id n) by lia.
    apply (Hwake s killed Hi Hcan n n [] pre rest); [| done | done | lia].
    unfold reader_locals. simpl. lia. }
  split; [by apply Hgen |]. split; [by apply Hwake |].
  intros Hp Hempty.
  destruct (push_ab_eof s Hi Hcan Hp Hempty) as (s1 & evs & Hrun & Hi1 & Hcan1 & Hcm1).
  exists s1, evs. split; [done |].
  assert (Hr1 : consoleread s1 killed 10 =
    {| rd_status := ReadRet 2; rd_dst := [97; 98];
       rd_state := with_input s1 (advance (st_input s1) 2) |}).
  { rewrite (Hgen s1 killed Hi1 Hcan1 10 [97; 98] []); [done | done | | done].
    repeat constructor; done. }
  rewrite Hr1. cbn [rd_status rd_dst rd_state].
  split; [done |]. split; [done |].
  intros n2 Hn2.
  destruct (committed_advance [97; 98] (st_input s1) [C "D"] Hi1 Hcm1) as (Hcm2 & Hi2).
  change (Z.of_nat (length [97; 98])) with 2 in Hcm2, Hi2.
  rewrite (Hgen (with_input s1 (advance (st_input s1) 2)) killed Hi2 Hcan1 n2 [] []);
    [done | done | done | simpl; lia].
Qed.

(** C3.  In canonical mode the bytes one call of consoleread hands out, up
    to its return or its next sleep, contain a line terminator only as their
    last byte, and then the call has returned; they are never more than the
    quota.  The same holds for a reader woken from its sleep.  Every byte
    handed out was stored by consoleintr before: the bytes delivered so far,
    followed by those of this call, are a subsequence of the bytes stored. *)
Theorem C3_one_line ok P D s killed n :
  reach ok P D s -> canonical s = true ->
  let out := rd_dst (consoleread s killed n) in
  ((length out <= Z.to_nat n)%nat /\
   ((NL ∉ out) \/
    (exists body ret, out = body ++ [NL] /\ (NL ∉ body) /\
       rd_status (consoleread s killed n) = ReadRet ret))) /\
  (forall target dst, exists new,
     rd_dst (consoleread_wake s killed n target dst) = dst ++ new /\
     (length new <= Z.to_nat n)%nat /\
     ((NL ∉ new) \/
      (exists body ret, new = body ++ [NL] /\ (NL ∉ body) /\
         rd_status (consoleread_wake s killed n target dst) = ReadRet ret))) /\
  D ++ out `sublist_of` P.
Proof.
  intros Hreach Hcan out. split_and!.
  - destruct (read_loop_line (Z.to_nat n) s killed n (uint n) [] Hcan)
      as (new & Hd & Hlen & Hline).
    fold (consoleread s killed n) in Hd, Hline. simpl in Hd.
    subst out. rewrite Hd. done.
  - subst out. destruct (read_loop_line (Z.to_nat n) s killed n (uint n) [] Hcan)
      as (new & Hd & Hlen & Hline).
    fold (consoleread s killed n) in Hd, Hline. simpl in Hd. rewrite Hd. done.
  - intros target dst. apply read_loop_line. done.
  - pose proof (reach_read ok P D s killed n Hreach) as Hreach'.
    apply reach_inv in Hreach' as (_ & _ & taken & HD & HP).
    etrans; [exact HD |]. etrans; [| exact HP]. by apply sublist_inserts_r.
Qed.

Lemma silent_nil_no_wakeup (o : list event) : silent o = [] -> EvWakeup ∉ o.
Proof.
  intros Hsil Hin. assert (Hin' : EvWakeup ∈ silent o).
  { unfold silent. apply list_elem_of_In, filter_In.
    split; [by apply list_elem_of_In | done]. }
  rewrite Hsil in Hin'. by apply not_elem_of_nil in Hin'.
Qed.

(** The kill-line loop only moves E down and echoes. *)
Lemma kill_loop_edits fuel : forall s s' evs,
  kill_loop fuel s = Some (s', evs) ->
  stores evs = [] /\ (EvWakeup ∉ evs) /\
  Input.buf (st_input s') = Input.buf (st_input s) /\
  Input.w (st_input s') = Input.w (st_input s).
Proof.
  induction fuel as [| fuel IH]; simpl; intros s s' evs H.
  { injection H as <- <-. split_and!; try done. apply not_elem_of_nil. }
  destruct (_ && _).
  2:{ injection H as <- <-. split_and!; try done. apply not_elem_of_nil. }
  destruct (consechoc _ BACKSPACE) as [o |] eqn:Ho; [| done]. simpl in H.
  destruct (kill_loop fuel _) as [[s2 ev2] |] eqn:Hk; [| done]. simpl in H.
  injection H as <- <-.
  apply IH in Hk as (Hst & Hwk & Hb & Hw). simpl in Hb, Hw.
  apply consechoc_shape in Ho as [Hso Hsil].
  split_and!; try done.
  - by rewrite stores_app, Hso, Hst.
  - rewrite not_elem_of_app. split; [by apply silent_nil_no_wakeup | done].
Qed.

(** The cases of the switch: in canonical mode Ctrl-P, Ctrl-U, Ctrl-H and
    DEL end in [continue] and never come to line 134. *)
Lemma editing_keeps s c s' evs :
  canonical s = true -> c = C "P" \/ c = C "U" \/ c = C "H" \/ c = DEL ->
  consoleintr_step s c = Some (s', evs) ->
  stores evs = [] /\ (EvWakeup ∉ evs) /\
  Input.buf (st_input s') = Input.buf (st_input s) /\
  Input.w (st_input s') = Input.w (st_input s).
Proof.
  intros Hcan Hc. unfold consoleintr_step. rewrite Hcan.
  destruct Hc as [-> | [-> | Hc]].
  - simpl. intros [= <- <-]. split_and!; try done.
    rewrite not_elem_of_cons. split; [done | apply not_elem_of_nil].
  - simpl. apply kill_loop_edits.
  - replace (c =? C "P") with false by (destruct Hc as [-> | ->]; done).
    replace (c =? C "U") with false by (destruct Hc as [-> | ->]; done).
    replace ((c =? C "H") || (c =? DEL)) with true by (destruct Hc as [-> | ->]; done).
    unfold erase. destruct (negb _).
    2:{ intros [= <- <-]. split_and!; try done. apply not_elem_of_nil. }
    destruct (consechoc _ BACKSPACE) as [o |] eqn:Ho; [| done]. simpl.
    intros [= <- <-]. apply consechoc_shape in Ho as [Hso Hsil].
    split_and!; try done. by apply silent_nil_no_wakeup.
Qed.

(** Lines 135-141 for a code that passes the guard of line 134: the calls
    made, in order, and the ring afterwards. *)
Lemma accumulate_runs s c :
  panicked s = false -> inv (st_input s) -> c <> 0 ->
  uint (Input.e (st_input s) - Input.r (st_input s)) <> INPUT_BUF ->
  let i := st_input s in
  let c' := if c =? CR then NL else c in
  let commits := (c' =? NL) || (c' =? C "D")
                 || (uint (Input.e i + 1) =? uint (Input.r i + INPUT_BUF))
                 || negb (canonical s) in
  let echo := if negb (c' =? C "D") && echo_on s
              then (if c' =? BACKSPACE then [8; 32; 8] else [c']) else [] in
  exists s',
    accumulate s c
      = Some (s', EvStore (to_char c') :: (EvPutc <$> echo)
                    ++ (if commits then [EvWakeup] else [])) /\
    buf_at (st_input s') (Input.e i) = to_char c' /\
    (forall k, slot k <> slot (Input.e i) -> buf_at (st_input s') k = buf_at i k) /\
    Input.e (st_input s') = uint (Input.e i + 1) /\
    Input.r (st_input s') = Input.r i /\
    Input.w (st_input s') = (if commits then uint (Input.e i + 1) else Input.w i).
Proof.
  intros Hp Hi Hc Hroom i c' commits echo.
  assert (Hcur := proj1 Hi). unfold cursors_ok in Hcur. fold i in Hcur.
  assert (Hlen : length (Input.buf i) = 128%nat) by apply Hi.
  unfold accumulate, accumulates. fold i.
  replace (c =? 0) with false by (symmetry; by apply Z.eqb_neq).
  replace (uint (Input.e i - Input.r i) <? INPUT_BUF) with true
    by (symmetry; apply Z.ltb_lt; fold i in Hroom; unfold INPUT_BUF in *; lia).
  cbn [negb andb]. fold c'.
  assert (Hecho : consechoc (with_input s (store_inc_e i c')) c' = Some (EvPutc <$> echo)).
  { unfold consechoc, consputc, echo.
    change (echo_on (with_input s ?j)) with (echo_on s).
    change (panicked (with_input s ?j)) with (panicked s). rewrite Hp.
    destruct (negb (c' =? C "D") && echo_on s); [| done].
    by destruct (c' =? BACKSPACE). }
  rewrite Hecho. cbn [mbind option_bind].
  change (canonical (with_input s ?j)) with (canonical s).
  change (Input.e (store_inc_e i c')) with (uint (Input.e i + 1)).
  change (Input.r (store_inc_e i c')) with (Input.r i).
  fold commits.
  assert (Hat : buf_at (store_inc_e i c') (Input.e i) = to_char c').
  { rewrite buf_at_store by done. by rewrite decide_True. }
  assert (Hrest : forall k, slot k <> slot (Input.e i) ->
                    buf_at (store_inc_e i c') k = buf_at i k).
  { intros k Hk. rewrite buf_at_store by done. by rewrite decide_False. }
  destruct commits; [| rewrite app_nil_r];
    eexists; (split; [reflexivity |]); split_and!; done.
Qed.

(** C4 (amended).  One round of consoleintr in a reachable state, for a code
    the callback delivered.  In canonical mode Ctrl-P, Ctrl-U, Ctrl-H and DEL
    are taken by the switch and never come to the general accumulation
    step: nothing is stored, the slots and W stay as they are, no wakeup.
    For every other code, and for every code in raw mode, the step is
    skipped entirely (state unchanged, no call) exactly when the code is 0 or
    the window is full (E - R = 128).  Otherwise a carriage return is
    translated to a line feed, the low byte of the code is stored at slot
    E mod 128 and no other slot changes, E goes up by one, the code is echoed
    through consechoc, and W is set to E with a wakeup exactly when the
    commit check holds. *)
Theorem C4_accumulation_guard ok P D s c :
  reach ok P D s -> 0 <= c ->
  let i := st_input s in
  let c' := if c =? CR then NL else c in
  let full := uint (Input.e i - Input.r i) = INPUT_BUF in
  let editing :=
    canonical s = true /\ (c = C "P" \/ c = C "U" \/ c = C "H" \/ c = DEL) in
  let commits := (c' =? NL) || (c' =? C "D")
                 || (uint (Input.e i + 1) =? uint (Input.r i + INPUT_BUF))
                 || negb (canonical s) in
  let echo := if negb (c' =? C "D") && echo_on s
              then (if c' =? BACKSPACE then [8; 32; 8] else [c']) else [] in
  (editing ->
     exists s' evs,
       consoleintr_step s c = Some (s', evs) /\ stores evs = [] /\
       (EvWakeup ∉ evs) /\ Input.buf (st_input s') = Input.buf i /\
       Input.w (st_input s') = Input.w i) /\
  (~ editing ->
     (consoleintr_step s c = Some (s, []) <-> c = 0 \/ full) /\
     (c <> 0 -> ~ full ->
        exists s',
          consoleintr_step s c
            = Some (s', EvStore (to_char c') :: (EvPutc <$> echo)
                          ++ (if commits then [EvWakeup] else [])) /\
          buf_at (st_input s') (Input.e i) = to_char c' /\
          (forall k, slot k <> slot (Input.e i) ->
             buf_at (st_input s') k = buf_at i k) /\
          Input.e (st_input s') = uint (Input.e i + 1) /\
          Input.r (st_input s') = Input.r i /\
          Input.w (st_input s') = (if commits then uint (Input.e i + 1) else Input.w i))).
Proof.
  intros Hreach Hc0 i c' full editing commits echo.
  apply reach_inv in Hreach as (Hi & Hp & _).
  assert (Hcur := proj1 Hi). unfold cursors_ok in Hcur. fold i in Hcur.
  split.
  - intros (Hcan & Hed).
    destruct (consoleintr_step_total s c Hp) as [[s' evs] Hrun].
    exists s', evs. split; [done |]. by apply (editing_keeps s c).
  - intros Hne.
    assert (Hstep : consoleintr_step s c = accumulate s c).
    { unfold consoleintr_step. destruct (canonical s) eqn:Hcan; [| done].
      destruct (c =? C "P") eqn:H1; zbool; [exfalso; apply Hne; split; auto |].
      destruct (c =? C "U") eqn:H2; zbool; [exfalso; apply Hne; split; auto |].
      destruct ((c =? C "H") || (c =? DEL)) eqn:H3; [| done].
      apply orb_true_iff in H3 as [H3 | H3]; zbool;
        exfalso; apply Hne; split; auto. }
    rewrite Hstep. split.
    + split.
      * intros Hskip. destruct (Z.eq_dec c 0) as [-> | Hc]; [by left | right].
        destruct (Z.eq_dec (uint (Input.e i - Input.r i)) INPUT_BUF) as [Hf | Hf];
          [done |].
        destruct (accumulate_runs s c Hp Hi Hc Hf) as (s' & Hrun & _).
        rewrite Hrun in Hskip. done.
      * unfold accumulate, accumulates. fold i. intros [-> | Hf]; [done |].
        unfold full in Hf. rewrite Hf. by rewrite andb_false_r.
    + intros Hc Hf. by apply accumulate_runs.
Qed.

(** C5 (amended).  When every code the getc callback delivers is a byte
    value (0..255), in every reachable state in canonical mode the kill-line
    code takes E down to W exactly: the state afterwards is the state before
    with E set to W, one consechoc(BACKSPACE) was made per byte removed, and
    nothing else was called or stored.  The loop stops by itself: any fuel
    from the distance E - W up gives that same result. *)
Theorem C5_kill_line P D s :
  reach byte_code P D s -> canonical s = true ->
  let i := st_input s in
  let k := Z.to_nat (uint (Input.e i - Input.w i)) in
  exists evs,
    consoleintr_step s (C "U") = Some (with_input s (set_e i (Input.w i)), evs) /\
    echoed evs = concat (replicate k (erase_echo s)) /\
    silent evs = [] /\ stores evs = [] /\
    forall fuel, (k <= fuel)%nat ->
      exists evs', kill_loop fuel s = Some (with_input s (set_e i (Input.w i)), evs') /\
                   echoed evs' = echoed evs.
Proof.
  intros Hreach Hcan i k.
  pose proof (reach_no_nl _ _ _ Hreach) as Hnl.
  apply reach_inv in Hreach as (Hi & Hp & _).
  destruct (kill_loop_spec k s Hi Hnl Hp) as (evs & Hk & He & Hs & Hst); [done |].
  exists evs. split_and!; try done.
  - unfold consoleintr_step, kill_line. rewrite Hcan. done.
  - intros fuel Hfuel.
    destruct (kill_loop_spec fuel s Hi Hnl Hp) as (evs' & Hk' & He' & _); [done |].
    exists evs'. split; [done |]. fold i k in He, He'. congruence.
Qed.

(** Where a call of the read loop ends, read off the ring it starts on.
    Either every committed byte is handed out and quota is left, and the
    call finds the ring empty: it fails if killed and sleeps otherwise.  Or
    it returns the count of the bytes written. *)
Lemma read_loop_verdict fuel : forall s killed n target dst,
  inv (st_input s) -> reader_locals n target dst -> (Z.to_nat n <= fuel)%nat ->
  let res := read_loop fuel s killed n target dst in
  let cm := committed (st_input s) in
  let empties := 0 < n /\ Forall (passes s) cm /\ Z.of_nat (length cm) < n in
  (empties /\
   rd_status res = (if killed then ReadRet (-1)
                    else ReadSleep (n - Z.of_nat (length cm)) target) /\
   rd_dst res = dst ++ cm /\
   Input.r (st_input (rd_state res)) = Input.w (st_input s) /\
   Input.w (st_input (rd_state res)) = Input.w (st_input s)) \/
  (~ empties /\
   exists v, rd_status res = ReadRet v /\ 0 <= v /\
             v = Z.of_nat (length (rd_dst res))).
Proof.
  induction fuel as [| fuel IH]; intros s killed n target dst Hi Hl Hfuel.
  { right. destruct Hl as (Hn & Ht & Hlen). assert (n = 0) as -> by lia.
    split; [lia |]. exists target. cbn [read_loop rd_status rd_dst].
    rewrite Z.sub_0_r, sint_small by lia. split_and!; [done | lia | lia]. }
  cbn [read_loop]. destruct (0 <? n) eqn:Hpos; zbool.
  2:{ right. destruct Hl as (Hn & Ht & Hlen). assert (n = 0) as -> by lia.
      split; [lia |]. exists target. cbn [rd_status rd_dst].
      rewrite Z.sub_0_r, sint_small by lia. split_and!; [done | lia | lia]. }
  cbv zeta. destruct (Input.r (st_input s) =? Input.w (st_input s)) eqn:Hrw; zbool.
  { left. rewrite (committed_empty _ Hrw). cbn [length Z.of_nat].
    rewrite Z.sub_0_r, app_nil_r.
    split; [split_and!; [lia | constructor | lia] |].
    by destruct killed. }
  pose proof (committed_inc_r _ Hi Hrw) as Hcm.
  set (c := buf_at (st_input s) (Input.r (st_input s))) in *.
  destruct Hl as (Hn & Ht & Hlen).
  destruct ((c =? C "D") && canonical s) eqn:Heof.
  { right. apply andb_true_iff in Heof as [Hc Hcan]. zbool. split.
    - intros (_ & Hall & _). rewrite Hcm in Hall.
      apply list.Forall_cons in Hall as [[Hraw | [Hd _]] _]; congruence.
    - exists (target - n). cbn [rd_status rd_dst].
      rewrite sint_small by lia. split_and!; [done | lia | lia]. }
  destruct ((c =? NL) && canonical s) eqn:Hnl.
  { right. apply andb_true_iff in Hnl as [Hc Hcan]. zbool. split.
    - intros (_ & Hall & _). rewrite Hcm in Hall.
      apply list.Forall_cons in Hall as [[Hraw | [_ Hd]] _]; congruence.
    - exists (target - (n - 1)). cbn [rd_status rd_dst].
      rewrite sint_small by lia. rewrite length_app. simpl.
      split_and!; [done | lia | lia]. }
  assert (Hpass : passes s c).
  { unfold passes. destruct (canonical s); [right | by left].
    rewrite andb_true_r in Heof, Hnl. zbool. done. }
  destruct (IH (with_input s (inc_r (st_input s))) killed (n - 1) target (dst ++ [c]))
    as [(He & Hst & Hd & Hr & Hw) | (Hne & v & Hst & Hv & Hlenv)].
  - simpl. by apply inv_inc_r.
  - unfold reader_locals. rewrite length_app. simpl. lia.
  - lia.
  - left. cbn [st_input with_input] in *.
    change (Input.w (inc_r (st_input s))) with (Input.w (st_input s)) in *.
    destruct He as (Hn1 & Hall & Hlen1). rewrite Hcm.
    change (length (c :: ?l)) with (S (length l)). rewrite Nat2Z.inj_succ.
    split; [split_and!; [lia | by constructor | lia] |].
    split_and!; try done.
    + rewrite Hst. destruct killed; [done |]. f_equal. lia.
    + rewrite Hd, <- app_assoc. done.
  - right. cbn [st_input with_input] in *. split.
    + intros (Hn1 & Hall & Hlen1). apply Hne. rewrite Hcm in Hall, Hlen1.
      change (length (c :: ?l)) with (S (length l)) in Hlen1.
      rewrite Nat2Z.inj_succ in Hlen1.
      apply list.Forall_cons in Hall as [_ Hall]. split_and!; [lia | done | lia].
    + by exists v.
Qed.

(** C6.  Take a call of consoleread with an [int] quota, or a reader woken
    from its sleep with the locals it slept with, and run it to its next
    return or sleep, from a ring that satisfies the invariant.  Say the call
    empties the ring when it has quota left after handing out every
    committed byte, none of which ends the call (in canonical mode: none is
    the EOF code or a line feed).  The call returns -1 exactly when the
    killed flag is set and the call empties the ring: it then finds R = W
    with the flag set.  With the flag clear the same call sleeps there
    instead, and it sleeps in no other case.  Either way the committed bytes
    were written through dst and R stands at W.  Every other call returns the
    number of bytes written through dst, which is not negative. *)
Theorem C6_read_failure s killed n target dst :
  inv (st_input s) ->
  (- 2 ^ 31 <= n < 2 ^ 31 /\ target = uint n /\ dst = []) \/
  reader_locals n target dst ->
  let res := consoleread_wake s killed n target dst in
  let i' := st_input (rd_state res) in
  let cm := committed (st_input s) in
  let empties := 0 < n /\ Forall (passes s) cm /\ Z.of_nat (length cm) < n in
  (target = uint n -> dst = [] -> res = consoleread s killed n) /\
  (rd_status res = ReadRet (-1) <-> killed = true /\ empties) /\
  ((exists n' t', rd_status res = ReadSleep n' t') <-> killed = false /\ empties) /\
  (empties ->
     rd_dst res = dst ++ cm /\ Input.r i' = Input.w i' /\
     (killed = false ->
        rd_status res = ReadSleep (n - Z.of_nat (length cm)) target /\
        reader_locals (n - Z.of_nat (length cm)) target (rd_dst res))) /\
  (forall v, rd_status res = ReadRet v -> v <> -1 ->
     v = Z.of_nat (length (rd_dst res)) /\ 0 <= v).
Proof.
  intros Hi Hcall res i' cm empties.
  assert (Hfresh : target = uint n -> dst = [] -> res = consoleread s killed n)
    by (by intros -> ->).
  split; [exact Hfresh |]. clear Hfresh.
  destruct (Z.lt_ge_cases n 0) as [Hneg | Hpos].
  { destruct Hcall as [(Hn & -> & ->) | (Hn & _)]; [| lia].
    subst res i' empties. unfold consoleread_wake.
    replace (Z.to_nat n) with O by lia. cbn [read_loop rd_status rd_dst rd_state].
    replace (sint (uint n - n)) with 0
      by (unfold sint; replace (uint (uint n - n)) with 0 by wrap; done).
    split_and!.
    - split; [done | intros (_ & ? & _); lia].
    - split; [by intros (? & ? & ?) | intros (_ & ? & _); lia].
    - intros (? & _). lia.
    - intros v [= <-] _. done. }
  assert (Hl : reader_locals n target dst).
  { destruct Hcall as [(Hn & -> & ->) | Hl]; [| done].
    unfold reader_locals. rewrite uint_id by lia. simpl. lia. }
  destruct (read_loop_verdict (Z.to_nat n) s killed n target dst Hi Hl (le_n _))
    as [(He & Hst & Hd & Hr & Hw) | (Hne & v & Hst & Hv & Hlen)];
    fold (consoleread_wake s killed n target dst) in *; fold res in Hst.
  - fold res in Hd, Hr, Hw. fold cm in Hst, Hd.
    split_and!.
    + rewrite Hst. destruct killed; [done |]. split; [done | by intros (? & _)].
    + rewrite Hst. destruct killed.
      * split; [by intros (? & ? & ?) | by intros (? & _)].
      * split; [done | intros _; by eexists _, _].
    + intros _. split_and!; [done | subst i'; by rewrite Hr, Hw |].
      intros ->. split; [done |]. rewrite Hd.
      destruct Hl as (Hn & Ht & Hlen), He as (Hn0 & _ & Hlt).
      unfold reader_locals. rewrite length_app. fold cm in Hlt. lia.
    + intros v Hret Hv. rewrite Hst in Hret. destruct killed; [| done].
      injection Hret as <-. done.
  - fold res in Hlen. split_and!.
    + rewrite Hst. split; [intros [= ->]; lia | by intros (_ & ?)].
    + rewrite Hst. split; [by intros (? & ? & ?) | by intros (_ & ?)].
    + done.
    + intros w Hret _. rewrite Hst in Hret. injection Hret as <-. done.
Qed.

(** C7.  Run consoleintr on the same codes from two states that differ in
    c_lflag only, with the canonical bit equal in both (so they differ in
    the echo bit at most).  If the console has not panicked both runs
    return; whenever both return, the ring contents and the three cursors
    are the same, the calls other than uartputc (procdump, wakeup) and the
    stores are the same in the same order, and neither run changes struct
    cons.  With the echo bit clear a run sends nothing to the UART. *)
Theorem C7_echo_independent s l1 l2 codes :
  let s1 := with_termios s {| c_lflag := l1 |} in
  let s2 := with_termios s {| c_lflag := l2 |} in
  canonical s1 = canonical s2 ->
  (panicked s = false ->
     is_Some (consoleintr s1 codes) /\ is_Some (consoleintr s2 codes)) /\
  (forall s1' ev1 s2' ev2,
     consoleintr s1 codes = Some (s1', ev1) ->
     consoleintr s2 codes = Some (s2', ev2) ->
     st_input s1' = st_input s2' /\ silent ev1 = silent ev2 /\
     st_cons s1' = st_cons s1 /\ st_cons s2' = st_cons s2 /\
     (echo_on s2 = false -> echoed ev2 = [])).
Proof.
  intros s1 s2 Hcan. split.
  - intros Hp. split; by apply consoleintr_returns.
  - intros s1' ev1 s2' ev2 H1 H2.
    assert (Ht : twin s1 s2) by (split; done).
    destruct (consoleintr_twin codes s1 s2 s1' s2' ev1 ev2 Ht H1 H2)
      as (Hin & Hsil & (Hc1 & _) & (Hc2 & _)).
    split_and!; try done. intros He. by eapply consoleintr_quiet.
Qed.

(** C8.  On a console that has not panicked, cprintf("%d:%x:%s", -5, 255,
    "hi") sends "-5:ff:hi", cprintf("%s", NULL) sends "(null)",
    cprintf("%q") sends "%q" and cprintf("%%") sends "%".  For every [int]
    value %d sends its decimal rendering, with a leading '-' exactly when the
    value is negative; for every 32-bit word %x and %p send its hexadecimal
    rendering.  A rendering has digits of the base only, no leading zero,
    and denotes the value. *)
Theorem C8_cprintf s mem p :
  panicked s = false -> p <> 0 -> mem p = Some (bytes "hi") ->
  cprintf s mem (Some (bytes "%d:%x:%s")) [uint (-5); 255; p]
    = Some (EvPutc <$> bytes "-5:ff:hi") /\
  cprintf s mem (Some (bytes "%s")) [0] = Some (EvPutc <$> bytes "(null)") /\
  cprintf s mem (Some (bytes "%q")) [] = Some (EvPutc <$> bytes "%q") /\
  cprintf s mem (Some (bytes "%%")) [] = Some (EvPutc <$> bytes "%") /\
  (forall v, - 2 ^ 31 <= v < 2 ^ 31 ->
     exists ds,
       cprintf s mem (Some (bytes "%d")) [uint v]
         = Some (EvPutc <$> ((if v <? 0 then bytes "-" else []) ++ ds)) /\
       renders 10 (Z.abs v) ds) /\
  (forall a, 0 <= a < 2 ^ 32 ->
     exists ds,
       cprintf s mem (Some (bytes "%x")) [a] = Some (EvPutc <$> ds) /\
       cprintf s mem (Some (bytes "%p")) [a] = Some (EvPutc <$> ds) /\
       renders 16 a ds).
Proof.
  intros Hp Hp0 Hmem. unfold cprintf. rewrite Hp. split_and!.
  - destruct p as [| q | q]; [done | |];
      vm_compute; vm_compute in Hmem; rewrite Hmem; reflexivity.
  - reflexivity.
  - reflexivity.
  - reflexivity.
  - intros v Hv. destruct (printint_signed v Hv) as (ds & Hpr & Hr).
    exists ds. split; [| done].
    change (bytes "%d") with [37; 100]. cbn [cprintf_loop].
    change (Z.land 37 255 =? 0) with false. change (Z.land 37 255 =? 37) with true.
    change (Z.land 100 255 =? 0) with false. change (Z.land 100 255 =? 100) with true.
    cbn [negb]. rewrite sint_uint, Hpr by done. simpl. by rewrite app_nil_r.
  - intros a Ha. destruct (printint_hex a Ha) as (ds & Hpr & Hr).
    exists ds. split_and!; [| | done].
    + change (bytes "%x") with [37; 120]. cbn [cprintf_loop].
      change (Z.land 37 255 =? 0) with false. change (Z.land 37 255 =? 37) with true.
      change (Z.land 120 255 =? 0) with false. change (Z.land 120 255 =? 100) with false.
      change (Z.land 120 255 =? 120) with true.
      cbn [negb orb]. rewrite Hpr. simpl. by rewrite app_nil_r.
    + change (bytes "%p") with [37; 112]. cbn [cprintf_loop].
      change (Z.land 37 255 =? 0) with false. change (Z.land 37 255 =? 37) with true.
      change (Z.land 112 255 =? 0) with false. change (Z.land 112 255 =? 100) with false.
      change (Z.land 112 255 =? 120) with false. change (Z.land 112 255 =? 112) with true.
      cbn [negb orb]. rewrite Hpr. simpl. by rewrite app_nil_r.
Qed.

(** C9.  What consoleioctl does, return value included.  For every request
    other than TCGETA and TCSETA it returns -1 and changes neither the
    globals nor the caller's structure; so it does for these two when argptr
    cannot fetch the caller's pointer.  With the pointer fetched, TCGETA
    copies the stored termios structure to the caller and leaves the globals
    alone, and TCSETA overwrites the stored structure with the caller's and
    leaves the ring, the panic flag and the caller's structure alone; but
    after either copy control reaches the closing brace of the function:
    no return statement gives the caller a value, neither 0 nor any other. *)
Theorem C9_ioctl s req payload :
  (req <> TCGETA -> req <> TCSETA ->
     consoleioctl s req payload = (Returns (-1), s, payload)) /\
  consoleioctl s req None = (Returns (-1), s, None) /\
  (forall u, req = TCGETA ->
     consoleioctl s req (Some u)
       = (NoReturnValue, s, Some (Cons.termios_ (st_cons s)))) /\
  (forall u, req = TCSETA -> TCSETA <> TCGETA ->
     consoleioctl s req (Some u) = (NoReturnValue, with_termios s u, Some u)) /\
  (forall u v, req = TCGETA \/ req = TCSETA ->
     (consoleioctl s req (Some u)).1.1 <> Returns v).
Proof.
  unfold consoleioctl. split_and!.
  - intros H1 H2. apply Z.eqb_neq in H1, H2. by rewrite H1, H2.
  - by destruct (_ && _).
  - intros u ->. by rewrite Z.eqb_refl.
  - intros u -> Hne. apply Z.eqb_neq in Hne. by rewrite Hne, Z.eqb_refl.
  - intros u v [-> | ->].
    + by rewrite Z.eqb_refl.
    + rewrite Z.eqb_refl, andb_false_r. by destruct (TCSETA =? TCGETA).
Qed.


(** * Further properties of the code *)

(** ** Output: consolewrite, cprintf and panic *)

Lemma echoed_putc l : echoed (EvPutc <$> l) = l.
Proof.
  induction l as [| c l IH]; [done |].
  change (echoed (EvPutc <$> c :: l)) with (c :: echoed (EvPutc <$> l)).
  by rewrite IH.
Qed.

Lemma low_byte c : 0 <= Z.land c 255 < 256.
Proof.
  change 255 with (Z.ones 8). rewrite Z.land_ones by lia.
  apply Z.mod_pos_bound. lia.
Qed.

Lemma consputc_low c : consputc false (Z.land c 255) = Some [EvPutc (Z.land c 255)].
Proof.
  unfold consputc. pose proof (low_byte c) as Hc.
  replace (_ =? BACKSPACE) with false; [done |].
  symmetry. apply Z.eqb_neq. unfold BACKSPACE. lia.
Qed.

Lemma consolewrite_loop_spec buf : forall k,
  (k <= length buf)%nat ->
  consolewrite_loop false buf k =
    Some (EvPutc <$> ((fun c => Z.land c 255) <$> take k buf)).
Proof.
  induction buf as [| c buf IH]; intros k Hk; destruct k as [| k];
    [done | simpl in Hk; lia | done |].
  cbn [consolewrite_loop]. simpl in Hk.
  rewrite consputc_low, IH by lia. done.
Qed.

Lemma consolewrite_loop_app pan a b :
  consolewrite_loop pan (a ++ b) (length a + length b) =
    (o1 ← consolewrite_loop pan a (length a);
     o2 ← consolewrite_loop pan b (length b);
     Some (o1 ++ o2)).
Proof.
  induction a as [| c a IH]; simpl.
  - destruct (consolewrite_loop pan b (length b)); done.
  - destruct (consputc pan (Z.land c 255)) as [o |]; [| done]. simpl.
    rewrite IH. destruct (consolewrite_loop pan a (length a)) as [o1 |]; [| done]. simpl.
    destruct (consolewrite_loop pan b (length b)) as [o2 |]; [| done]. simpl.
    by rewrite app_assoc.
Qed.

(** A format without conversions. *)
Lemma cprintf_loop_literal mem fmt args :
  Forall (fun c => Z.land c 255 <> 0 /\ Z.land c 255 <> 37) fmt ->
  cprintf_loop false mem fmt args =
    Some (EvPutc <$> ((fun c => Z.land c 255) <$> fmt)).
Proof.
  induction 1 as [| c fmt (H0 & H37) _ IH]; [done |]. cbn [cprintf_loop].
  apply Z.eqb_neq in H0, H37. rewrite H0, H37. cbn [negb].
  rewrite consputc_low, IH. done.
Qed.

(** A format of complete items followed by more format: the second part
    starts with the arguments the first has left. *)
Lemma cprintf_loop_seq pan mem suffix :
  forall k pre args, (length pre <= k)%nat -> cstring pre -> plain pre = true ->
  cprintf_loop pan mem (pre ++ suffix) args =
    (o1 ← cprintf_loop pan mem pre args;
     o2 ← cprintf_loop pan mem suffix (drop (conversions pre) args);
     Some (o1 ++ o2)).
Proof.
  induction k as [| k IH]; intros pre args Hlen Hcs Hpl.
  { destruct pre; [| simpl in Hlen; lia]. cbn [app cprintf_loop conversions].
    rewrite drop_0. destruct (cprintf_loop pan mem suffix args); reflexivity. }
  destruct pre as [| c0 rest].
  { cbn [app cprintf_loop conversions].
    rewrite drop_0. destruct (cprintf_loop pan mem suffix args); reflexivity. }
  inversion Hcs as [| ? ? Hc0 Hrest]; subst.
  simpl in Hlen. cbn [app cprintf_loop plain conversions] in *.
  apply Z.eqb_neq in Hc0. rewrite Hc0.
  destruct (Z.land c0 255 =? 37); cbn [negb].
  2:{ rewrite IH by (done || lia).
      destruct (consputc pan (Z.land c0 255)); [| done]. simpl.
      destruct (cprintf_loop pan mem rest args); [| done]. simpl.
      destruct (cprintf_loop pan mem suffix _); [| done]. simpl.
      by rewrite app_assoc. }
  destruct rest as [| c1 rest']; [done |].
  inversion Hrest as [| ? ? Hc1 Hrest']; subst.
  simpl in Hlen. cbn [app].
  apply Z.eqb_neq in Hc1. rewrite Hc1.
  assert (Hrec : forall a, cprintf_loop pan mem (rest' ++ suffix) a =
            (o1 ← cprintf_loop pan mem rest' a;
             o2 ← cprintf_loop pan mem suffix (drop (conversions rest') a);
             Some (o1 ++ o2)))
    by (intros a; apply IH; (done || lia)).
  destruct (Z.land c1 255 =? 100); cbn [orb].
  { destruct args as [| a args]; [done |]. rewrite Hrec. cbn [drop].
    destruct (printint pan (sint a) 10 1); [| done]. simpl.
    destruct (cprintf_loop pan mem rest' args); [| done]. simpl.
    destruct (cprintf_loop pan mem suffix _); [| done]. simpl.
    by rewrite !app_assoc. }
  destruct ((Z.land c1 255 =? 120) || (Z.land c1 255 =? 112)) eqn:Hxp.
  { cbn [orb]. destruct args as [| a args]; [done |]. rewrite Hrec. cbn [drop].
    destruct (printint pan (sint a) 16 0); [| done]. simpl.
    destruct (cprintf_loop pan mem rest' args); [| done]. simpl.
    destruct (cprintf_loop pan mem suffix _); [| done]. simpl.
    by rewrite !app_assoc. }
  cbn [orb]. destruct (Z.land c1 255 =? 115).
  { destruct args as [| a args]; [done |]. rewrite Hrec. cbn [drop].
    destruct (if a =? 0 then _ else _) as [str |]; [| done]. simpl.
    destruct (puts_cstr pan str); [| done]. simpl.
    destruct (cprintf_loop pan mem rest' args); [| done]. simpl.
    destruct (cprintf_loop pan mem suffix _); [| done]. simpl.
    by rewrite !app_assoc. }
  destruct (Z.land c1 255 =? 37).
  { rewrite Hrec. destruct (consputc pan 37); [| done]. simpl.
    destruct (cprintf_loop pan mem rest' args); [| done]. simpl.
    destruct (cprintf_loop pan mem suffix _); [| done]. simpl.
    by rewrite !app_assoc. }
  rewrite Hrec. destruct (consputc pan 37); [| done]. simpl.
  destruct (consputc pan (Z.land c1 255)); [| done]. simpl.
  destruct (cprintf_loop pan mem rest' args); [| done]. simpl.
  destruct (cprintf_loop pan mem suffix _); [| done]. simpl.
  by rewrite !app_assoc.
Qed.

(** The string loop sends the characters up to the first NUL. *)
Lemma puts_cstr_spec str rest :
  Forall (fun c => c <> 0 /\ c <> BACKSPACE) str ->
  rest = [] \/ (exists junk, rest = 0 :: junk) ->
  puts_cstr false (str ++ rest) = Some (EvPutc <$> str).
Proof.
  intros Hstr Hrest. induction Hstr as [| c str (H0 & Hb) _ IH]; cbn [app puts_cstr].
  - destruct Hrest as [-> | (junk & ->)]; done.
  - apply Z.eqb_neq in H0, Hb. rewrite H0, IH. unfold consputc. rewrite Hb. done.
Qed.

(** The two formats panic() uses with an argument. *)
Lemma cprintf_cpu mem cpu :
  0 <= cpu < 2 ^ 31 ->
  exists ds,
    cprintf_loop false mem (bytes "cpu%d: panic: ") [cpu]
      = Some (EvPutc <$> (bytes "cpu" ++ ds ++ bytes ": panic: ")) /\
    renders 10 cpu ds.
Proof.
  intros Hcpu.
  destruct (printint_signed cpu) as (ds & Hpr & Hr); [lia |].
  replace (cpu <? 0) with false in Hpr by (symmetry; apply Z.ltb_ge; lia).
  rewrite Z.abs_eq in Hr by lia. simpl app in Hpr.
  exists ds. split; [| done].
  change (bytes "cpu%d: panic: ") with (bytes "cpu" ++ ([37; 100] ++ bytes ": panic: ")).
  rewrite (cprintf_loop_seq false mem _ 3 (bytes "cpu"));
    [| done | repeat constructor; done | done].
  rewrite (cprintf_loop_literal mem (bytes "cpu")) by (repeat constructor; done).
  cbn [mbind option_bind]. change (drop (conversions (bytes "cpu")) [cpu]) with [cpu].
  rewrite (cprintf_loop_seq false mem _ 2 [37; 100]);
    [| done | repeat constructor; done | done].
  change (drop (conversions [37; 100]) [cpu]) with (@nil Z).
  rewrite (cprintf_loop_literal mem (bytes ": panic: ")) by (repeat constructor; done).
  cbn [cprintf_loop].
  change (Z.land 37 255 =? 0) with false. change (Z.land 37 255 =? 37) with true.
  change (Z.land 100 255 =? 0) with false. change (Z.land 100 255 =? 100) with true.
  cbn [negb]. rewrite sint_small, Hpr by lia.
  cbn [mbind option_bind]. rewrite app_nil_r.
  change ((fun c => Z.land c 255) <$> bytes "cpu") with (bytes "cpu").
  change ((fun c => Z.land c 255) <$> bytes ": panic: ") with (bytes ": panic: ").
  by rewrite <- !fmap_app.
Qed.

Lemma cprintf_pc mem pc :
  0 <= pc < 2 ^ 32 ->
  exists ds,
    cprintf_loop false mem (bytes " %p") [pc] = Some (EvPutc <$> (32 :: ds)) /\
    renders 16 pc ds.
Proof.
  intros Hpc. destruct (printint_hex pc Hpc) as (ds & Hpr & Hr).
  exists ds. split; [| done].
  change (bytes " %p") with [32; 37; 112]. cbn [cprintf_loop].
  change (Z.land 32 255 =? 0) with false. change (Z.land 32 255 =? 37) with false.
  change (Z.land 37 255 =? 0) with false. change (Z.land 37 255 =? 37) with true.
  change (Z.land 112 255 =? 0) with false. change (Z.land 112 255 =? 100) with false.
  change (Z.land 112 255 =? 120) with false. change (Z.land 112 255 =? 112) with true.
  cbn [negb orb]. rewrite Hpr. simpl. by rewrite app_nil_r.
Qed.

Lemma panic_pcs_spec s mem pcs : forall k,
  panicked s = false -> Forall (fun pc => 0 <= pc < 2 ^ 32) pcs ->
  (k <= length pcs)%nat ->
  exists hexs,
    panic_pcs s mem pcs k = Some (EvPutc <$> concat ((fun h => 32 :: h) <$> hexs)) /\
    Forall2 (renders 16) (take k pcs) hexs.
Proof.
  intros k Hp Hpcs. revert k.
  induction Hpcs as [| pc pcs Hpc _ IH]; intros k Hk; destruct k as [| k];
    try (simpl in Hk; lia).
  - exists []. split; [done | constructor].
  - exists []. split; [done | constructor].
  - destruct (cprintf_pc mem pc Hpc) as (ds & Hpr & Hr).
    destruct (IH k) as (hexs & Hrest & Hall); [simpl in Hk; lia |].
    exists (ds :: hexs). split; [| by constructor].
    cbn [panic_pcs]. unfold cprintf. rewrite Hp, Hpr.
    cbn [mbind option_bind]. rewrite Hrest. cbn [mbind option_bind].
    simpl. by rewrite fmap_app.
Qed.

(** ** After a panic *)

Lemma consputs_panicked l o : consputs true l = Some o -> l = [] /\ o = [].
Proof.
  destruct l as [| c l]; [intros H; inversion H; done |].
  cbn [consputs]. unfold consputc. done.
Qed.

Lemma printint_loop_nonempty room x base ds :
  printint_loop room x base = Some ds -> ds <> [].
Proof.
  destruct room as [| room]; simpl; [done |].
  destruct (base =? 0); [done |].
  destruct (digits !! _) as [d |]; [| done]. simpl.
  destruct (x / base =? 0); [by intros [= <-] |].
  destruct (printint_loop room _ _); [| done]. simpl. by intros [= <-].
Qed.

Lemma printint_panicked xx base sign : printint true xx base sign = None.
Proof.
  unfold printint.
  destruct (printint_loop 16 _ _) as [ds |] eqn:Hds; [| done]. simpl.
  apply printint_loop_nonempty in Hds.
  assert (Hnone : forall l : list Z, l <> [] -> consputs true (rev l) = None).
  { intros l Hl. destruct (consputs true (rev l)) as [o |] eqn:Ho; [| done].
    apply consputs_panicked in Ho as [Hrev _].
    apply (f_equal (@rev Z)) in Hrev. rewrite rev_involutive in Hrev. done. }
  destruct (_ && _).
  - destruct (_ <? _)%nat; [| done]. apply Hnone. by destruct ds.
  - by apply Hnone.
Qed.

Lemma puts_cstr_panicked cs o : puts_cstr true cs = Some o -> o = [].
Proof.
  destruct cs as [| c cs]; simpl; [by intros [= <-] |].
  destruct (c =? 0); [by intros [= <-] | done].
Qed.

Lemma cprintf_loop_panicked mem : forall k fmt args o,
  (length fmt <= k)%nat -> cprintf_loop true mem fmt args = Some o -> o = [].
Proof.
  induction k as [| k IH]; intros fmt args o Hlen H.
  { destruct fmt; [| simpl in Hlen; lia]. by injection H as <-. }
  destruct fmt as [| c0 rest]; [by injection H as <- |].
  simpl in Hlen. cbn [cprintf_loop] in H.
  destruct (Z.land c0 255 =? 0); [by injection H as <- |].
  destruct (Z.land c0 255 =? 37); cbn [negb] in H; [| done].
  destruct rest as [| c1 rest']; [by injection H as <- |].
  destruct (Z.land c1 255 =? 0); [by injection H as <- |].
  destruct (Z.land c1 255 =? 100).
  { destruct args; [done |]. by rewrite printint_panicked in H. }
  destruct (_ || _).
  { destruct args; [done |]. by rewrite printint_panicked in H. }
  destruct (Z.land c1 255 =? 115).
  { destruct args as [| a args]; [done |].
    destruct (if a =? 0 then _ else _) as [str |]; [| done]. simpl in H.
    destruct (puts_cstr true str) as [o1 |] eqn:Ho1; [| done]. simpl in H.
    apply puts_cstr_panicked in Ho1 as ->.
    destruct (cprintf_loop true mem rest' args) as [o2 |] eqn:Ho2; [| done].
    simpl in H. injection H as <-.
    apply IH in Ho2; [done | simpl in Hlen; lia]. }
  destruct (Z.land c1 255 =? 37); done.
Qed.

Lemma consolewrite_loop_panicked buf k o :
  consolewrite_loop true buf k = Some o -> k = O /\ o = [].
Proof.
  destruct k as [| k]; simpl; [intros H; by inversion H |].
  destruct buf; [done |]. unfold consputc. done.
Qed.

Lemma consechoc_panicked s c o :
  panicked s = true -> consechoc s c = Some o -> o = [].
Proof.
  unfold consechoc, consputc. intros ->.
  destruct (_ && _); [done | by intros [= <-]].
Qed.

Lemma kill_loop_panicked fuel s s' evs :
  panicked s = true -> kill_loop fuel s = Some (s', evs) -> echoed evs = [].
Proof.
  revert s s' evs. induction fuel as [| fuel IH]; simpl; intros s s' evs Hp H.
  { by injection H as <- <-. }
  destruct (_ && _); [| by injection H as <- <-].
  destruct (consechoc _ BACKSPACE) as [o |] eqn:Ho; [| done]. simpl in H.
  destruct (kill_loop fuel _) as [[s2 ev2] |] eqn:Hk; [| done]. simpl in H.
  injection H as <- <-.
  apply consechoc_panicked in Ho as ->; [| done]. simpl.
  eapply IH; [| exact Hk]. exact Hp.
Qed.

Lemma consoleintr_step_panicked s c s' evs :
  panicked s = true -> consoleintr_step s c = Some (s', evs) -> echoed evs = [].
Proof.
  intros Hp H.
  assert (Hacc : forall s' evs, accumulate s c = Some (s', evs) -> echoed evs = []).
  { clear H s' evs. unfold accumulate. intros s' evs H.
    destruct (accumulates s c); [| by injection H as <- <-].
    destruct (consechoc _ _) as [o |] eqn:Ho; [| done]. simpl in H.
    apply consechoc_panicked in Ho as ->; [| done].
    destruct (_ || _); by injection H as <- <-. }
  unfold consoleintr_step, kill_line, erase in H.
  destruct (canonical s); [| by eapply Hacc].
  destruct (c =? C "P"); [by injection H as <- <- |].
  destruct (c =? C "U"); [by eapply kill_loop_panicked |].
  destruct (_ || _); [| by eapply Hacc].
  destruct (negb _); [| by injection H as <- <-].
  destruct (consechoc _ BACKSPACE) as [o |] eqn:Ho; [| done]. simpl in H.
  apply consechoc_panicked in Ho as ->; [| done]. by injection H as <- <-.
Qed.

Lemma consoleintr_panicked codes s s' evs :
  panicked s = true -> consoleintr s codes = Some (s', evs) ->
  echoed evs = [] /\ panicked s' = true.
Proof.
  revert s s' evs. induction codes as [| c rest IH]; simpl; intros s s' evs Hp H.
  { by injection H as <- <-. }
  destruct (c <? 0); [by injection H as <- <- |].
  destruct (consoleintr_step s c) as [[s1 ev1] |] eqn:H1; [| done]. simpl in H.
  destruct (consoleintr s1 rest) as [[s2 ev2] |] eqn:H2; [| done]. simpl in H.
  injection H as <- <-. rewrite echoed_app.
  erewrite consoleintr_step_panicked by done. simpl.
  eapply IH; [| done].
  destruct (consoleintr_step_twin s s c s1 s1 ev1 ev1) as (_ & _ & (_ & Hp1) & _);
    [by split | done | done |].
  congruence.
Qed.

Lemma silent_putc l : silent (EvPutc <$> l) = [].
Proof. induction l as [| c l IH]; [done |]. exact IH. Qed.

(** X1.  consolewrite sends one byte per character, the low eight bits of each,
    in order, and returns the count it was given; the erase pseudo-code
    cannot be reached through it.  A count of zero or less sends nothing and
    is returned as it is, whatever the state. *)
Theorem consolewrite_sends_low_bytes s buf n :
  (n <= 0 -> consolewrite s buf n = Some ([], n)) /\
  (panicked s = false -> 0 <= n -> (Z.to_nat n <= length buf)%nat ->
   exists o,
     consolewrite s buf n = Some (o, n) /\
     echoed o = (fun c => Z.land c 255) <$> take (Z.to_nat n) buf /\
     silent o = [] /\
     length (echoed o) = Z.to_nat n /\
     Forall (fun b => 0 <= b < 256) (echoed o)).
Proof.
  unfold consolewrite. split.
  - intros Hn. replace (Z.to_nat n) with O by lia. done.
  - intros -> Hn Hlen. rewrite consolewrite_loop_spec by done.
    eexists. split; [reflexivity |].
    rewrite echoed_putc, silent_putc. split_and!; [done | done | |].
    + rewrite length_fmap, length_take. lia.
    + apply Forall_fmap, Forall_forall. intros c _. apply low_byte.
Qed.

(** X2.  Writing two buffers one after the other sends what writing their
    concatenation sends; one write returns exactly when both do. *)
Theorem consolewrite_app s a b :
  let la := Z.of_nat (length a) in
  let lb := Z.of_nat (length b) in
  consolewrite s (a ++ b) (la + lb) =
    ('(o1, _) ← consolewrite s a la;
     '(o2, _) ← consolewrite s b lb;
     Some (o1 ++ o2, la + lb)).
Proof.
  intros la lb. unfold consolewrite. subst la lb.
  rewrite <- Nat2Z.inj_add, !Nat2Z.id, consolewrite_loop_app.
  destruct (consolewrite_loop _ a _); [| done]. simpl.
  destruct (consolewrite_loop _ b _); done.
Qed.

(** X3.  A format without '%' is sent as it is, character by character, and no
    argument is read. *)
Theorem cprintf_literal s mem fmt args :
  panicked s = false ->
  Forall (fun c => Z.land c 255 <> 0 /\ Z.land c 255 <> 37) fmt ->
  cprintf s mem (Some fmt) args =
    Some (EvPutc <$> ((fun c => Z.land c 255) <$> fmt)).
Proof. unfold cprintf. intros ->. apply cprintf_loop_literal. Qed.

(** X4.  Printing a format made of two parts, the first of complete items, is
    printing the first part and then the second part with the arguments the
    first part has not taken; it returns exactly when both do. *)
Theorem cprintf_sequence s mem pre suf args :
  cstring pre -> plain pre = true ->
  cprintf s mem (Some (pre ++ suf)) args =
    (o1 ← cprintf s mem (Some pre) args;
     o2 ← cprintf s mem (Some suf) (drop (conversions pre) args);
     Some (o1 ++ o2)).
Proof.
  intros Hcs Hpl. unfold cprintf.
  by apply (cprintf_loop_seq _ _ _ (length pre)).
Qed.

(** X5.  %s sends the characters of the string its argument points to, up to
    the first NUL, for every string of [char] values. *)
Theorem cprintf_string s mem a str rest :
  panicked s = false -> a <> 0 -> mem a = Some (str ++ rest) ->
  Forall (fun c => - 128 <= c < 256 /\ c <> 0) str ->
  rest = [] \/ (exists junk, rest = 0 :: junk) ->
  cprintf s mem (Some (bytes "%s")) [a] = Some (EvPutc <$> str).
Proof.
  intros Hp Ha Hmem Hstr Hrest. unfold cprintf. rewrite Hp.
  change (bytes "%s") with [37; 115]. cbn [cprintf_loop].
  change (Z.land 37 255 =? 0) with false. change (Z.land 37 255 =? 37) with true.
  change (Z.land 115 255 =? 0) with false. change (Z.land 115 255 =? 100) with false.
  change (Z.land 115 255 =? 120) with false. change (Z.land 115 255 =? 112) with false.
  change (Z.land 115 255 =? 115) with true. cbn [negb orb].
  apply Z.eqb_neq in Ha. rewrite Ha, Hmem. cbn [mbind option_bind].
  rewrite puts_cstr_spec; [simpl; by rewrite app_nil_r | | done].
  eapply Forall_impl; [| exact Hstr]. unfold BACKSPACE. simpl. lia.
Qed.

(** X6.  panic() with a message free of '%', on a console that has not panicked:
    it reaches its final loop having sent "cpu", the processor number in
    decimal, ": panic: ", the message, a line feed, and then a space and the
    hexadecimal rendering of each of the ten return addresses, and nothing
    else is called.  It leaves locking off and the panic flag set, and the
    ring and the mode as they were. *)
Theorem panic_halts_with_message s mem cpu m frame pcs :
  panicked s = false -> 0 <= cpu < 2 ^ 31 ->
  Forall (fun c => Z.land c 255 <> 0 /\ Z.land c 255 <> 37) m ->
  Forall (fun pc => 0 <= pc < 2 ^ 32) pcs -> (10 <= length pcs)%nat ->
  exists evs dec hexs,
    panic s mem cpu (Some m) frame pcs
      = Some (set_panicked (set_locking s false), evs) /\
    echoed evs = bytes "cpu" ++ dec ++ bytes ": panic: "
                 ++ ((fun c => Z.land c 255) <$> m) ++ [NL]
                 ++ concat ((fun h => 32 :: h) <$> hexs) /\
    silent evs = [] /\
    renders 10 cpu dec /\ Forall2 (renders 16) (take 10 pcs) hexs.
Proof.
  intros Hp Hcpu Hm Hpcs Hlen.
  destruct (cprintf_cpu mem cpu Hcpu) as (dec & Hdec & Hrdec).
  destruct (panic_pcs_spec (set_locking s false) mem pcs 10 Hp Hpcs Hlen)
    as (hexs & Hhex & Hrhex).
  eexists _, dec, hexs. unfold panic.
  unfold cprintf at 1 2 3. change (panicked (set_locking s false)) with (panicked s).
  rewrite Hp, Hdec, (cprintf_loop_literal mem m) by done.
  rewrite (cprintf_loop_literal mem [NL]) by (repeat constructor; done).
  cbn [mbind option_bind]. rewrite Hhex. cbn [mbind option_bind].
  split; [reflexivity |].
  rewrite <- !fmap_app, echoed_putc, silent_putc.
  split_and!; try done. by rewrite <- !app_assoc.
Qed.

(** X7.  Once the panic flag is set, a call that returns has sent nothing:
    cprintf returns only when its format produces no character,
    consolewrite only for a count of zero or less, consoleintr only when no
    code is echoed; panic() itself does not reach its final loop again.
    consoleintr, consoleread and consoleioctl leave the flag set. *)
Theorem after_panic_nothing_is_sent s :
  panicked s = true ->
  (forall mem fmt args o, cprintf s mem fmt args = Some o -> o = []) /\
  (forall buf n o v, consolewrite s buf n = Some (o, v) -> o = [] /\ n <= 0) /\
  (forall codes s' evs,
     consoleintr s codes = Some (s', evs) -> echoed evs = [] /\ panicked s' = true) /\
  (forall mem cpu msg frame pcs, panic s mem cpu msg frame pcs = None) /\
  (forall killed n, panicked (rd_state (consoleread s killed n)) = true) /\
  (forall req payload, panicked (consoleioctl s req payload).1.2 = true).
Proof.
  intros Hp. split_and!.
  - intros mem [fmt |] args o; unfold cprintf; [| done]. rewrite Hp.
    by apply (cprintf_loop_panicked mem (length fmt)).
  - intros buf n o v. unfold consolewrite. rewrite Hp.
    destruct (consolewrite_loop true buf (Z.to_nat n)) as [o' |] eqn:Ho; [| done].
    simpl. intros [= <- <-]. apply consolewrite_loop_panicked in Ho as [Hn ->].
    split; [done | lia].
  - intros codes s' evs. by apply consoleintr_panicked.
  - intros mem cpu msg frame pcs. unfold panic.
    destruct (cprintf _ mem (Some (bytes "cpu%d: panic: ")) [cpu]) as [o |] eqn:Ho; [| done].
    unfold cprintf in Ho. change (panicked (set_locking s false)) with (panicked s) in Ho.
    rewrite Hp in Ho. vm_compute in Ho. done.
  - intros killed n. unfold consoleread.
    generalize (uint n) as target. generalize (Z.to_nat n) as fuel.
    generalize (@nil Z) as dst. generalize n as q.
    intros q dst fuel target. revert s Hp q dst.
    induction fuel as [| fuel IH]; intros s Hp q dst; simpl; [done |].
    destruct (0 <? q); [| done].
    destruct (_ =? Input.w _); [by destruct killed |].
    destruct (_ && canonical s); [done |].
    destruct (_ && canonical s); [done |].
    by apply IH.
  - intros req payload. unfold consoleioctl.
    destruct (_ && _); [done |]. destruct payload; [| done].
    by destruct (req =? TCGETA).
Qed.

(** ** Input: what consoleintr and consoleread leave alone *)

Lemma kill_loop_keeps fuel s s' evs :
  kill_loop fuel s = Some (s', evs) ->
  Input.r (st_input s') = Input.r (st_input s) /\
  Input.w (st_input s') = Input.w (st_input s) /\
  Input.buf (st_input s') = Input.buf (st_input s) /\
  (EvWakeup ∉ evs) /\ Forall (fun b => b <> C "D") (echoed evs).
Proof.
  revert s s' evs. induction fuel as [| fuel IH]; simpl; intros s s' evs H.
  { injection H as <- <-. split_and!; try done; try apply not_elem_of_nil; try (by constructor). }
  destruct (_ && _).
  2:{ injection H as <- <-. split_and!; try done; try apply not_elem_of_nil; try (by constructor). }
  destruct (consechoc _ BACKSPACE) as [o |] eqn:Ho; [| done]. simpl in H.
  destruct (kill_loop fuel _) as [[s2 ev2] |] eqn:Hk; [| done]. simpl in H.
  injection H as <- <-.
  apply IH in Hk as (Hr & Hw & Hb & Hwk & He). simpl in Hr, Hw, Hb.
  assert (Ho' := Ho). apply consechoc_backspace in Ho' as (Hecho & Hsil & _).
  split_and!; try done.
  - rewrite not_elem_of_app. split; [| done].
    intros Hin. assert (Hin' : EvWakeup ∈ silent o).
    { unfold silent. apply list_elem_of_In, filter_In. split; [by apply list_elem_of_In | done]. }
    rewrite Hsil in Hin'. by apply not_elem_of_nil in Hin'.
  - rewrite echoed_app. apply Forall_app. split; [| done].
    rewrite Hecho. unfold erase_echo. destruct (echo_on _); repeat constructor; done.
Qed.

Lemma consechoc_no_eof s c o :
  consechoc s c = Some o ->
  Forall (fun b => b <> C "D") (echoed o) /\ (EvWakeup ∉ o).
Proof.
  unfold consechoc, consputc.
  destruct (negb (c =? C "D")) eqn:Hc; simpl.
  2:{ intros [= <-]. split; [constructor | apply not_elem_of_nil]. }
  zbool. destruct (echo_on s); simpl.
  2:{ intros [= <-]. split; [constructor | apply not_elem_of_nil]. }
  destruct (panicked s); [done |].
  destruct (c =? BACKSPACE); intros [= <-].
  - split; [repeat constructor; done |].
    rewrite !not_elem_of_cons. split_and!; try done. apply not_elem_of_nil.
  - split; [repeat constructor; done |].
    rewrite !not_elem_of_cons. split_and!; try done. apply not_elem_of_nil.
Qed.

(** What one round does to R, and that W moves only with a wakeup. *)
Lemma consoleintr_step_keeps s c s' evs :
  consoleintr_step s c = Some (s', evs) ->
  Input.r (st_input s') = Input.r (st_input s) /\
  (Input.w (st_input s') <> Input.w (st_input s) -> EvWakeup ∈ evs) /\
  Forall (fun b => b <> C "D") (echoed evs).
Proof.
  intros H.
  assert (Hacc : forall s' evs, accumulate s c = Some (s', evs) ->
    Input.r (st_input s') = Input.r (st_input s) /\
    (Input.w (st_input s') <> Input.w (st_input s) -> EvWakeup ∈ evs) /\
    Forall (fun b => b <> C "D") (echoed evs)).
  { clear H s' evs. unfold accumulate. intros s' evs H.
    destruct (accumulates s c); [| injection H as <- <-; split_and!; [done | done | constructor]].
    destruct (consechoc _ _) as [o |] eqn:Ho; [| done]. simpl in H.
    apply consechoc_no_eof in Ho as [He _].
    destruct (_ || _); injection H as <- <-; simpl; split_and!; try done.
    - intros _. rewrite elem_of_cons, elem_of_app, list_elem_of_singleton. tauto.
    - change (echoed (EvStore ?b :: ?l)) with (echoed l).
      rewrite echoed_app. simpl. by rewrite app_nil_r. }
  unfold consoleintr_step, kill_line, erase in H.
  destruct (canonical s); [| by apply Hacc].
  destruct (c =? C "P"); [injection H as <- <-; split_and!; [done | done | constructor] |].
  destruct (c =? C "U").
  { apply kill_loop_keeps in H as (Hr & Hw & _ & _ & He). by split_and!. }
  destruct (_ || _); [| by apply Hacc].
  destruct (negb _); [| injection H as <- <-; split_and!; [done | done | constructor]].
  destruct (consechoc _ BACKSPACE) as [o |] eqn:Ho; [| done]. simpl in H.
  apply consechoc_no_eof in Ho as [He _]. injection H as <- <-. simpl. by split_and!.
Qed.

Lemma consoleintr_keeps codes s s' evs :
  consoleintr s codes = Some (s', evs) ->
  Input.r (st_input s') = Input.r (st_input s) /\
  (Input.w (st_input s') <> Input.w (st_input s) -> EvWakeup ∈ evs) /\
  Forall (fun b => b <> C "D") (echoed evs).
Proof.
  revert s s' evs. induction codes as [| c rest IH]; simpl; intros s s' evs H.
  { injection H as <- <-. split_and!; [done | done | constructor]. }
  destruct (c <? 0); [injection H as <- <-; split_and!; [done | done | constructor] |].
  destruct (consoleintr_step s c) as [[s1 ev1] |] eqn:H1; [| done]. simpl in H.
  destruct (consoleintr s1 rest) as [[s2 ev2] |] eqn:H2; [| done]. simpl in H.
  injection H as <- <-.
  apply consoleintr_step_keeps in H1 as (Hr1 & Hw1 & He1).
  apply IH in H2 as (Hr2 & Hw2 & He2).
  split_and!.
  - congruence.
  - intros Hne. rewrite elem_of_app.
    destruct (decide (Input.w (st_input s1) = Input.w (st_input s))) as [Heq | Hneq].
    + right. apply Hw2. congruence.
    + left. by apply Hw1.
  - rewrite echoed_app. by apply Forall_app.
Qed.

Lemma read_loop_keeps fuel s killed n target dst :
  let s' := rd_state (read_loop fuel s killed n target dst) in
  st_cons s' = st_cons s /\ panicked s' = panicked s /\
  Input.buf (st_input s') = Input.buf (st_input s) /\
  Input.w (st_input s') = Input.w (st_input s) /\
  Input.e (st_input s') = Input.e (st_input s).
Proof.
  revert s n dst. induction fuel as [| fuel IH]; intros s n dst; simpl; [done |].
  destruct (0 <? n); [| done].
  destruct (_ =? Input.w _); [by destruct killed |].
  destruct (_ && canonical s); [by destruct (n <? target) |].
  destruct (_ && canonical s); [done |].
  apply (IH (with_input s (inc_r (st_input s)))).
Qed.

(** A batch in two parts. *)
Lemma consoleintr_app_eq a : forall s b,
  Forall (fun c => 0 <= c) a ->
  consoleintr s (a ++ b) =
    ('(s1, e1) ← consoleintr s a;
     '(s2, e2) ← consoleintr s1 b;
     Some (s2, e1 ++ e2)).
Proof.
  induction a as [| c a IH]; intros s b Ha; simpl.
  - destruct (consoleintr s b) as [[s2 e2] |]; done.
  - inversion Ha as [| ? ? Hc Ha']; subst.
    replace (c <? 0) with false by (symmetry; apply Z.ltb_ge; lia).
    destruct (consoleintr_step s c) as [[s1 e1] |]; [| done]. simpl.
    rewrite IH by done.
    destruct (consoleintr s1 a) as [[s2 e2] |]; [| done]. simpl.
    destruct (consoleintr s2 b) as [[s3 e3] |]; [| done]. simpl.
    by rewrite app_assoc.
Qed.

(** Raw mode: a round either changes nothing or commits. *)
Lemma raw_step s c s' evs :
  canonical s = false -> consoleintr_step s c = Some (s', evs) ->
  (s' = s /\ evs = []) \/
  (Input.w (st_input s') = Input.e (st_input s') /\ stores evs <> []).
Proof.
  intros Hcan. unfold consoleintr_step, accumulate. rewrite Hcan.
  destruct (accumulates s c); [| intros [= <- <-]; by left].
  destruct (consechoc _ _) as [o |]; [| done]. simpl.
  change (canonical (with_input s ?i)) with (canonical s). rewrite Hcan.
  rewrite !orb_true_r. intros [= <- <-]. right. done.
Qed.

(** ** Typing a line *)










(** ** Reading what is committed *)

Lemma committed_nil_inv i : inv i -> committed i = [] -> Input.r i = Input.w i.
Proof.
  intros (Hc & _) Hcm. unfold cursors_ok in Hc.
  apply (f_equal length) in Hcm. unfold committed in Hcm.
  rewrite length_fmap, length_seqZ in Hcm. simpl in Hcm.
  assert (uint (Input.w i - Input.r i) = 0) by (pose proof (uint_range (Input.w i - Input.r i)); lia).
  wrap.
Qed.

(** The loop goes over bytes that do not stop it, one round each. *)
Lemma read_loop_pass pre : forall s killed n target dst rest,
  inv (st_input s) -> committed (st_input s) = pre ++ rest ->
  Forall (passes s) pre -> Z.of_nat (length pre) <= n ->
  read_loop (Z.to_nat n) s killed n target dst =
    read_loop (Z.to_nat (n - Z.of_nat (length pre)))
      (with_input s (advance (st_input s) (Z.of_nat (length pre)))) killed
      (n - Z.of_nat (length pre)) target (dst ++ pre).
Proof.
  induction pre as [| b pre IH]; intros s killed n target dst rest Hi Hcm Hpre Hn.
  { simpl. rewrite Z.sub_0_r, app_nil_r, advance_0, with_input_same by done. done. }
  apply committed_cons in Hcm as (Hne & Hb & Hcm); [| done].
  inversion Hpre as [| ? ? Hpass Hpre']; subst.
  change (length (buf_at (st_input s) (Input.r (st_input s)) :: pre))
    with (S (length pre)) in *.
  rewrite Nat2Z.inj_succ in *.
  set (L := Z.of_nat (length pre)) in *.
  replace (Z.to_nat n) with (S (Z.to_nat (n - 1))) by lia.
  cbn [read_loop].
  replace (0 <? n) with true by (symmetry; apply Z.ltb_lt; lia).
  apply Z.eqb_neq in Hne. rewrite Hne. apply Z.eqb_neq in Hne.
  set (c := buf_at (st_input s) (Input.r (st_input s))) in *.
  assert (Hstop : (c =? C "D") && canonical s = false /\ (c =? NL) && canonical s = false).
  { destruct Hpass as [-> | (H4 & H10)]; [by rewrite !andb_false_r |].
    apply Z.eqb_neq in H4, H10. by rewrite H4, H10. }
  destruct Hstop as [-> ->].
  rewrite (IH (with_input s (inc_r (st_input s))) killed (n - 1) target (dst ++ [c]) rest);
    [| by apply inv_inc_r | done | done | fold L; lia].
  fold L. cbn [st_input with_input].
  rewrite advance_inc_r, <- app_assoc.
  replace (n - 1 - L) with (n - Z.succ L) by lia.
  replace (1 + L) with (Z.succ L) by lia.
  reflexivity.
Qed.







(** ** Further properties: the ring *)






(** X11.  A read stops when its quota is used up: if the first [n] committed
    bytes do not stop the loop (any byte in raw mode; no EOF code and no
    terminator in canonical mode), a read of [n] returns [n] with exactly
    those bytes and moves R past them; what follows stays in the ring. *)
Theorem read_stops_at_quota s killed n pre rest :
  inv (st_input s) -> committed (st_input s) = pre ++ rest ->
  Forall (passes s) pre -> Z.of_nat (length pre) = n -> 0 < n < 2 ^ 31 ->
  consoleread s killed n =
    {| rd_status := ReadRet n; rd_dst := pre;
       rd_state := with_input s (advance (st_input s) n) |} /\
  committed (advance (st_input s) n) = rest.
Proof.
  intros Hi Hcm Hpre Hlen Hn. split.
  - unfold consoleread.
    rewrite (read_loop_pass pre s killed n (uint n) [] rest) by (done || lia).
    rewrite Hlen, Z.sub_diag. change (Z.to_nat 0) with O. cbn [read_loop app].
    rewrite Z.sub_0_r, uint_id, sint_small by lia. done.
  - rewrite <- Hlen. by apply committed_advance.
Qed.

(** X12.  A read that finds fewer bytes than its quota and nothing that stops it
    takes them all and then waits on the empty ring; if the process has been
    killed it returns -1 instead, and the bytes it took are gone from the
    ring all the same. *)
Theorem read_drains_then_waits s killed n pre :
  inv (st_input s) -> committed (st_input s) = pre ->
  Forall (passes s) pre -> Z.of_nat (length pre) < n < 2 ^ 31 ->
  let s' := with_input s (advance (st_input s) (Z.of_nat (length pre))) in
  consoleread s killed n =
    {| rd_status := if killed then ReadRet (-1)
                    else ReadSleep (n - Z.of_nat (length pre)) n;
       rd_dst := pre; rd_state := s' |} /\
  Input.r (st_input s') = Input.w (st_input s') /\
  committed (st_input s') = [].
Proof.
  intros Hi Hcm Hpre Hn s'.
  destruct (committed_advance pre (st_input s) [] Hi) as (Hcm' & Hi');
    [by rewrite app_nil_r |].
  assert (Hrw : Input.r (st_input s') = Input.w (st_input s'))
    by (by apply committed_nil_inv).
  split; [| done].
  unfold consoleread.
  rewrite (read_loop_pass pre s killed n (uint n) [] []);
    [| done | by rewrite app_nil_r | done | lia].
  fold s'. set (q := n - Z.of_nat (length pre)).
  replace (Z.to_nat q) with (S (Z.to_nat (q - 1))) by lia. cbn [read_loop app].
  replace (0 <? q) with true by (symmetry; apply Z.ltb_lt; lia).
  rewrite Hrw, Z.eqb_refl, uint_id by lia. by destruct killed.
Qed.


(** X14.  Raw mode leaves nothing under edit: a batch either changes nothing at
    all or ends with W = E, having stored something; and the editing codes
    of canonical mode are data like any other code. *)
Theorem raw_mode_commits s :
  canonical s = false ->
  (forall codes s' evs, consoleintr s codes = Some (s', evs) ->
     (s' = s /\ evs = []) \/
     (Input.w (st_input s') = Input.e (st_input s') /\ stores evs <> [])) /\
  (forall c, panicked s = false -> 0 < c ->
     uint (Input.e (st_input s) - Input.r (st_input s)) < INPUT_BUF ->
     exists o,
       consoleintr_step s c =
         Some (with_input s (commit (store_inc_e (st_input s) (if c =? CR then NL else c))),
               EvStore (to_char (if c =? CR then NL else c)) :: o ++ [EvWakeup])).
Proof.
  intros Hcan. split.
  - intros codes. revert s Hcan.
    induction codes as [| c rest IH]; simpl; intros s Hcan s' evs H.
    { injection H as <- <-. by left. }
    destruct (c <? 0); [injection H as <- <-; by left |].
    destruct (consoleintr_step s c) as [[s1 ev1] |] eqn:H1; [| done]. simpl in H.
    destruct (consoleintr s1 rest) as [[s2 ev2] |] eqn:H2; [| done]. simpl in H.
    injection H as <- <-.
    assert (Hcan1 : canonical s1 = false).
    { destruct (consoleintr_step_twin s s c s1 s1 ev1 ev1) as (_ & _ & (Hc & _) & _);
        [by split | done | done |].
      by rewrite (canonical_cons _ _ Hc). }
    apply raw_step in H1; [| done]. apply IH in H2; [| done].
    destruct H1 as [(-> & ->) | (Hw1 & Hst1)]; [done |].
    right. destruct H2 as [(-> & ->) | (Hw2 & Hst2)].
    + by rewrite app_nil_r.
    + split; [done |]. rewrite stores_app. intros Happ.
      apply app_eq_nil in Happ as [_ Happ]. done.
  - intros c Hp Hc Hroom. unfold consoleintr_step, accumulate, accumulates.
    rewrite Hcan. replace (c =? 0) with false by (symmetry; apply Z.eqb_neq; lia).
    cbn [negb andb].
    replace (_ <? INPUT_BUF) with true by (symmetry; apply Z.ltb_lt; lia).
    match goal with |- context [consechoc ?s1 ?c1] =>
      destruct (consechoc_total s1 c1 Hp) as [o ->] end.
    cbn [mbind option_bind].
    change (canonical (with_input s ?i)) with (canonical s). rewrite Hcan.
    rewrite !orb_true_r. by exists o.
Qed.

(** X15.  In every reachable state a full window is a committed window: when
    E - R = 128, W = E, so all 128 bytes are there for a reader to take. *)
Theorem full_window_is_committed ok P D s :
  reach ok P D s ->
  uint (Input.e (st_input s) - Input.r (st_input s)) = INPUT_BUF ->
  Input.w (st_input s) = Input.e (st_input s) /\
  committed (st_input s) = window (st_input s) /\
  length (committed (st_input s)) = 128%nat.
Proof.
  intros Hreach Hfull. apply reach_inv in Hreach as ((Hc & Hlen & Hcommit) & _).
  specialize (Hcommit Hfull). split; [done |].
  assert (Hcw : committed (st_input s) = window (st_input s))
    by (unfold committed, window; by rewrite Hcommit).
  split; [done |]. rewrite Hcw, window_length, Hfull. done.
Qed.

(** X16.  The two sides of the ring keep to their own cursors, in any state:
    consoleintr moves neither R nor struct cons nor the panic flag;
    consoleread moves neither W nor E, writes no slot of the ring, and
    leaves struct cons and the panic flag alone. *)
Theorem producer_consumer_separation s :
  (forall codes s' evs, consoleintr s codes = Some (s', evs) ->
     Input.r (st_input s') = Input.r (st_input s) /\
     st_cons s' = st_cons s /\ panicked s' = panicked s) /\
  (forall killed n,
     let s' := rd_state (consoleread s killed n) in
     Input.w (st_input s') = Input.w (st_input s) /\
     Input.e (st_input s') = Input.e (st_input s) /\
     Input.buf (st_input s') = Input.buf (st_input s) /\
     st_cons s' = st_cons s /\ panicked s' = panicked s).
Proof.
  split.
  - intros codes s' evs H.
    destruct (consoleintr_keeps codes s s' evs H) as (Hr & _).
    destruct (consoleintr_twin codes s s s' s' evs evs) as (_ & _ & (Hc & Hp) & _);
      [by split | done | done |].
    done.
  - intros killed n s'. subst s'. unfold consoleread.
    pose proof (read_loop_keeps (Z.to_nat n) s killed n (uint n) [])
      as (Hc & Hp & Hb & Hw & He).
    done.
Qed.

(** X17.  No commit without a wakeup: whenever a batch leaves W different from
    what it was, it has called wakeup. *)
Theorem commit_wakes_readers s codes s' evs :
  consoleintr s codes = Some (s', evs) ->
  Input.w (st_input s') <> Input.w (st_input s) -> EvWakeup ∈ evs.
Proof. intros H. by destruct (consoleintr_keeps codes s s' evs H) as (_ & Hw & _). Qed.

(** X18.  consoleintr never passes the EOF code to uartputc, whatever the codes
    and the mode. *)
Theorem eof_is_never_echoed s codes s' evs :
  consoleintr s codes = Some (s', evs) -> C "D" ∉ echoed evs.
Proof.
  intros H. destruct (consoleintr_keeps codes s s' evs H) as (_ & _ & He).
  intros Hin. rewrite list.Forall_forall in He. by apply (He _ Hin).
Qed.

(** X19.  Modes round-trip through consoleioctl: after set-mode with a
    structure, get-mode copies that same structure out; get-mode followed by
    set-mode of what it gave changes nothing; and neither touches the ring
    or the panic flag. *)
Theorem ioctl_set_then_get s u v :
  TCSETA <> TCGETA ->
  let s1 := (consoleioctl s TCSETA (Some u)).1.2 in
  (consoleioctl s1 TCGETA (Some v)).2 = Some u /\
  (consoleioctl s1 TCGETA (Some v)).1.2 = s1 /\
  st_input s1 = st_input s /\ panicked s1 = panicked s /\
  (forall t, (consoleioctl s TCGETA (Some v)).2 = Some t ->
     (consoleioctl s TCSETA (Some t)).1.2 = s).
Proof.
  intros Hne s1. subst s1. unfold consoleioctl.
  rewrite !Z.eqb_refl. apply Z.eqb_neq in Hne. rewrite Hne. simpl.
  split_and!; try done.
  intros t [= <-]. by destruct s as [[l t] i p].
Qed.

(** X20.  A batch may be cut anywhere: running the codes [a ++ b], none of [a]
    negative, is running [a] and then [b].  A negative code ends the batch,
    and what the callback would return after it is not looked at. *)
Theorem consoleintr_app s a b c :
  Forall (fun c => 0 <= c) a ->
  consoleintr s (a ++ b) =
    ('(s1, e1) ← consoleintr s a;
     '(s2, e2) ← consoleintr s1 b;
     Some (s2, e1 ++ e2)) /\
  (c < 0 -> consoleintr s (a ++ c :: b) = consoleintr s a).
Proof.
  intros Ha. split; [by apply consoleintr_app_eq |].
  intros Hc. rewrite consoleintr_app_eq by done.
  destruct (consoleintr s a) as [[s1 e1] |]; [| done]. simpl.
  replace (c <? 0) with true by (symmetry; apply Z.ltb_lt; lia).
  simpl. by rewrite app_nil_r.
Qed.



(** X21.  The 16 slots of printint's buffer are enough for the calls cprintf
    makes: %d returns having sent between 1 and 11 characters, 11 only for
    a negative value, and %x and %p between 1 and 8. *)
Theorem printint_fits_buffer v a :
  - 2 ^ 31 <= v < 2 ^ 31 -> 0 <= a < 2 ^ 32 ->
  (exists o, printint false v 10 1 = Some o /\
             (1 <= length o <= 11)%nat /\ (length o = 11%nat -> v < 0)) /\
  (exists o, printint false (sint a) 16 0 = Some o /\ (1 <= length o <= 8)%nat).
Proof.
  intros Hv Ha. split.
  - unfold printint. simpl negb. cbn [andb]. change (uint 10) with 10.
    destruct (v <? 0) eqn:Hneg; zbool.
    + destruct (printint_loop_spec 9 16 (uint (- v)) 10)
        as (ds & -> & Hlen & Hall & _); [lia | | lia |].
      { pose proof (uint_range (- v)). change (10 ^ Z.of_nat 10) with 10000000000. lia. }
      cbn [mbind option_bind].
      replace (length ds <? 16)%nat with true by (symmetry; apply Nat.ltb_lt; lia).
      rewrite consputs_plain.
      * eexists. split; [reflexivity |].
        rewrite length_fmap, length_rev, length_app. simpl. lia.
      * apply Forall_rev, Forall_app. split.
        -- eapply Forall_impl; [| exact Hall]. simpl. tauto.
        -- by repeat constructor.
    + destruct (printint_loop_spec 9 16 (uint v) 10)
        as (ds & -> & Hlen & Hall & _); [lia | | lia |].
      { pose proof (uint_range v). change (10 ^ Z.of_nat 10) with 10000000000. lia. }
      cbn [mbind option_bind]. rewrite consputs_plain.
      * eexists. split; [reflexivity |]. rewrite length_fmap, length_rev. lia.
      * apply Forall_rev. eapply Forall_impl; [| exact Hall]. simpl. tauto.
  - unfold printint. simpl negb. cbn [andb]. change (uint 16) with 16.
    replace (uint (sint a)) with a.
    2:{ unfold sint. rewrite (uint_id a) by done. destruct (a <? 2 ^ 31); wrap. }
    destruct (printint_loop_spec 7 16 a 16)
      as (ds & -> & Hlen & Hall & _); [lia | | lia |].
    { change (16 ^ Z.of_nat 8) with 4294967296. lia. }
    cbn [mbind option_bind]. rewrite consputs_plain.
    + eexists. split; [reflexivity |]. rewrite length_fmap, length_rev. lia.
    + apply Forall_rev. eapply Forall_impl; [| exact Hall]. simpl. tauto.
Qed.


End Console.

(** Goals closed by running the model. *)
Ltac run := vm_compute; repeat split; first [reflexivity | discriminate].
Ltac each tac :=
  match goal with
  | |- Forall ?P ?l => let l' := eval vm_compute in l in change (Forall P l')
  end;
  repeat match goal with
         | |- Forall _ [] => constructor
         | |- Forall _ (_ :: _) => constructor; [tac |]
         end.

(** * The theorems at a concrete console

    The constants are given the values of the usual termios.h and ioctl
    numbers: ECHO = 8, ICANON = 2, TCGETA = 21509, TCSETA = 21510. *)

(** Sample runs of the model. *)

Example erase_at_line_start :
  consoleintr 8 2 (consoleinit 8 2) [C "H"] = Some (consoleinit 8 2, []).
Proof. reflexivity. Qed.

Example carriage_return_commits :
  match consoleintr 8 2 (consoleinit 8 2) [97; CR] with
  | Some (s, evs) =>
    Input.w (st_input s) = 2 /\ Input.e (st_input s) = 2 /\
    evs = [EvStore 97; EvPutc 97; EvStore 10; EvPutc 10; EvWakeup]
  | None => False
  end.
Proof. vm_compute. repeat split. Qed.

Example raw_mode_commits_each_byte :
  match consoleintr 8 2 (with_termios (consoleinit 8 2) {| c_lflag := 8 |}) [97; C "H"] with
  | Some (s, evs) =>
    Input.w (st_input s) = 2 /\ Input.e (st_input s) = 2 /\
    stores evs = [97; 8] /\ echoed evs = [97; 8]
  | None => False
  end.
Proof. vm_compute. repeat split. Qed.

Example negative_code_ends_the_batch :
  match consoleintr 8 2 (consoleinit 8 2) [97; -1; 98] with
  | Some (s, evs) => Input.e (st_input s) = 1 /\ stores evs = [97]
  | None => False
  end.
Proof. vm_compute. repeat split. Qed.

Example read_stops_at_newline :
  match consoleintr 8 2 (consoleinit 8 2) [97; NL; 98; NL] with
  | Some (s, _) =>
    rd_status (consoleread 2 s false 10) = ReadRet 2 /\
    rd_dst (consoleread 2 s false 10) = [97; 10]
  | None => False
  end.
Proof. vm_compute. repeat split. Qed.

Example read_on_empty_ring :
  rd_status (consoleread 2 (consoleinit 8 2) false 4) = ReadSleep 4 4 /\
  rd_status (consoleread 2 (consoleinit 8 2) true 4) = ReadRet (-1).
Proof. split; reflexivity. Qed.

Example cprintf_hex :
  cprintf (consoleinit 8 2) (fun _ => None) (Some (bytes "%x")) [48879]
    = Some (EvPutc <$> bytes "beef").
Proof. reflexivity. Qed.

Example cprintf_int_min :
  cprintf (consoleinit 8 2) (fun _ => None) (Some (bytes "%d")) [2147483648]
    = Some (EvPutc <$> bytes "-2147483648").
Proof. reflexivity. Qed.

Lemma C1_witness :
  exists P s,
    reach 8 2 21509 21510 any_code P [] s /\
    uint (Input.e (st_input s) - Input.r (st_input s)) = INPUT_BUF /\
    cursors_ok (st_input s) /\
    exists evs, consoleintr 8 2 s [98; 99; 10] = Some (s, evs) /\
                stores evs = [] /\ echoed evs = [].
Proof.
  eexists _, _.
  match goal with |- ?A /\ _ => assert (Hreach : A) end.
  { eapply (reach_intr 8 2 21509 21510 any_code [] [] _ (replicate 130 97));
      [apply reach_init | | vm_compute; reflexivity].
    apply Forall_forall. intros; exact I. }
  split; [exact Hreach |].
  destruct (C1_cursors_bounded 8 2 21509 21510 any_code _ _ _ Hreach)
    as (Hc & _ & Hfull).
  split; [vm_compute; reflexivity |]. split; [exact Hc |].
  apply Hfull. vm_compute; reflexivity.
Defined.

Lemma C2_witness :
  inv (st_input (consoleinit 8 2)) /\
  canonical 2 (consoleinit 8 2) = true /\
  exists s1 evs,
    consoleintr 8 2 (consoleinit 8 2) [97; 98; C "D"] = Some (s1, evs) /\
    rd_status (consoleread 2 s1 false 10) = ReadRet 2 /\
    rd_dst (consoleread 2 s1 false 10) = [97; 98] /\
    rd_status (consoleread 2 (rd_state (consoleread 2 s1 false 10)) false 1) = ReadRet 0.
Proof.
  split; [apply inv_consoleinit |]. split; [reflexivity |].
  destruct (C2_eof_deferral 8 2 (consoleinit 8 2) false
              (inv_consoleinit 8 2) eq_refl) as (_ & _ & Hex).
  destruct (Hex eq_refl eq_refl) as (s1 & evs & Hrun & Hst & Hdst & Hnext).
  exists s1, evs. split; [exact Hrun |]. split; [exact Hst |]. split; [exact Hdst |].
  apply (Hnext 1). lia.
Defined.

Lemma C3_witness :
  exists P D s,
    reach 8 2 21509 21510 any_code P D s /\ canonical 2 s = true /\
    P = [97; 98; 10; 99; 10; 100] /\ D = [97; 98; 10] /\
    rd_dst (consoleread 2 s false 10) = [99; 10] /\
    (exists body ret,
       rd_dst (consoleread 2 s false 10) = body ++ [NL] /\ (NL ∉ body) /\
       rd_status (consoleread 2 s false 10) = ReadRet ret) /\
    D ++ rd_dst (consoleread 2 s false 10) `sublist_of` P.
Proof.
  eexists _, _, _.
  match goal with |- ?A /\ _ => assert (Hreach : A) end.
  { eapply (reach_read 8 2 21509 21510 any_code _ [] _ false 10).
    eapply (reach_intr 8 2 21509 21510 any_code [] [] _ [97; 98; NL; 99; NL; 100]);
      [apply reach_init | | vm_compute; reflexivity].
    apply Forall_forall. intros; exact I. }
  split; [exact Hreach |].
  match goal with |- ?A /\ _ => assert (Hcan : A) by (vm_compute; reflexivity) end.
  split; [exact Hcan |].
  split; [vm_compute; reflexivity |]. split; [vm_compute; reflexivity |].
  match goal with |- ?A /\ _ => assert (Hout : A) by (vm_compute; reflexivity) end.
  split; [exact Hout |].
  destruct (C3_one_line 8 2 21509 21510 any_code _ _ _ false 10 Hreach Hcan)
    as ((_ & Hline) & _ & Hsub).
  split; [| exact Hsub].
  destruct Hline as [Hno | Hex]; [| exact Hex].
  exfalso. apply Hno. rewrite Hout.
  apply elem_of_cons. right. apply elem_of_cons. by left.
Defined.

Lemma C4_witness :
  exists P s,
    reach 8 2 21509 21510 any_code P [] s /\
    Input.e (st_input s) = 2 /\ Input.w (st_input s) = 0 /\
    (exists s',
       consoleintr_step 8 2 s CR = Some (s', [EvStore 10; EvPutc 10; EvWakeup]) /\
       buf_at (st_input s') 2 = 10 /\
       Input.e (st_input s') = 3 /\ Input.w (st_input s') = 3) /\
    (exists s',
       consoleintr_step 8 2 s 353 = Some (s', [EvStore 97; EvPutc 353]) /\
       Input.e (st_input s') = 3 /\ Input.w (st_input s') = 0) /\
    consoleintr_step 8 2 s 0 = Some (s, []) /\
    (exists s' evs,
       consoleintr_step 8 2 s DEL = Some (s', evs) /\ stores evs = [] /\
       Input.buf (st_input s') = Input.buf (st_input s)).
Proof.
  eexists _, _.
  match goal with |- ?A /\ _ => assert (Hreach : A) end.
  { eapply (reach_intr 8 2 21509 21510 any_code [] [] _ [97; 98]);
      [apply reach_init | | vm_compute; reflexivity].
    apply Forall_forall. intros; exact I. }
  split; [exact Hreach |]. split; [reflexivity |]. split; [reflexivity |].
  match type of Hreach with reach _ _ _ _ _ _ _ ?s0 => set (s := s0) in * end.
  assert (Hplain : forall c, c = CR \/ c = 353 \/ c = 0 ->
            ~ (canonical 2 s = true /\ (c = C "P" \/ c = C "U" \/ c = C "H" \/ c = DEL))).
  { intros c Hc (_ & Hed).
    destruct Hc as [-> | [-> | ->]]; destruct Hed as [H | [H | [H | H]]];
      vm_compute in H; discriminate H. }
  destruct (C4_accumulation_guard 8 2 21509 21510 any_code _ _ s CR Hreach)
    as (_ & Hcr); [vm_compute; discriminate |].
  destruct (C4_accumulation_guard 8 2 21509 21510 any_code _ _ s 353 Hreach)
    as (_ & Hbig); [lia |].
  destruct (C4_accumulation_guard 8 2 21509 21510 any_code _ _ s 0 Hreach)
    as (_ & Hnul); [lia |].
  destruct (C4_accumulation_guard 8 2 21509 21510 any_code _ _ s DEL Hreach)
    as (Hdel & _); [vm_compute; discriminate |].
  split.
  { destruct (Hcr (Hplain CR ltac:(auto))) as (_ & Hacc).
    destruct Hacc as (s' & Hrun & Hat & _ & He & _ & Hw);
      [vm_compute; discriminate | vm_compute; discriminate |].
    exists s'. split; [exact Hrun |]. split; [exact Hat |]. split; [exact He | exact Hw]. }
  split.
  { destruct (Hbig (Hplain 353 ltac:(auto))) as (_ & Hacc).
    destruct Hacc as (s' & Hrun & _ & _ & He & _ & Hw);
      [lia | vm_compute; discriminate |].
    exists s'. split; [exact Hrun |]. split; [exact He | exact Hw]. }
  split.
  { destruct (Hnul (Hplain 0 ltac:(auto))) as (Hskip & _).
    apply Hskip. by left. }
  destruct Hdel as (s' & evs & Hrun & Hst & _ & Hb & _).
  { split; [reflexivity |]. right; right; by right. }
  exists s', evs. split; [exact Hrun |]. split; [exact Hst | exact Hb].
Defined.

Lemma C5_witness :
  exists P s,
    reach 8 2 21509 21510 byte_code P [] s /\ canonical 2 s = true /\
    Input.e (st_input s) = 2 /\ Input.w (st_input s) = 0 /\
    exists evs,
      consoleintr_step 8 2 s (C "U")
        = Some (with_input s (set_e (st_input s) (Input.w (st_input s))), evs) /\
      echoed evs = [8; 32; 8; 8; 32; 8].
Proof.
  eexists _, _.
  match goal with |- ?A /\ _ => assert (Hreach : A) end.
  { eapply (reach_intr 8 2 21509 21510 byte_code [] [] _ [97; 98]);
      [apply reach_init | | vm_compute; reflexivity].
    repeat constructor; unfold byte_code; lia. }
  split; [exact Hreach |]. split; [reflexivity |].
  split; [reflexivity |]. split; [reflexivity |].
  destruct (C5_kill_line 8 2 21509 21510 _ _ _ Hreach eq_refl)
    as (evs & Hstep & Hecho & _).
  exists evs. split; [exact Hstep | exact Hecho].
Defined.

Lemma C6_witness :
  exists s evs,
    consoleintr 8 2 (with_termios (consoleinit 8 2) {| c_lflag := 8 |}) [97; NL]
      = Some (s, evs) /\
    inv (st_input s) /\ committed (st_input s) = [97; 10] /\
    rd_status (consoleread 2 s true 5) = ReadRet (-1) /\
    rd_dst (consoleread 2 s true 5) = [97; 10] /\
    rd_status (consoleread 2 s false 5) = ReadSleep 3 5 /\
    rd_status (consoleread 2 s true 2) <> ReadRet (-1).
Proof.
  eexists _, _.
  match goal with |- ?A /\ _ => assert (Hrun : A) by (vm_compute; reflexivity) end.
  split; [exact Hrun |].
  match goal with |- ?A /\ _ => assert (Hi : A) by run end.
  split; [exact Hi |]. split; [vm_compute; reflexivity |].
  match goal with |- context [consoleread 2 ?s0 true 5] => set (s := s0) in * end.
  assert (He : forall n, 2 < n ->
            0 < n /\ Forall (passes 2 s) (committed (st_input s)) /\
            Z.of_nat (length (committed (st_input s))) < n).
  { intros n Hn. split; [lia |]. split; [| exact Hn].
    each ltac:(left; reflexivity). }
  destruct (C6_read_failure 2 s true 5 (uint 5) [] Hi)
    as (_ & Hfail & _ & Hbytes & _); [left; split_and!; [lia | lia | done | done] |].
  destruct (C6_read_failure 2 s false 5 (uint 5) [] Hi)
    as (_ & _ & _ & Hsleep & _); [left; split_and!; [lia | lia | done | done] |].
  destruct (C6_read_failure 2 s true 2 (uint 2) [] Hi)
    as (_ & Hquota & _); [left; split_and!; [lia | lia | done | done] |].
  split; [apply Hfail; split; [done | apply He; lia] |].
  split; [apply (Hbytes (He 5 ltac:(lia))) |].
  split; [apply (Hsleep (He 5 ltac:(lia))); done |].
  intros Hret. apply Hquota in Hret as (_ & _ & _ & Hlen).
  vm_compute in Hlen. discriminate Hlen.
Defined.

Lemma C7_witness :
  exists s1' ev1 s2' ev2,
    consoleintr 8 2 (with_termios (consoleinit 8 2) {| c_lflag := 10 |}) [97; 13]
      = Some (s1', ev1) /\
    consoleintr 8 2 (with_termios (consoleinit 8 2) {| c_lflag := 2 |}) [97; 13]
      = Some (s2', ev2) /\
    echoed ev1 = [97; 10] /\ echoed ev2 = [] /\
    st_input s1' = st_input s2' /\ silent ev1 = silent ev2.
Proof.
  eexists _, _, _, _.
  match goal with |- ?A /\ ?B /\ _ =>
    assert (H1 : A) by (vm_compute; reflexivity);
    assert (H2 : B) by (vm_compute; reflexivity)
  end.
  split; [exact H1 |]. split; [exact H2 |].
  split; [reflexivity |]. split; [reflexivity |].
  destruct (C7_echo_independent 8 2 (consoleinit 8 2) 10 2 [97; 13] eq_refl)
    as (_ & Hsame).
  destruct (Hsame _ _ _ _ H1 H2) as (Hin & Hsil & _).
  split; [exact Hin | exact Hsil].
Defined.

Lemma C8_witness :
  cprintf (consoleinit 8 2)
          (fun a => if a =? 4096 then Some (bytes "hi") else None)
          (Some (bytes "%d:%x:%s")) [uint (-5); 255; 4096]
    = Some (EvPutc <$> bytes "-5:ff:hi").
Proof.
  assert (Hp0 : 4096 <> 0) by lia.
  destruct (C8_cprintf (consoleinit 8 2)
              (fun a => if a =? 4096 then Some (bytes "hi") else None) 4096
              eq_refl Hp0 eq_refl) as (Hex & _).
  exact Hex.
Defined.

Lemma C9_witness :
  consoleioctl 21509 21510 (consoleinit 8 2) 7 (Some {| c_lflag := 0 |})
    = (Returns (-1), consoleinit 8 2, Some {| c_lflag := 0 |}) /\
  consoleioctl 21509 21510 (consoleinit 8 2) 21509 (Some {| c_lflag := 0 |})
    = (NoReturnValue, consoleinit 8 2, Some {| c_lflag := 10 |}) /\
  consoleioctl 21509 21510 (consoleinit 8 2) 21510 (Some {| c_lflag := 2 |})
    = (NoReturnValue, with_termios (consoleinit 8 2) {| c_lflag := 2 |},
       Some {| c_lflag := 2 |}) /\
  (consoleioctl 21509 21510 (consoleinit 8 2) 21509 (Some {| c_lflag := 0 |})).1.1
    <> Returns 0.
Proof.
  split.
  - destruct (C9_ioctl 21509 21510 (consoleinit 8 2) 7 (Some {| c_lflag := 0 |}))
      as (Hother & _).
    apply Hother; lia.
  - destruct (C9_ioctl 21509 21510 (consoleinit 8 2) 21509 None)
      as (_ & _ & Hget & _ & Hret).
    destruct (C9_ioctl 21509 21510 (consoleinit 8 2) 21510 None)
      as (_ & _ & _ & Hset & _).
    split; [exact (Hget {| c_lflag := 0 |} eq_refl) |].
    split; [apply (Hset {| c_lflag := 2 |} eq_refl); lia |].
    apply (Hret {| c_lflag := 0 |} 0). by left.
Defined.


(** * Where the specification fails as stated *)

(** C4 as stated fails on a NUL code arriving at the empty ring of
    consoleinit: the window has room (E - R = 0), yet the accumulation step
    is skipped and nothing is stored. *)
Lemma C4_counterexample :
  accumulates (consoleinit 8 2) 0 = false /\
  uint (Input.e (st_input (consoleinit 8 2)) - Input.r (st_input (consoleinit 8 2))) = 0 /\
  consoleintr 8 2 (consoleinit 8 2) [0] = Some (consoleinit 8 2, []) /\
  ~ (accumulates (consoleinit 8 2) 0 = false <->
       0 = 0 /\
       uint (Input.e (st_input (consoleinit 8 2)) - Input.r (st_input (consoleinit 8 2)))
         = INPUT_BUF).
Proof.
  split; [reflexivity |]. split; [reflexivity |]. split; [reflexivity |].
  intros [Hskip _]. destruct (Hskip eq_refl) as [_ Hfull].
  vm_compute in Hfull. discriminate Hfull.
Qed.

(** C5 as stated fails when the getc callback delivers 'a', then the code
    266 (stored as the byte 10 but not committed, since 266 is not '\n'),
    then Ctrl-U: the state before Ctrl-U is reachable, and the loop stops at
    E = 2 while W = 0. *)
Lemma C5_counterexample :
  exists s1 ev1 s2 ev2,
    consoleintr 8 2 (consoleinit 8 2) [97; 266] = Some (s1, ev1) /\
    reach 8 2 21509 21510 any_code ([] ++ stores ev1) [] s1 /\
    canonical 2 s1 = true /\
    consoleintr_step 8 2 s1 (C "U") = Some (s2, ev2) /\
    Input.e (st_input s2) = 2 /\ Input.w (st_input s2) = 0.
Proof.
  eexists _, _, _, _.
  match goal with |- ?A /\ _ => assert (Hrun : A) by (vm_compute; reflexivity) end.
  split; [exact Hrun |]. split.
  { eapply (reach_intr 8 2 21509 21510 any_code [] [] _ [97; 266]);
      [apply reach_init | | exact Hrun].
    repeat constructor. }
  split; [reflexivity |]. split; [vm_compute; reflexivity |].
  split; reflexivity.
Qed.

(** * The further properties at a concrete console *)

Lemma consolewrite_sends_low_bytes_witness :
  consolewrite (consoleinit 8 2) [104; 361] 0 = Some ([], 0) /\
  exists o,
    consolewrite (consoleinit 8 2) [104; 361] 2 = Some (o, 2) /\
    echoed o = [104; 105] /\ silent o = [].
Proof.
  destruct (consolewrite_sends_low_bytes (consoleinit 8 2) [104; 361] 0) as (H0 & _).
  destruct (consolewrite_sends_low_bytes (consoleinit 8 2) [104; 361] 2) as (_ & H2).
  split; [apply H0; lia |].
  destruct (H2 eq_refl ltac:(lia) ltac:(simpl; lia)) as (o & Ho & He & Hs & _).
  exists o. split; [exact Ho |]. split; [exact He | exact Hs].
Defined.

Lemma cprintf_literal_witness :
  Forall (fun c => Z.land c 255 <> 0 /\ Z.land c 255 <> 37) (bytes "init: starting sh") /\
  cprintf (consoleinit 8 2) (fun _ => None) (Some (bytes "init: starting sh")) [7]
    = Some (EvPutc <$> bytes "init: starting sh").
Proof.
  assert (H : Forall (fun c => Z.land c 255 <> 0 /\ Z.land c 255 <> 37)
                (bytes "init: starting sh")) by (each run).
  split; [exact H |].
  exact (cprintf_literal (consoleinit 8 2) (fun _ => None) _ [7] eq_refl H).
Defined.

Lemma cprintf_sequence_witness :
  cstring (bytes "%d:") /\ plain (bytes "%d:") = true /\
  cprintf (consoleinit 8 2) (fun _ => None) (Some (bytes "%d:" ++ bytes "%x")) [uint (-5); 255]
    = (o1 ← cprintf (consoleinit 8 2) (fun _ => None) (Some (bytes "%d:")) [uint (-5); 255];
       o2 ← cprintf (consoleinit 8 2) (fun _ => None) (Some (bytes "%x")) [255];
       Some (o1 ++ o2)).
Proof.
  assert (H : cstring (bytes "%d:")) by (unfold cstring; each run).
  split; [exact H |]. split; [reflexivity |].
  exact (cprintf_sequence (consoleinit 8 2) (fun _ => None) (bytes "%d:") (bytes "%x")
           [uint (-5); 255] H eq_refl).
Defined.

Lemma cprintf_string_witness :
  cprintf (consoleinit 8 2)
      (fun a => if a =? 4096 then Some ([104; -61] ++ [0; 33]) else None)
      (Some (bytes "%s")) [4096]
    = Some (EvPutc <$> [104; -61]).
Proof.
  apply (cprintf_string (consoleinit 8 2) _ 4096 [104; -61] [0; 33]).
  - reflexivity.
  - discriminate.
  - reflexivity.
  - each ltac:(split; [lia | discriminate]).
  - right. by exists [33].
Defined.

Lemma panic_halts_with_message_witness :
  exists evs dec hexs,
    panic (consoleinit 8 2) (fun _ => None) 1 (Some (bytes "acquire")) []
        (seqZ 2148532224 10)
      = Some (set_panicked (set_locking (consoleinit 8 2) false), evs) /\
    echoed evs = bytes "cpu" ++ dec ++ bytes ": panic: "
                 ++ ((fun c => Z.land c 255) <$> bytes "acquire") ++ [NL]
                 ++ concat ((fun h => 32 :: h) <$> hexs) /\
    silent evs = [] /\
    renders 10 1 dec /\ Forall2 (renders 16) (take 10 (seqZ 2148532224 10)) hexs.
Proof.
  apply (panic_halts_with_message (consoleinit 8 2) (fun _ => None) 1
           (bytes "acquire") [] (seqZ 2148532224 10)).
  - reflexivity.
  - lia.
  - each run.
  - each ltac:(lia).
  - vm_compute. lia.
Defined.

Lemma after_panic_nothing_is_sent_witness :
  panicked (set_panicked (consoleinit 8 2)) = true /\
  panic (set_panicked (consoleinit 8 2)) (fun _ => None) 0 (Some (bytes "again")) [] [] = None /\
  panicked (rd_state (consoleread 2 (set_panicked (consoleinit 8 2)) false 1)) = true /\
  exists s' evs,
    consoleintr 8 2 (set_panicked (consoleinit 8 2)) [C "H"; 0] = Some (s', evs) /\
    echoed evs = [] /\ panicked s' = true.
Proof.
  destruct (after_panic_nothing_is_sent 8 2 21509 21510
              (set_panicked (consoleinit 8 2)) eq_refl)
    as (_ & _ & Hintr & Hpanic & Hread & _).
  split; [reflexivity |]. split; [apply Hpanic |]. split; [apply Hread |].
  eexists _, _.
  match goal with |- ?A /\ _ => assert (Hrun : A) by (vm_compute; reflexivity) end.
  split; [exact Hrun |]. exact (Hintr _ _ _ Hrun).
Defined.




Lemma read_stops_at_quota_witness :
  exists s evs,
    consoleintr 8 2 (consoleinit 8 2) [97; 98; NL; 99; NL] = Some (s, evs) /\
    committed (st_input s) = [97; 98] ++ [10; 99; 10] /\
    consoleread 2 s false 2 =
      {| rd_status := ReadRet 2; rd_dst := [97; 98];
         rd_state := with_input s (advance (st_input s) 2) |} /\
    committed (advance (st_input s) 2) = [10; 99; 10].
Proof.
  eexists _, _.
  match goal with |- ?A /\ _ => assert (Hrun : A) by (vm_compute; reflexivity) end.
  split; [exact Hrun |]. split; [vm_compute; reflexivity |].
  apply (read_stops_at_quota 2 _ false 2 [97; 98] [10; 99; 10]).
  - run.
  - vm_compute. reflexivity.
  - each ltac:(right; run).
  - reflexivity.
  - lia.
Defined.

Lemma read_drains_then_waits_witness :
  exists s evs,
    consoleintr 8 2 (with_termios (consoleinit 8 2) {| c_lflag := 8 |}) [97; NL]
      = Some (s, evs) /\
    committed (st_input s) = [97; 10] /\
    consoleread 2 s true 5 =
      {| rd_status := ReadRet (-1); rd_dst := [97; 10];
         rd_state := with_input s (advance (st_input s) 2) |} /\
    consoleread 2 s false 5 =
      {| rd_status := ReadSleep 3 5; rd_dst := [97; 10];
         rd_state := with_input s (advance (st_input s) 2) |} /\
    committed (advance (st_input s) 2) = [].
Proof.
  eexists _, _.
  match goal with |- ?A /\ _ => assert (Hrun : A) by (vm_compute; reflexivity) end.
  split; [exact Hrun |]. split; [vm_compute; reflexivity |].
  match goal with |- context [consoleread 2 ?s0 true 5] => set (s := s0) end.
  assert (Hi : inv (st_input s)) by run.
  assert (Hp : Forall (passes 2 s) [97; 10]) by (each ltac:(left; reflexivity)).
  assert (Hn : Z.of_nat (length [97; 10]) < 5 < 2 ^ 31) by (split; [vm_compute; reflexivity | lia]).
  destruct (read_drains_then_waits 2 s true 5 [97; 10] Hi eq_refl Hp Hn) as (Ht & _ & Hc).
  destruct (read_drains_then_waits 2 s false 5 [97; 10] Hi eq_refl Hp Hn) as (Hf & _).
  split; [exact Ht |]. split; [exact Hf | exact Hc].
Defined.


Lemma raw_mode_commits_witness :
  canonical 2 (with_termios (consoleinit 8 2) {| c_lflag := 8 |}) = false /\
  (exists s' evs,
     consoleintr 8 2 (with_termios (consoleinit 8 2) {| c_lflag := 8 |}) [C "U"; C "D"]
       = Some (s', evs) /\
     Input.w (st_input s') = Input.e (st_input s') /\ stores evs <> []) /\
  exists o,
    consoleintr_step 8 2 (with_termios (consoleinit 8 2) {| c_lflag := 8 |}) (C "H")
      = Some (with_input (with_termios (consoleinit 8 2) {| c_lflag := 8 |})
                (commit (store_inc_e (st_input (consoleinit 8 2)) (C "H"))),
              EvStore (C "H") :: o ++ [EvWakeup]).
Proof.
  destruct (raw_mode_commits 8 2 (with_termios (consoleinit 8 2) {| c_lflag := 8 |}) eq_refl)
    as (Hbatch & Hstep).
  split; [reflexivity |]. split.
  - eexists _, _.
    match goal with |- ?A /\ _ => assert (Hrun : A) by (vm_compute; reflexivity) end.
    split; [exact Hrun |].
    destruct (Hbatch _ _ _ Hrun) as [(Hs & _) | Hw]; [| exact Hw].
    exfalso. clear - Hs. apply (f_equal (fun s => Input.e (st_input s))) in Hs.
    vm_compute in Hs. discriminate.
  - apply (Hstep (C "H")); [reflexivity | reflexivity | vm_compute; reflexivity].
Defined.

Lemma full_window_is_committed_witness :
  exists P s,
    reach 8 2 21509 21510 any_code P [] s /\
    uint (Input.e (st_input s) - Input.r (st_input s)) = INPUT_BUF /\
    Input.w (st_input s) = Input.e (st_input s) /\
    committed (st_input s) = window (st_input s) /\
    length (committed (st_input s)) = 128%nat.
Proof.
  eexists _, _.
  match goal with |- ?A /\ _ => assert (Hreach : A) end.
  { eapply (reach_intr 8 2 21509 21510 any_code [] [] _ (replicate 130 97));
      [apply reach_init | | vm_compute; reflexivity].
    apply Forall_forall. intros; exact I. }
  split; [exact Hreach |].
  match goal with |- ?A /\ _ => assert (Hfull : A) by (vm_compute; reflexivity) end.
  split; [exact Hfull |].
  exact (full_window_is_committed 8 2 21509 21510 any_code _ _ _ Hreach Hfull).
Defined.

Lemma producer_consumer_separation_witness :
  exists s evs,
    consoleintr 8 2 (consoleinit 8 2) [97; NL; 98] = Some (s, evs) /\
    Input.r (st_input s) = 0 /\ st_cons s = st_cons (consoleinit 8 2) /\
    Input.w (st_input (rd_state (consoleread 2 s false 1))) = Input.w (st_input s) /\
    Input.e (st_input (rd_state (consoleread 2 s false 1))) = Input.e (st_input s) /\
    Input.buf (st_input (rd_state (consoleread 2 s false 1))) = Input.buf (st_input s).
Proof.
  eexists _, _.
  match goal with |- ?A /\ _ => assert (Hrun : A) by (vm_compute; reflexivity) end.
  split; [exact Hrun |].
  destruct (producer_consumer_separation 8 2 (consoleinit 8 2)) as (Hintr & _).
  destruct (Hintr _ _ _ Hrun) as (Hr & Hc & _).
  split; [exact Hr |]. split; [exact Hc |].
  match goal with |- context [consoleread 2 ?s0 false 1] => set (s := s0) end.
  destruct (producer_consumer_separation 8 2 s) as (_ & Hread).
  destruct (Hread false 1) as (Hw & He & Hb & _).
  split; [exact Hw |]. split; [exact He | exact Hb].
Defined.

Lemma commit_wakes_readers_witness :
  exists s evs,
    consoleintr 8 2 (consoleinit 8 2) [97; NL] = Some (s, evs) /\
    Input.w (st_input s) <> Input.w (st_input (consoleinit 8 2)) /\
    EvWakeup ∈ evs.
Proof.
  eexists _, _.
  match goal with |- ?A /\ _ => assert (Hrun : A) by (vm_compute; reflexivity) end.
  split; [exact Hrun |].
  match goal with |- ?A /\ _ => assert (Hw : A) by (vm_compute; discriminate) end.
  split; [exact Hw |].
  exact (commit_wakes_readers 8 2 _ _ _ _ Hrun Hw).
Defined.

Lemma eof_is_never_echoed_witness :
  exists s evs,
    consoleintr 8 2 (with_termios (consoleinit 8 2) {| c_lflag := 8 |}) [C "D"; 97]
      = Some (s, evs) /\
    stores evs = [C "D"; 97] /\ C "D" ∉ echoed evs.
Proof.
  eexists _, _.
  match goal with |- ?A /\ _ => assert (Hrun : A) by (vm_compute; reflexivity) end.
  split; [exact Hrun |]. split; [vm_compute; reflexivity |].
  exact (eof_is_never_echoed 8 2 _ _ _ _ Hrun).
Defined.

Lemma ioctl_set_then_get_witness :
  21510 <> 21509 /\
  (consoleioctl 21509 21510
     (consoleioctl 21509 21510 (consoleinit 8 2) 21510 (Some {| c_lflag := 8 |})).1.2
     21509 (Some {| c_lflag := 0 |})).2 = Some {| c_lflag := 8 |} /\
  st_input (consoleioctl 21509 21510 (consoleinit 8 2) 21510 (Some {| c_lflag := 8 |})).1.2
    = st_input (consoleinit 8 2).
Proof.
  assert (Hne : 21510 <> 21509) by discriminate.
  split; [exact Hne |].
  destruct (ioctl_set_then_get 21509 21510 (consoleinit 8 2)
              {| c_lflag := 8 |} {| c_lflag := 0 |} Hne) as (Hget & _ & Hin & _).
  split; [exact Hget | exact Hin].
Defined.

Lemma consoleintr_app_witness :
  Forall (fun c => 0 <= c) [97; 98] /\
  consoleintr 8 2 (consoleinit 8 2) ([97; 98] ++ [NL]) =
    ('(s1, e1) ← consoleintr 8 2 (consoleinit 8 2) [97; 98];
     '(s2, e2) ← consoleintr 8 2 s1 [NL];
     Some (s2, e1 ++ e2)) /\
  consoleintr 8 2 (consoleinit 8 2) ([97; 98] ++ -1 :: [NL])
    = consoleintr 8 2 (consoleinit 8 2) [97; 98].
Proof.
  assert (Ha : Forall (fun c => 0 <= c) [97; 98]) by (each ltac:(lia)).
  split; [exact Ha |].
  destruct (consoleintr_app 8 2 (consoleinit 8 2) [97; 98] [NL] (-1) Ha) as (Happ & Hneg).
  split; [exact Happ |]. apply Hneg. lia.
Defined.

Lemma printint_fits_buffer_witness :
  (exists o, printint false (- 2147483648) 10 1 = Some o /\
             (1 <= length o <= 11)%nat /\ (length o = 11%nat -> - 2147483648 < 0)) /\
  (exists o, printint false (sint 4294967295) 16 0 = Some o /\ (1 <= length o <= 8)%nat).
Proof.
  apply (printint_fits_buffer (- 2147483648) 4294967295); lia.
Defined.

